(** * Interledger mono-repo: balance accounting, settlement, codec,
      route broadcasting and the store wrapper

    A shallow embedding of the TypeScript/JavaScript sources and the
    properties checked against them.  The first part of the file holds the
    model, one module per source file; the second part holds the lemmas.

    - [BigNumber]        the fragment of bignumber.js the plugin relies on
    - [Lightning]        ilp-plugin-lightning: the [LightningPlugin] class of
                         src/index.ts and the [LightningAccount] class
    - [LightningMessages] the BTP messages that [handleData] takes apart
    - [Oer], [IlpPacket] oer-utils [Writer] and the ilp-packet codec
    - [OerWriter], [Predictor]  the integer writers of [Writer] and the
                         class that predicts the size of its output
    - [Ilqp]             the liquidity request of ilp-packet
    - [RouteBroadcaster] ilp-connector/src/lib/route-broadcaster.js, the
                         class with [peerEpochs]; [RouteBroadcasterTraces]
                         names the requests of one broadcast
    - [PeersByLedger], [TradingPair]  the class with [peersByLedger] of the
                         same file, and the halves of a trading pair
    - [StoreWrapper]     ilp-plugin-xrp-asym-server/src/store-wrapper.ts;
                         [StoreWrapperTraces] names what a trace queues *)

From Stdlib Require Import ZArith Lia List Bool String Ascii QArith Qround.
From stdpp Require Import base option list gmap strings.

Open Scope Z_scope.

(* ===================================================================== *)
(** * Part I: the model                                                   *)
(* ===================================================================== *)

(** ** bignumber.js

    Every number that reaches an account is integral: the constructor of
    the plugin rounds the configured bounds with [dp(0, ...)], packet
    amounts are unsigned 64-bit integers and lnd reports satoshis.  A
    [BigNumber] is therefore an integer, one of the two infinities (the
    defaults of [maximum], [minimum] and of a prefunding [payoutAmount]),
    or NaN. *)
Module BigNumber.

Inductive BigNumber : Type :=
| Fin (z : Z)
| PosInfinity
| NegInfinity
| NaN.

Definition negated (x : BigNumber) : BigNumber :=
  match x with
  | Fin z => Fin (- z)
  | PosInfinity => NegInfinity
  | NegInfinity => PosInfinity
  | NaN => NaN
  end.

Definition abs (x : BigNumber) : BigNumber :=
  match x with
  | Fin z => Fin (Z.abs z)
  | PosInfinity | NegInfinity => PosInfinity
  | NaN => NaN
  end.

(** [x.plus(y)]: NaN is absorbing and opposite infinities cancel to NaN. *)
Definition plus (x y : BigNumber) : BigNumber :=
  match x, y with
  | NaN, _ | _, NaN => NaN
  | Fin a, Fin b => Fin (a + b)
  | PosInfinity, NegInfinity | NegInfinity, PosInfinity => NaN
  | PosInfinity, _ | _, PosInfinity => PosInfinity
  | NegInfinity, _ | _, NegInfinity => NegInfinity
  end.

Definition minus (x y : BigNumber) : BigNumber := plus x (negated y).

(** [x.comparedTo(y)]: 1, -1, 0, or null when either side is NaN. *)
Definition comparedTo (x y : BigNumber) : option comparison :=
  match x, y with
  | NaN, _ | _, NaN => None
  | Fin a, Fin b => Some (a ?= b)
  | PosInfinity, PosInfinity | NegInfinity, NegInfinity => Some Eq
  | PosInfinity, _ | _, NegInfinity => Some Gt
  | NegInfinity, _ | _, PosInfinity => Some Lt
  end.

Definition gt (x y : BigNumber) : bool :=
  match comparedTo x y with Some Gt => true | _ => false end.

Definition gte (x y : BigNumber) : bool :=
  match comparedTo x y with Some Gt | Some Eq => true | _ => false end.

Definition lt (x y : BigNumber) : bool :=
  match comparedTo x y with Some Lt => true | _ => false end.

Definition lte (x y : BigNumber) : bool :=
  match comparedTo x y with Some Lt | Some Eq => true | _ => false end.

Definition isZero (x : BigNumber) : bool :=
  match x with Fin 0 => true | _ => false end.

Definition isNaN (x : BigNumber) : bool :=
  match x with NaN => true | _ => false end.

Definition isFinite (x : BigNumber) : bool :=
  match x with Fin _ => true | _ => false end.

(** [BigNumber.min(x, y)]: NaN if either argument is NaN, otherwise the
    first argument unless it is greater than the second. *)
Definition min (x y : BigNumber) : BigNumber :=
  match y with
  | NaN => NaN
  | _ => if gt x y then y else x
  end.

End BigNumber.

(** ** Exceptions and the state of one account *)
Module Js.

(** The errors the plugin throws.  Messages that interpolate amounts in the
    source are kept to their fixed prefix. *)
Inductive Error : Type :=
| Error_ (message : string)
| AmountTooLargeError (message : string)
    (receivedAmount maximumAmount : BigNumber.BigNumber)
| InsufficientLiquidityError (message : string)
| InternalError (message : string)
| ReferenceError (identifier : string).

Definition message (e : Error) : string :=
  match e with
  | Error_ m | AmountTooLargeError m _ _ | InsufficientLiquidityError m
  | InternalError m => m
  | ReferenceError x => (x ++ " is not defined")%string
  end.

Inductive Result (A : Type) : Type :=
| Ok (a : A)
| Throw (e : Error).
Arguments Ok {A} a.
Arguments Throw {A} e.

Definition isOk {A} (r : Result A) : bool :=
  match r with Ok _ => true | Throw _ => false end.

End Js.

(** ** ilp-plugin-lightning *)
Module Lightning.
Import BigNumber Js.

(** *** [LightningPlugin] (src/index.ts) *)

Inductive Role : Type := client | server.

(** A JavaScript number or the numeric content of a string. *)
Inductive JsNumber : Type :=
| JsFinite (q : Q)
| JsInfinity
| JsNegInfinity
| JsNaN.

(** [BigNumber.Value = string | number | BigNumber].  A string is written
    as the number it denotes (the empty string is left out). *)
Inductive Value : Type :=
| VNumber (n : JsNumber)
| VString (n : JsNumber)
| VBigNumber (n : JsNumber).

Definition numberOf (v : Value) : JsNumber :=
  match v with VNumber n | VString n | VBigNumber n => n end.

(** Truthiness as tested by [settleThreshold ? ... : undefined]: the
    primitive numbers 0 and NaN are falsy, objects and non-empty strings
    are truthy. *)
Definition truthy (v : Value) : bool :=
  match v with
  | VNumber (JsFinite q) => negb (Qnum q =? 0)
  | VNumber JsNaN => false
  | VNumber _ => true
  | VString _ | VBigNumber _ => true
  end.

Inductive RoundingMode : Type := ROUND_DOWN | ROUND_FLOOR.

(** [new BigNumber(v).dp(0, rm)] *)
Definition dp0 (rm : RoundingMode) (n : JsNumber) : BigNumber :=
  match n with
  | JsFinite q =>
      Fin (match rm with
           | ROUND_FLOOR => Qnum q / Z.pos (Qden q)
           | ROUND_DOWN => Z.quot (Qnum q) (Z.pos (Qden q))
           end)
  | JsInfinity => PosInfinity
  | JsNegInfinity => NegInfinity
  | JsNaN => NaN
  end.

Definition jsAbs (n : JsNumber) : JsNumber :=
  match n with
  | JsFinite q => JsFinite (Qmake (Z.abs (Qnum q)) (Qden q))
  | JsInfinity | JsNegInfinity => JsInfinity
  | JsNaN => JsNaN
  end.

Record BalanceOpts : Type := mkBalanceOpts {
  opt_minimum : option Value;
  opt_maximum : option Value;
  opt_settleTo : option Value;
  opt_settleThreshold : option Value
}.

Record LightningPluginOpts : Type := mkOpts {
  opt_role : option Role;
  opt_balance : option BalanceOpts;
  (* [None] stands for a value that is not a string *)
  opt_lndIdentityPubkey : option string;
  opt_lndHost : option string;
  opt_peerPort : option string;
  opt_maxPacketAmount : option Value;
  opt_settleOnConnect : option bool
}.

Record Balance : Type := mkBalance {
  minimum : BigNumber;
  maximum : BigNumber;
  settleTo : BigNumber;
  settleThreshold : option BigNumber
}.

Record LightningPlugin : Type := mkPlugin {
  _role : Role;
  _maxPacketAmount : BigNumber;
  _lndIdentityPubkey : string;
  _lndHost : string;
  _peerPort : string;
  _settleOnConnect : bool;
  _balance : Balance
}.

Definition isClient (r : Role) : bool :=
  match r with client => true | server => false end.

(** The constructor, up to the creation of the internal client or server
    plugin.  Destructuring defaults apply to absent ([undefined]) options. *)
Definition constructor (opts : LightningPluginOpts) : Result LightningPlugin :=
  let role := default client (opt_role opts) in
  let peerPort := default "9735"%string (opt_peerPort opts) in
  let settleOnConnect := default (isClient role) (opt_settleOnConnect opts) in
  let maxPacketAmount := default (VNumber JsInfinity) (opt_maxPacketAmount opts) in
  let balanceOpts := default (mkBalanceOpts None None None None) (opt_balance opts) in
  let maximumOpt := default (VNumber JsInfinity) (opt_maximum balanceOpts) in
  let settleToOpt := default (VNumber (JsFinite 0)) (opt_settleTo balanceOpts) in
  let settleThresholdOpt := opt_settleThreshold balanceOpts in
  let minimumOpt := default (VNumber JsNegInfinity) (opt_minimum balanceOpts) in
  match opt_lndIdentityPubkey opts with
  | None => Throw (Error_ "Lightning identity pubkey required")
  | Some lndIdentityPubkey =>
  match opt_lndHost opts with
  | None => Throw (Error_ "Lightning peering host required")
  | Some lndHost =>
  let this_maxPacketAmount := dp0 ROUND_DOWN (jsAbs (numberOf maxPacketAmount)) in
  let this_balance :=
    {| minimum := dp0 ROUND_FLOOR (numberOf minimumOpt);
       maximum := dp0 ROUND_FLOOR (numberOf maximumOpt);
       settleTo := dp0 ROUND_FLOOR (numberOf settleToOpt);
       settleThreshold :=
         match settleThresholdOpt with
         | Some v =>
             if truthy v then Some (dp0 ROUND_FLOOR (numberOf v)) else None
         | None => None
         end |} in
  let this :=
    {| _role := role;
       _maxPacketAmount := this_maxPacketAmount;
       _lndIdentityPubkey := lndIdentityPubkey;
       _lndHost := lndHost;
       _peerPort := peerPort;
       _settleOnConnect := settleOnConnect;
       _balance := this_balance |} in
  match this_balance.(settleThreshold) with
  | Some threshold =>
      if negb (gte this_balance.(maximum) this_balance.(settleTo)) then
        Throw (Error_ ("Invalid balance configuration: " ++
                 "maximum balance must be greater than or equal to settleTo"))
      else if negb (gte this_balance.(settleTo) threshold) then
        Throw (Error_ ("Invalid balance configuration: " ++
                 "settleTo mustbe greater than or equal to settleThreshold"))
      else if negb (gte threshold this_balance.(minimum)) then
        Throw (Error_ ("Invalid balance configuration: " ++
                 "must be greater than or equal to minimum balance"))
      else Ok this
  | None =>
      if negb (gt this_balance.(maximum) this_balance.(minimum)) then
        Throw (Error_ ("Invalid balance configuration: " ++
                 "maximum balance must be greater than minimum balance"))
      else Ok this
  end
  end
  end.

(** *** [LightningAccount] *)

(** The counterparty record kept in [this.account]. *)
Record Account : Type := mkAccount {
  accountName : string;
  balance : BigNumber;
  lndIdentityPubkey : option string;
  payoutAmount : BigNumber;
  invoices : gset string
}.

(** Calls that leave the account: the money and data handlers, the BTP
    request for an invoice and the payment through lnd. *)
Inductive Event : Type :=
| CalledDataHandler
| CalledMoneyHandler (amount : Z)
| SentInvoiceRequest
| CalledPayInvoice (payment_request : string) (amount : BigNumber).

Record State : Type := mkState {
  account : Account;
  calls : list Event
}.

(** Methods run on the state and either return or throw; a throw keeps the
    state as it was when the exception left the method. *)
Definition M (A : Type) : Type := State -> State * Result A.

Definition ret {A} (a : A) : M A := fun s => (s, Ok a).
Definition throw {A} (e : Error) : M A := fun s => (s, Throw e).
Definition bind {A B} (c : M A) (k : A -> M B) : M B :=
  fun s => match c s with
           | (s', Ok a) => k a s'
           | (s', Throw e) => (s', Throw e)
           end.
Definition tryCatch {A} (c : M A) (handler : Error -> M A) : M A :=
  fun s => match c s with
           | (s', Ok a) => (s', Ok a)
           | (s', Throw e) => handler e s'
           end.

#[global] Instance M_ret : MRet M := @ret.
#[global] Instance M_bind : MBind M := fun A B k c => bind c k.

Definition getAccount : M Account := fun s => (s, Ok (account s)).
Definition emit (e : Event) : M unit :=
  fun s => (mkState (account s) (calls s ++ [e]), Ok tt).

Definition setBalance (b : BigNumber) : M unit :=
  fun s =>
    let a := account s in
    (mkState (mkAccount (accountName a) b (lndIdentityPubkey a)
                        (payoutAmount a) (invoices a)) (calls s), Ok tt).

Definition setPayoutAmount (p : BigNumber) : M unit :=
  fun s =>
    let a := account s in
    (mkState (mkAccount (accountName a) (balance a) (lndIdentityPubkey a)
                        p (invoices a)) (calls s), Ok tt).

Definition setLndIdentityPubkey (pubkey : string) : M unit :=
  fun s =>
    let a := account s in
    (mkState (mkAccount (accountName a) (balance a) (Some pubkey)
                        (payoutAmount a) (invoices a)) (calls s), Ok tt).

Definition addInvoice (payment_request : string) : M unit :=
  fun s =>
    let a := account s in
    (mkState (mkAccount (accountName a) (balance a) (lndIdentityPubkey a)
                        (payoutAmount a) ({[ payment_request ]} ∪ invoices a))
             (calls s), Ok tt).

(** The account created by the constructor of [LightningAccount]. *)
Definition newAccount (master : LightningPlugin) (name : string) : Account :=
  {| accountName := name;
     balance := Fin 0;
     lndIdentityPubkey := None;
     payoutAmount :=
       if gt master.(_balance).(settleTo) (Fin 0) then PosInfinity else Fin 0;
     invoices := ∅ |}.

Definition addBalance (master : LightningPlugin) (amount : BigNumber) : M unit :=
  if isZero amount then ret tt
  else if lt amount (Fin 0) then
    throw (Error_ "cannot add negative amount to balance")
  else
    a ← getAccount;
    let maximum := master.(_balance).(maximum) in
    let newBalance := plus a.(balance) amount in
    if gt newBalance maximum then
      throw (Error_ "Cannot debit: proposed balance exceeds maximum")
    else setBalance newBalance.

Definition subBalance (master : LightningPlugin) (amount : BigNumber) : M unit :=
  if isZero amount then ret tt
  else if lt amount (Fin 0) then
    throw (Error_ "cannot subtract negative amount from balance")
  else
    a ← getAccount;
    let minimum := master.(_balance).(minimum) in
    let newBalance := minus a.(balance) amount in
    if lt newBalance minimum then
      throw (Error_ "Cannot credit: proposedBalance is below the minimum")
    else setBalance newBalance.

(** ILP replies as the account inspects them: only the type byte of the
    reply and, for a reject, its code are read. *)
Inductive RejectData : Type :=
| NoData
| AmountTooLargeData (receivedAmount maximumAmount : BigNumber).

Record IlpReject : Type := mkReject {
  code : string;
  triggeredBy : string;
  rejectMessage : string;
  data : RejectData
}.

Inductive IlpReply : Type :=
| Fulfill
| Reject (r : IlpReject).

Definition isFulfill (r : IlpReply) : bool :=
  match r with Fulfill => true | Reject _ => false end.

Definition isRejectWithCode (c : string) (r : IlpReply) : bool :=
  match r with
  | Fulfill => false
  | Reject rj => bool_decide (rj.(code) = c)
  end.

(** Modelled from the spec: the error classes and [errorToReject] of the
    ilp-packet version the plugin imports are not among the sources.  The
    error taxonomy of the spec gives F08 to an amount over the peer limit
    (with data encoding the received amount and the maximum), T04 to
    insufficient liquidity and F00 to internal and unexpected errors; the
    reject carries the message of the error and is stamped with the given
    address. *)
Definition ilpErrorCode (e : Error) : string :=
  match e with
  | AmountTooLargeError _ _ _ => "F08"
  | InsufficientLiquidityError _ => "T04"
  | InternalError _ | Error_ _ | ReferenceError _ => "F00"
  end.

Definition ilpErrorData (e : Error) : RejectData :=
  match e with
  | AmountTooLargeError _ received maximum => AmountTooLargeData received maximum
  | _ => NoData
  end.

Definition errorToReject (address : string) (e : Error) : IlpReject :=
  {| code := ilpErrorCode e;
     triggeredBy := address;
     rejectMessage := message e;
     data := ilpErrorData e |}.

(** What the collaborators answer when the account calls them. *)
Inductive HandlerReply (A : Type) : Type :=
| Returns (a : A)
| Rejects (e : Error).
Arguments Returns {A} a.
Arguments Rejects {A} e.

Definition await {A} (r : HandlerReply A) : M A :=
  match r with Returns a => ret a | Rejects e => throw e end.

(** The peer's answer to the [invoiceRequest] message: the send may fail,
    the response may lack the [invoiceResponse] sub-protocol, or it holds a
    payment request that lnd decodes to a destination. *)
Inductive InvoiceReply : Type :=
| SendFailed (e : Error)
| NoInvoiceResponse
| InvoiceResponse (payment_request : string) (destination : string).

Record Invoice : Type := mkInvoice {
  settled : bool;
  payment_request : string;
  amt_paid_sat : Z
}.

Definition _validateInvoiceDestination (destination : string) : M unit :=
  a ← getAccount;
  if negb (bool_decide (Some destination = a.(lndIdentityPubkey))) then
    throw (Error_ "Invoice destination does not match peer destination")
  else ret tt.

Definition requestInvoice (reply : InvoiceReply) : M string :=
  tryCatch
    (emit SentInvoiceRequest;;
     match reply with
     | SendFailed e => throw e
     | InvoiceResponse payment_request destination =>
         _validateInvoiceDestination destination;;
         ret payment_request
     | NoInvoiceResponse =>
         throw (Error_ "BTP response to requestInvoice did not include invoice data.")
     end)
    (fun err => throw (Error_ ("Failed to request invoice: " ++ message err))).

Definition payInvoice (payment_request : string) (amount : BigNumber)
    (reply : HandlerReply unit) : M unit :=
  emit (CalledPayInvoice payment_request amount);;
  await reply.

(** [attemptSettle] up to its first [await]: the checks and the optimistic
    [addBalance].  The result is the settlement budget when the method goes
    on to request an invoice, and [None] when it returns early. *)
Definition attemptSettle_begin (master : LightningPlugin) : M (option BigNumber) :=
  match master.(_balance).(settleThreshold) with
  | None => ret None
  | Some settleThreshold =>
      a ← getAccount;
      let shouldSettle := gt settleThreshold a.(balance) in
      if negb shouldSettle then ret None
      else
        let settlementBudget := minus master.(_balance).(settleTo) a.(balance) in
        if lte settlementBudget (Fin 0) then ret None
        else
          let settlementBudget := min settlementBudget a.(payoutAmount) in
          if lte settlementBudget (Fin 0) then ret None
          else
            addBalance master settlementBudget;;
            ret (Some settlementBudget)
  end.

(** The [try { ... } catch (err) { this.subBalance(settlementBudget) }]
    block of [attemptSettle]. *)
Definition attemptSettle_pay (master : LightningPlugin)
    (settlementBudget : BigNumber) (invoice : InvoiceReply)
    (payment : HandlerReply unit) : M unit :=
  tryCatch
    (payment_request ← requestInvoice invoice;
     tryCatch (payInvoice payment_request settlementBudget payment)
              (fun err => throw err);;
     a ← getAccount;
     setPayoutAmount (plus a.(payoutAmount) settlementBudget))
    (fun err => subBalance master settlementBudget).

Definition attemptSettle (master : LightningPlugin) (invoice : InvoiceReply)
    (payment : HandlerReply unit) : M unit :=
  started ← attemptSettle_begin master;
  match started with
  | None => ret tt
  | Some settlementBudget =>
      attemptSettle_pay master settlementBudget invoice payment
  end.

(** [handlePrepareResponse]: the call [this.attemptSettle()] is not
    awaited, so only the part of [attemptSettle] before its first [await]
    runs before the method returns, and a rejection of that promise is not
    seen here.  The result is the budget of the settlement left running. *)
Definition handlePrepareResponse (master : LightningPlugin)
    (prepareAmount : Z) (responsePacket : IlpReply) : M (option BigNumber) :=
  (if isFulfill responsePacket then
     let amount := Fin prepareAmount in
     tryCatch
       (subBalance master amount;;
        a ← getAccount;
        setPayoutAmount (plus a.(payoutAmount) amount))
       (fun err => throw (InternalError (message err)))
   else ret tt);;
  let shouldSettle :=
    isFulfill responsePacket || isRejectWithCode "T04" responsePacket in
  if shouldSettle then
    tryCatch (attemptSettle_begin master) (fun _ => ret None)
  else ret None.

(** [_handlePrepare]: [dataHandler] is [None] when no handler is
    registered, and otherwise holds what the handler answers. *)
Definition _handlePrepare (master : LightningPlugin) (amount : BigNumber)
    (dataHandler : option (HandlerReply IlpReply)) : M IlpReply :=
  tryCatch
    (match dataHandler with
     | None => throw (Error_ "no request handler registered")
     | Some handler =>
         if gt amount master.(_maxPacketAmount) then
           throw (AmountTooLargeError "Packet size is too large"
                    amount master.(_maxPacketAmount))
         else
           tryCatch (addBalance master amount)
             (fun err => throw (InsufficientLiquidityError (message err)));;
           emit CalledDataHandler;;
           response ← await handler;
           (if isFulfill response then ret tt
            else subBalance master amount);;
           ret response
     end)
    (fun err => ret (Reject (errorToReject "" err))).

Definition _handleIncomingInvoice (master : LightningPlugin)
    (invoice : Invoice) (moneyHandler : option (HandlerReply unit)) : M unit :=
  a ← getAccount;
  if invoice.(settled) &&
     bool_decide (invoice.(payment_request) ∈ a.(invoices)) then
    subBalance master (Fin invoice.(amt_paid_sat));;
    match moneyHandler with
    | None => throw (Error_ "no money handler registered")
    | Some handler =>
        emit (CalledMoneyHandler invoice.(amt_paid_sat));;
        await handler
    end
  else ret tt.

(** [_handleInvoiceRequest]: [added] is the payment request of the invoice
    that [lnd.addInvoice()] returns. *)
Definition _handleInvoiceRequest (added : string) : M string :=
  addInvoice added;;
  ret added.

(** [_handlePeeringRequest]: [peering] is the outcome of [lnd.listPeers()]
    and, for a new peer, of [lnd.connectPeer(...)].  Both branches store
    the identity of the peer. *)
Definition _handlePeeringRequest (lndIdentityPubkey : string)
    (peering : HandlerReply unit) : M unit :=
  tryCatch
    (await peering;;
     setLndIdentityPubkey lndIdentityPubkey)
    (fun err => throw (Error_ ("Failed to add peer: " ++ message err))).

(** *** The methods as they interleave

    The methods are [async]: a call runs until its first [await] and is
    resumed when the awaited answer arrives, and other calls on the same
    account may run in between.  A [Node] is an account together with the
    calls that are suspended at an [await]. *)
Inductive Pending : Type :=
| AwaitingInvoice (settlementBudget : BigNumber)
| AwaitingPayment (settlementBudget : BigNumber) (payment_request : string)
| AwaitingDataHandler (amount : BigNumber).

Record Node : Type := mkNode {
  state : State;
  pending : list Pending
}.

(** [attemptSettle] from the answer to the invoice request up to the call
    of [lnd.payInvoice]. *)
Definition attemptSettle_invoiced (master : LightningPlugin)
    (settlementBudget : BigNumber) (invoice : InvoiceReply) : M (option string) :=
  tryCatch
    (payment_request ← requestInvoice invoice;
     emit (CalledPayInvoice payment_request settlementBudget);;
     ret (Some payment_request))
    (fun err => subBalance master settlementBudget;; ret None).

(** [attemptSettle] from the answer of [lnd.payInvoice] to its end. *)
Definition attemptSettle_paid (master : LightningPlugin)
    (settlementBudget : BigNumber) (payment : HandlerReply unit) : M unit :=
  tryCatch
    (await payment;;
     a ← getAccount;
     setPayoutAmount (plus a.(payoutAmount) settlementBudget))
    (fun err => subBalance master settlementBudget).

(** [_handlePrepare] up to [await dataHandler(ilp.data)]: the result is
    [inl] when the handler has been called and the method is suspended,
    [inr] when the method has already returned a reject. *)
Definition _handlePrepare_begin (master : LightningPlugin) (amount : BigNumber)
    (registered : bool) : M (unit + IlpReply) :=
  tryCatch
    (if negb registered then throw (Error_ "no request handler registered")
     else if gt amount master.(_maxPacketAmount) then
       throw (AmountTooLargeError "Packet size is too large"
                amount master.(_maxPacketAmount))
     else
       tryCatch (addBalance master amount)
         (fun err => throw (InsufficientLiquidityError (message err)));;
       emit CalledDataHandler;;
       ret (inl tt))
    (fun err => ret (inr (Reject (errorToReject "" err)))).

(** [_handlePrepare] from the answer of the data handler to its end. *)
Definition _handlePrepare_resume (master : LightningPlugin) (amount : BigNumber)
    (reply : HandlerReply IlpReply) : M IlpReply :=
  tryCatch
    (response ← await reply;
     (if isFulfill response then ret tt
      else subBalance master amount);;
     ret response)
    (fun err => ret (Reject (errorToReject "" err))).

Inductive Input : Type :=
| CallAttemptSettle
| CallHandlePrepareResponse (prepareAmount : Z) (response : IlpReply)
| CallHandlePrepare (amount : Z) (registered : bool)
| CallHandleIncomingInvoice (invoice : Invoice)
    (moneyHandler : option (HandlerReply unit))
| CallHandleInvoiceRequest (added : string)
| CallHandlePeeringRequest (lndIdentityPubkey : string)
    (peering : HandlerReply unit)
| InvoiceReplies (i : nat) (reply : InvoiceReply)
| PaymentReplies (i : nat) (reply : HandlerReply unit)
| DataHandlerReplies (i : nat) (reply : HandlerReply IlpReply).

Definition spawn (started : option BigNumber) (ps : list Pending) : list Pending :=
  match started with
  | Some settlementBudget => ps ++ [AwaitingInvoice settlementBudget]
  | None => ps
  end.

(** One turn of the event loop.  A promise that rejects is dropped: nothing
    in the class observes it. *)
Definition step (master : LightningPlugin) (n : Node) (i : Input) : Node :=
  match i with
  | CallAttemptSettle =>
      match attemptSettle_begin master n.(state) with
      | (s, Ok started) => mkNode s (spawn started n.(pending))
      | (s, Throw _) => mkNode s n.(pending)
      end
  | CallHandlePrepareResponse prepareAmount response =>
      match handlePrepareResponse master prepareAmount response n.(state) with
      | (s, Ok started) => mkNode s (spawn started n.(pending))
      | (s, Throw _) => mkNode s n.(pending)
      end
  | CallHandlePrepare amount registered =>
      (* [handleData]: the amount of the PREPARE is a decimal string *)
      let amountBN := Fin amount in
      match _handlePrepare_begin master amountBN registered n.(state) with
      | (s, Ok (inl _)) => mkNode s (n.(pending) ++ [AwaitingDataHandler amountBN])
      | (s, _) => mkNode s n.(pending)
      end
  | CallHandleIncomingInvoice invoice moneyHandler =>
      mkNode (_handleIncomingInvoice master invoice moneyHandler n.(state)).1
             n.(pending)
  | CallHandleInvoiceRequest added =>
      mkNode (_handleInvoiceRequest added n.(state)).1 n.(pending)
  | CallHandlePeeringRequest lndIdentityPubkey peering =>
      mkNode (_handlePeeringRequest lndIdentityPubkey peering n.(state)).1
             n.(pending)
  | InvoiceReplies i reply =>
      match n.(pending) !! i with
      | Some (AwaitingInvoice settlementBudget) =>
          match attemptSettle_invoiced master settlementBudget reply n.(state) with
          | (s, Ok (Some payment_request)) =>
              mkNode s (<[i := AwaitingPayment settlementBudget payment_request]>
                          n.(pending))
          | (s, _) => mkNode s (delete i n.(pending))
          end
      | _ => n
      end
  | PaymentReplies i reply =>
      match n.(pending) !! i with
      | Some (AwaitingPayment settlementBudget _) =>
          mkNode (attemptSettle_paid master settlementBudget reply n.(state)).1
                 (delete i n.(pending))
      | _ => n
      end
  | DataHandlerReplies i reply =>
      match n.(pending) !! i with
      | Some (AwaitingDataHandler amount) =>
          mkNode (_handlePrepare_resume master amount reply n.(state)).1
                 (delete i n.(pending))
      | _ => n
      end
  end.

Definition run (master : LightningPlugin) (n : Node) (inputs : list Input) : Node :=
  fold_left (step master) inputs n.

Definition isAwaitingPayment (p : Pending) : bool :=
  match p with AwaitingPayment _ _ => true | _ => false end.

(** The number of [lnd.payInvoice] calls that have not yet answered. *)
Definition outstandingPayments (n : Node) : nat :=
  length (filter (fun p => isAwaitingPayment p = true) n.(pending)).

Definition start (master : LightningPlugin) (name : string) : Node :=
  mkNode (mkState (newAccount master name) []) [].

(** *** Invariants used in the statements *)

Definition withBalance (b : BigNumber) (s : State) : State :=
  (setBalance b s).1.

Definition withPayoutAmount (p : BigNumber) (s : State) : State :=
  (setPayoutAmount p s).1.

(** [minimum <= balance <= maximum] *)
Definition withinBounds (master : LightningPlugin) (a : Account) : Prop :=
  lte master.(_balance).(minimum) a.(balance) = true /\
  lte a.(balance) master.(_balance).(maximum) = true.

Definition pendingAmount (p : Pending) : BigNumber :=
  match p with
  | AwaitingInvoice b | AwaitingPayment b _ | AwaitingDataHandler b => b
  end.

(** What every reachable state of a plugin with a finite [settleTo] and
    bounds around the initial balance satisfies. *)
Definition stateInv (master : LightningPlugin) (s : State) : Prop :=
  isFinite master.(_balance).(settleTo) = true /\
  isFinite s.(account).(balance) = true /\
  withinBounds master s.(account) /\
  isNaN s.(account).(payoutAmount) = false.

Definition pendingOk (p : Pending) : Prop :=
  isFinite (pendingAmount p) = true /\ lte (Fin 0) (pendingAmount p) = true.

Definition nodeInv (master : LightningPlugin) (n : Node) : Prop :=
  stateInv master n.(state) /\ Forall pendingOk n.(pending).

Definition payoutOf (s : State) : BigNumber := s.(account).(payoutAmount).

(** A method is sound when it keeps [stateInv] and does not lower
    [payoutAmount]. *)
Definition sound (master : LightningPlugin) {A} (c : M A) : Prop :=
  forall s, stateInv master s ->
    stateInv master (c s).1 /\ gte (payoutOf (c s).1) (payoutOf s) = true.

(** The payment request that [requestInvoice] returns for a reply, if it
    returns one: the reply must carry an invoice whose destination is the
    stored identity of the peer. *)
Definition invoiceAccepted (a : Account) (invoice : InvoiceReply) : option string :=
  match invoice with
  | InvoiceResponse payment_request destination =>
      if bool_decide (Some destination = a.(lndIdentityPubkey))
      then Some payment_request else None
  | _ => None
  end.

(** [min(settleTo - balance, payoutAmount)] *)
Definition budgetOf (master : LightningPlugin) (a : Account) : BigNumber :=
  min (minus master.(_balance).(settleTo) a.(balance)) a.(payoutAmount).

Definition withCalls (es : list Event) (s : State) : State :=
  mkState s.(account) (s.(calls) ++ es).

(** *** Configurations used in the examples *)

Definition number (z : Z) : Value := VNumber (JsFinite (inject_Z z)).

Definition optsWithBalance (b : BalanceOpts) : LightningPluginOpts :=
  {| opt_role := None;
     opt_balance := Some b;
     opt_lndIdentityPubkey := Some "02local"%string;
     opt_lndHost := Some "localhost"%string;
     opt_peerPort := None;
     opt_maxPacketAmount := None;
     opt_settleOnConnect := None |}.

Definition pluginWithBalance (b : Balance) : LightningPlugin :=
  {| _role := client;
     _maxPacketAmount := PosInfinity;
     _lndIdentityPubkey := "02local";
     _lndHost := "localhost";
     _peerPort := "9735";
     _settleOnConnect := true;
     _balance := b |}.

Definition boundedPlugin : LightningPlugin :=
  pluginWithBalance (mkBalance (Fin (-1000)) (Fin 1000) (Fin 0) None).

(** A plugin whose bounds do not contain the initial balance is accepted
    by the constructor. *)
Definition lopsidedOpts : LightningPluginOpts :=
  optsWithBalance (mkBalanceOpts (Some (number 5)) (Some (number 10)) None None).

Definition lopsidedPlugin : LightningPlugin :=
  pluginWithBalance (mkBalance (Fin 5) (Fin 10) (Fin 0) None).

(** A plugin that settles up to an infinite [settleTo]. *)
Definition unboundedOpts : LightningPluginOpts :=
  optsWithBalance
    (mkBalanceOpts None None (Some (VNumber JsInfinity)) (Some (number 1))).

Definition unboundedPlugin : LightningPlugin :=
  pluginWithBalance (mkBalance NegInfinity PosInfinity PosInfinity (Some (Fin 1))).

(** Settle back to 0 once the balance falls below -100. *)
Definition settlingOpts : LightningPluginOpts :=
  optsWithBalance
    (mkBalanceOpts (Some (number (-1000))) (Some (number 1000))
                   (Some (number 0)) (Some (number (-100)))).

Definition settlingPlugin : LightningPlugin :=
  pluginWithBalance
    (mkBalance (Fin (-1000)) (Fin 1000) (Fin 0) (Some (Fin (-100)))).

(** An account of [settlingPlugin] that owes 150 after fulfilled packets. *)
Definition owingState : State :=
  {| account := {| accountName := "peer";
                   balance := Fin (-150);
                   lndIdentityPubkey := Some "02peer"%string;
                   payoutAmount := Fin 150;
                   invoices := ∅ |};
     calls := [] |}.

(** Bounds above the initial balance, with a threshold. *)
Definition cornerOpts : LightningPluginOpts :=
  optsWithBalance
    (mkBalanceOpts (Some (number 5)) (Some (number 10))
                   (Some (number 8)) (Some (number 6))).

Definition cornerPlugin : LightningPlugin :=
  pluginWithBalance (mkBalance (Fin 5) (Fin 10) (Fin 8) (Some (Fin 6))).

(** A packet limit of 50. *)
Definition limitedPlugin : LightningPlugin :=
  {| _role := server;
     _maxPacketAmount := Fin 50;
     _lndIdentityPubkey := "02local";
     _lndHost := "localhost";
     _peerPort := "9735";
     _settleOnConnect := false;
     _balance := mkBalance (Fin (-1000)) (Fin 1000) (Fin 0) None |}.

(** A threshold given as the number 0, with [settleTo] below it. *)
Definition zeroThresholdOpts : LightningPluginOpts :=
  optsWithBalance
    (mkBalanceOpts (Some (number (-10))) (Some (number 10))
                   (Some (number (-5))) (Some (number 0))).

Definition zeroThresholdPlugin : LightningPlugin :=
  pluginWithBalance (mkBalance (Fin (-10)) (Fin 10) (Fin (-5)) None).

Definition paidInvoice : Invoice :=
  {| settled := true; payment_request := "lnbc1"; amt_paid_sat := 10 |}.

(** A settlement that fails after the peer has paid: the peer asks for
    an invoice, a FULFILL of 150 starts a settlement, the peer pays 900 on
    its invoice while the settlement waits for the answer to its invoice
    request, and that request fails. *)
Definition failedSettlement : list Input :=
  [CallHandleInvoiceRequest "lnbc900";
   CallHandlePrepareResponse 150 Fulfill;
   CallHandleIncomingInvoice (mkInvoice true "lnbc900" 900)
     (Some (Returns tt));
   InvoiceReplies 0 (SendFailed (Error_ "request timed out"))].


End Lightning.

(** ** ilp-store-memory and the store wrapper

    [MemoryStore] (ilp-store-memory/index.js) is a [Map] behind [async]
    methods; [StoreWrapper] (store-wrapper.ts) puts a synchronous cache and
    a chain of writes in front of a store. *)
Module StoreWrapper.
Import Js.

(** [MemoryStore] *)
Definition MemoryStore : Type := gmap string string.

Definition MemoryStore_get (k : string) (m : gmap string string) : option string :=
  m !! k.
Definition MemoryStore_put (k v : string) (m : gmap string string)
  : gmap string string := <[k := v]> m.
Definition MemoryStore_del (k : string) (m : gmap string string)
  : gmap string string := delete k m.

(** A value given to [set]: [string | object].  An object is written as
    its JSON text, which is what [JSON.stringify] returns for it. *)
Inductive Value : Type :=
| Str (s : string)
| Obj (json : string).

(** What the cache holds under a key besides [undefined]: a value given
    to [set] or [setCache], or whatever [JSON.parse] returned for a stored
    text, which may also be [null] (whose [typeof] is ['object']) or a
    number or boolean (neither a string nor an object).  In the cache
    [None] is [undefined], which [_load] caches for a key that the store
    does not hold. *)
Inductive Cached : Type :=
| Given (value : Value)
| Null
| NumberOrBoolean (json : string).

(** The callbacks chained on [this._write]. *)
Inductive Write : Type :=
| Put (key valueStr : string)
| Del (key : string).

(** A call of [_load] suspended at [await this._store.get(key)]: the store
    has read the key when it was called, as [MemoryStore.get] does. *)
Record Load : Type := mkLoad {
  load_key : string;
  load_parse : bool;
  load_value : option string
}.

Record Wrapper : Type := mkWrapper {
  _store : gmap string string;
  _cache : gmap string (option Cached);
  (* the callbacks chained on [_write] that are still to run *)
  _write : list Write;
  loads : list Load;
  (* the promise [_write] is rejected *)
  rejected : bool
}.

Definition newWrapper (store : gmap string string) : Wrapper :=
  mkWrapper store ∅ [] [] false.

Definition withCache (c : gmap string (option Cached)) (w : Wrapper) : Wrapper :=
  mkWrapper w.(_store) c w.(_write) w.(loads) w.(rejected).

(** [this._write = this._write.then(callback)]: a callback chained on a
    rejected promise is never called. *)
Definition enqueue (op : Write) (w : Wrapper) : Wrapper :=
  if w.(rejected) then w
  else mkWrapper w.(_store) w.(_cache) (w.(_write) ++ [op]) w.(loads) false.

(** [_load] up to its [await]. *)
Definition _load (key : string) (parse : bool) (w : Wrapper) : Wrapper :=
  if bool_decide (is_Some (w.(_cache) !! key)) then w
  else
    let value := MemoryStore_get key w.(_store) in
    mkWrapper w.(_store) w.(_cache) w.(_write)
              (w.(loads) ++ [mkLoad key parse value]) w.(rejected).

Definition loadString (key : string) : Wrapper -> Wrapper := _load key false.
Definition loadObject (key : string) : Wrapper -> Wrapper := _load key true.

Definition truthyString (value : option string) : bool :=
  match value with
  | Some s => negb (bool_decide (s = ""%string))
  | None => false
  end.

Definition asCacheValue (value : option string) : option Cached :=
  match value with Some s => Some (Given (Str s)) | None => None end.

(** [_load] after its [await].  [parsed] is what [JSON.parse(value)]
    returns, [None] when it throws: the load then rejects and leaves the
    cache alone. *)
Definition _load_resume (l : Load) (parsed : option Cached) (w : Wrapper)
  : Wrapper :=
  if negb (bool_decide (is_Some (w.(_cache) !! l.(load_key)))) then
    if l.(load_parse) && truthyString l.(load_value) then
      match parsed with
      | Some value => withCache (<[l.(load_key) := Some value]> w.(_cache)) w
      | None => w
      end
    else withCache (<[l.(load_key) := asCacheValue l.(load_value)]> w.(_cache)) w
  else w.

Definition unload (key : string) (w : Wrapper) : Wrapper :=
  if bool_decide (is_Some (w.(_cache) !! key))
  then withCache (delete key w.(_cache)) w
  else w.

Definition getString (key : string) (w : Wrapper) : Result (option string) :=
  match w.(_cache) !! key with
  | None | Some None => Ok None
  | Some (Some (Given (Str s))) => Ok (Some s)
  | Some (Some _) =>
      Throw (Error_ "StoreWrapper#getString: unexpected type for key")
  end.

Definition getObject (key : string) (w : Wrapper) : Result (option Cached) :=
  match w.(_cache) !! key with
  | None | Some None => Ok None
  | Some (Some (Given (Obj json))) => Ok (Some (Given (Obj json)))
  | Some (Some Null) => Ok (Some Null)
  | Some (Some _) =>
      Throw (Error_ "StoreWrapper#getObject: unexpected type for key")
  end.

Definition set (key : string) (value : Value) (w : Wrapper) : Wrapper :=
  let w := withCache (<[key := Some (Given value)]> w.(_cache)) w in
  let valueStr :=
    match value with
    | Obj json => json
    | Str s => s
    end in
  enqueue (Put key valueStr) w.

Definition delete_ (key : string) (w : Wrapper) : Wrapper :=
  let w := withCache (delete key w.(_cache)) w in
  enqueue (Del key) w.

Definition setCache (key value : string) (w : Wrapper) : Wrapper :=
  withCache (<[key := Some (Given (Str value))]> w.(_cache)) w.

Definition applyWrite (op : Write) (m : gmap string string) : gmap string string :=
  match op with
  | Put key valueStr => MemoryStore_put key valueStr m
  | Del key => MemoryStore_del key m
  end.

(** The next callback of the [_write] chain runs, and the store resolves
    its [put] or [del]. *)
Definition runWrite (w : Wrapper) : Wrapper :=
  match w.(_write) with
  | [] => w
  | op :: rest =>
      mkWrapper (applyWrite op w.(_store)) w.(_cache) rest w.(loads)
                w.(rejected)
  end.

(** The calls of the methods and, over a store that resolves every call
    as [MemoryStore] does, the wake-ups of what they wait for. *)
Inductive Action : Type :=
| CallLoad (key : string) (parse : bool)
| LoadResumes (i : nat) (parsed : option Cached)
| CallUnload (key : string)
| CallSet (key : string) (value : Value)
| CallDelete (key : string)
| CallSetCache (key value : string)
| WriteRuns.

Definition dropLoad (i : nat) (w : Wrapper) : Wrapper :=
  mkWrapper w.(_store) w.(_cache) w.(_write) (delete i w.(loads)) w.(rejected).

Definition perform (w : Wrapper) (i : Action) : Wrapper :=
  match i with
  | CallLoad key parse => _load key parse w
  | LoadResumes i parsed =>
      match w.(loads) !! i with
      | Some l => dropLoad i (_load_resume l parsed w)
      | None => w
      end
  | CallUnload key => unload key w
  | CallSet key value => set key value w
  | CallDelete key => delete_ key w
  | CallSetCache key value => setCache key value w
  | WriteRuns => runWrite w
  end.

Definition performAll (w : Wrapper) (inputs : list Action) : Wrapper :=
  fold_left perform inputs w.

(** The next callback of the [_write] chain runs, and the store rejects
    its [put] or [del]: the promise [_write] is rejected, and no callback
    chained on it, before or later, is called.  The store is taken to hold
    what it held. *)
Definition rejectWrite (w : Wrapper) : Wrapper :=
  match w.(_write) with
  | [] => w
  | _ :: _ => mkWrapper w.(_store) w.(_cache) [] w.(loads) true
  end.

(** The constructor takes any [Store], and the calls of a store may
    reject; no method of the class catches a rejection.  A [get] that
    rejects ends the load at its [await]. *)
Inductive Event : Type :=
| Does (i : Action)
| GetRejects (i : nat)
| WriteRejects.

Definition react (w : Wrapper) (e : Event) : Wrapper :=
  match e with
  | Does i => perform w i
  | GetRejects i => dropLoad i w
  | WriteRejects => rejectWrite w
  end.

Definition reactAll (w : Wrapper) (events : list Event) : Wrapper :=
  fold_left react events w.



End StoreWrapper.

(** ** ilp-connector: the route broadcaster

    The second [RouteBroadcaster] of route-broadcaster.js, the one that
    keeps [peerEpochs].  The routing tables belong to ilp-routing, which is
    not among the sources: the broadcaster reads
    [routingTables.toJSON(SIMPLIFY_POINTS)] and
    [routingTables.publicTables.currentEpoch], and both change when other
    parts of the connector add or remove routes. *)
Module RouteBroadcaster.

Record Route : Type := mkRoute {
  source_ledger : string;
  destination_ledger : string;
  min_message_window : Z;
  added_during_epoch : Z;
  points : list (Z * Z)
}.

(** A route after [_.omit(route, fieldsToOmit)]. *)
Record BroadcastRoute : Type := mkBroadcastRoute {
  b_source_ledger : string;
  b_destination_ledger : string;
  b_min_message_window : Z;
  b_points : option (list (Z * Z))
}.

Record RoutingTables : Type := mkTables {
  toJSON : list Route;
  currentEpoch : Z
}.

(** The [custom] part of a request handed to [plugin.sendRequest]. *)
Record Request : Type := mkRequest {
  ledger : string;
  new_routes : list BroadcastRoute;
  hold_down_time : Z;
  unreachable_through_me : list string;
  request_full_table : bool
}.

Record Broadcaster : Type := mkBroadcaster {
  routingTables : RoutingTables;
  broadcastCurves : bool;
  holdDownTime : Z;
  (* [Object.keys(this.peers)] *)
  peers : list string;
  peerEpochs : gmap string Z;
  (* a [Set], in insertion order *)
  detectedDown : list string;
  (* history: the requests sent, oldest first *)
  sent : list Request;
  (* the ledgers whose [sendRequest] promise has not settled *)
  awaiting : list string
}.

Definition PEER_LEDGER_PREFIX : string := "peer.".

Definition omit (broadcastCurves : bool) (route : Route) : BroadcastRoute :=
  {| b_source_ledger := route.(source_ledger);
     b_destination_ledger := route.(destination_ledger);
     b_min_message_window := route.(min_message_window);
     b_points := if broadcastCurves then Some route.(points) else None |}.

Definition _currentEpoch (b : Broadcaster) : Z :=
  b.(routingTables).(currentEpoch).

(** [this.peerEpochs[adjacentLedger] || -1] *)
Definition epochOrMinusOne (b : Broadcaster) (adjacentLedger : string) : Z :=
  match b.(peerEpochs) !! adjacentLedger with
  | Some epoch => if epoch =? 0 then -1 else epoch
  | None => -1
  end.

Definition setAdd (x : string) (s : list string) : list string :=
  if bool_decide (x ∈ s) then s else s ++ [x].

Definition markLedgersUnreachable (lostLedgerLinks : list string)
    (b : Broadcaster) : Broadcaster :=
  mkBroadcaster b.(routingTables) b.(broadcastCurves) b.(holdDownTime)
    b.(peers) b.(peerEpochs)
    (fold_left (fun s x => setAdd x s) lostLedgerLinks b.(detectedDown))
    b.(sent) b.(awaiting).

Definition setPeerEpoch (adjacentLedger : string) (epoch : Z)
    (b : Broadcaster) : Broadcaster :=
  mkBroadcaster b.(routingTables) b.(broadcastCurves) b.(holdDownTime)
    b.(peers) (<[adjacentLedger := epoch]> b.(peerEpochs))
    b.(detectedDown) b.(sent) b.(awaiting).

(** [_broadcastToLedger] up to the call of [sendRequest]. *)
Definition _broadcastToLedger (adjacentLedger : string) (routes : list Route)
    (unreachableLedgers : list string) (requestFullTable : bool)
    (b : Broadcaster) : Broadcaster :=
  let routesNewToConnector :=
    filter (fun route : Route =>
              epochOrMinusOne b adjacentLedger < route.(added_during_epoch))
           routes in
  let newRoutes := map (omit b.(broadcastCurves)) routesNewToConnector in
  let request :=
    {| ledger := adjacentLedger;
       new_routes := newRoutes;
       hold_down_time := b.(holdDownTime);
       unreachable_through_me := unreachableLedgers;
       request_full_table := requestFullTable |} in
  mkBroadcaster b.(routingTables) b.(broadcastCurves) b.(holdDownTime)
    b.(peers) b.(peerEpochs) b.(detectedDown)
    (b.(sent) ++ [request]) (b.(awaiting) ++ [adjacentLedger]).

(** The [.then] of [_broadcastToLedger]: the request was answered. *)
Definition broadcastSucceeded (adjacentLedger : string) (b : Broadcaster)
  : Broadcaster :=
  setPeerEpoch adjacentLedger (_currentEpoch b) b.

(** The [.catch] of [_broadcastToLedger]: [lostLedgerLinks] is what
    [routingTables.invalidateConnector(adjacentLedger)] returns. *)
Definition broadcastFailed (adjacentLedger : string)
    (lostLedgerLinks : list string) (b : Broadcaster) : Broadcaster :=
  setPeerEpoch adjacentLedger (-1) (markLedgersUnreachable lostLedgerLinks b).

Definition clearDetectedDown (b : Broadcaster) : Broadcaster :=
  mkBroadcaster b.(routingTables) b.(broadcastCurves) b.(holdDownTime)
    b.(peers) b.(peerEpochs) [] b.(sent) b.(awaiting).

(** [broadcast]: everything it does before the requests are answered. *)
Definition broadcast (requestFullTable : bool) (b : Broadcaster) : Broadcaster :=
  let adjacentLedgers := b.(peers) in
  let routes :=
    filter (fun route : Route =>
              String.prefix PEER_LEDGER_PREFIX route.(destination_ledger) = false)
           b.(routingTables).(toJSON) in
  let unreachableLedgers := b.(detectedDown) in
  let b := clearDetectedDown b in
  fold_left
    (fun b adjacentLedger =>
       let ledgerRoutes :=
         filter (fun route : Route => route.(source_ledger) = adjacentLedger)
                routes in
       _broadcastToLedger adjacentLedger ledgerRoutes unreachableLedgers
                          requestFullTable b)
    adjacentLedgers b.

Definition _addPeer (prefix : string) (b : Broadcaster) : Broadcaster :=
  if bool_decide (prefix ∈ b.(peers)) then b
  else mkBroadcaster b.(routingTables) b.(broadcastCurves) b.(holdDownTime)
         (b.(peers) ++ [prefix]) b.(peerEpochs) b.(detectedDown)
         b.(sent) b.(awaiting).

Definition depeerLedger (prefix : string) (b : Broadcaster) : Broadcaster :=
  mkBroadcaster b.(routingTables) b.(broadcastCurves) b.(holdDownTime)
    (filter (fun p => p ≠ prefix) b.(peers)) b.(peerEpochs) b.(detectedDown)
    b.(sent) b.(awaiting).

Definition withTables (tables : RoutingTables) (b : Broadcaster) : Broadcaster :=
  mkBroadcaster tables b.(broadcastCurves) b.(holdDownTime)
    b.(peers) b.(peerEpochs) b.(detectedDown) b.(sent) b.(awaiting).

Fixpoint removeFirst (x : string) (l : list string) : list string :=
  match l with
  | [] => []
  | y :: rest => if bool_decide (x = y) then rest else y :: removeFirst x rest
  end.

Definition settle (adjacentLedger : string) (b : Broadcaster) : Broadcaster :=
  mkBroadcaster b.(routingTables) b.(broadcastCurves) b.(holdDownTime)
    b.(peers) b.(peerEpochs) b.(detectedDown) b.(sent)
    (removeFirst adjacentLedger b.(awaiting)).

(** What happens to the broadcaster.  [RoutesExpire] is the timer of
    [removeExpiredRoutesSoon]: [routingTables.removeExpiredRoutes()]
    leaves [tables] and returns [lostLedgerLinks]. *)
Inductive Turn : Type :=
| Broadcast (requestFullTable : bool)
| Acknowledged (adjacentLedger : string)
| Failed (adjacentLedger : string) (lostLedgerLinks : list string)
| TablesChange (tables : RoutingTables)
| AddPeer (prefix : string)
| Depeer (prefix : string)
| RoutesExpire (tables : RoutingTables) (lostLedgerLinks : list string).

Definition turn (b : Broadcaster) (i : Turn) : Broadcaster :=
  match i with
  | Broadcast requestFullTable => broadcast requestFullTable b
  | Acknowledged adjacentLedger =>
      if bool_decide (adjacentLedger ∈ b.(awaiting))
      then broadcastSucceeded adjacentLedger (settle adjacentLedger b)
      else b
  | Failed adjacentLedger lostLedgerLinks =>
      if bool_decide (adjacentLedger ∈ b.(awaiting))
      then broadcastFailed adjacentLedger lostLedgerLinks
             (settle adjacentLedger b)
      else b
  | TablesChange tables => withTables tables b
  | AddPeer prefix => _addPeer prefix b
  | Depeer prefix => depeerLedger prefix b
  | RoutesExpire tables lostLedgerLinks =>
      markLedgersUnreachable lostLedgerLinks (withTables tables b)
  end.

Definition turns (b : Broadcaster) (inputs : list Turn) : Broadcaster :=
  fold_left turn inputs b.

(** The constructor: no epoch is recorded for any peer. *)
Definition newBroadcaster (tables : RoutingTables) (broadcastCurves : bool)
    (holdDownTime : Z) (defaultPeers : list string) : Broadcaster :=
  {| routingTables := tables;
     broadcastCurves := broadcastCurves;
     holdDownTime := holdDownTime;
     peers := fold_left (fun ps p => if bool_decide (p ∈ ps) then ps else ps ++ [p])
                        defaultPeers [];
     peerEpochs := ∅;
     detectedDown := [];
     sent := [];
     awaiting := [] |}.

(** [route] has been offered to [adjacentLedger] in some request. *)
Definition offered (adjacentLedger : string) (route : Route) (b : Broadcaster)
  : Prop :=
  exists request,
    request ∈ b.(sent) /\
    request.(ledger) = adjacentLedger /\
    omit b.(broadcastCurves) route ∈ request.(new_routes).

(** The example of the race: one peer, and a route to another ledger that
    appears during epoch 1. *)
Definition lateRoute : Route :=
  {| source_ledger := "ledger.a.";
     destination_ledger := "ledger.b.";
     min_message_window := 1;
     added_during_epoch := 1;
     points := [(0, 0); (100, 99)] |}.

Definition raceInputs : list Turn :=
  [Broadcast true;
   TablesChange (mkTables [lateRoute] 1);
   Acknowledged "ledger.a.";
   Broadcast false;
   Acknowledged "ledger.a."].

(** One more broadcast that the peer acknowledges. *)
Definition quietRound : list Turn :=
  [Broadcast false; Acknowledged "ledger.a."].

(** The state in which the race leaves the broadcaster: the cursor of the
    peer is at the epoch of the route, nothing is awaited, and none of the
    [k] requests sent so far carried a route. *)
Definition stuck (k : nat) (b : Broadcaster) : Prop :=
  b.(routingTables) = mkTables [lateRoute] 1 /\
  b.(peers) = ["ledger.a."%string] /\
  b.(peerEpochs) !! "ledger.a."%string = Some 1 /\
  b.(awaiting) = [] /\
  length b.(sent) = k /\
  Forall (fun request => request.(new_routes) = []) b.(sent).

End RouteBroadcaster.

(** ** oer-utils: [Writer] (src/lib/writer.ts) and a reader

    A [Buffer] is the list of its bytes. *)
Module Oer.
Import Js.

Definition MAX_SAFE_INTEGER : Z := 0x1fffffffffffff.

(** [Writer.UINT_RANGES[length]]; [None] where the table has no entry. *)
Definition UINT_RANGES (length : Z) : option Z :=
  match length with
  | 1 => Some 0xff
  | 2 => Some 0xffff
  | 3 => Some 0xffffff
  | 4 => Some 0xffffffff
  | 5 => Some 0xffffffffff
  | 6 => Some 0xffffffffffff
  | 8 => Some (2 ^ 64)
  | _ => None
  end.

(** The [n] low bytes of [value], most significant first:
    [buffer.writeUIntBE(value, 0, n)], and the padded hexadecimal digits. *)
Fixpoint bigEndian (n : nat) (value : Z) : list Z :=
  match n with
  | O => []
  | S k => (value / 256 ^ Z.of_nat k) mod 256 :: bigEndian k value
  end.

Definition fromBigEndian (bytes : list Z) : Z :=
  fold_left (fun acc byte => acc * 256 + byte) bytes 0.

(** The number of hexadecimal digits of [value.toString(16)]. *)
Definition hexLength (value : Z) : Z :=
  if value =? 0 then 1 else Z.log2 value / 4 + 1.

(** The number of binary digits of [value.toString(2)]. *)
Definition binaryLength (value : Z) : Z :=
  if value =? 0 then 1 else Z.log2 value + 1.

Record Writer : Type := mkWriter { components : list (list Z) }.

Definition newWriter : Writer := mkWriter [].

Definition write (buffer : list Z) (w : Writer) : Writer :=
  mkWriter (w.(components) ++ [buffer]).

Definition getBuffer (w : Writer) : list Z := concat w.(components).

(** [writeUInt(_value, length)] for a JavaScript number [_value] that is an
    integer. *)
Definition writeUInt (value : Z) (length : Z) (w : Writer) : Result Writer :=
  if MAX_SAFE_INTEGER <? value then
    Throw (Error_ "UInt is larger than safe JavaScript range (try using BigNumbers instead)")
  else if value <? 0 then Throw (Error_ "UInt must be positive")
  else if length <=? 0 then Throw (Error_ "UInt length must be greater than zero")
  else if match UINT_RANGES length with
          | Some range => range <? value
          | None => false
          end
  then Throw (Error_ "UInt does not fit in the given number of bytes")
  else if (value <? 0xffffffffffff) && (length <=? 6) then
    Ok (write (bigEndian (Z.to_nat length) value) w)
  else if length * 2 <? hexLength value then
    Throw (Error_ "Invalid count value")
  else Ok (write (bigEndian (Z.to_nat length) value) w).

Definition writeUInt8 (value : Z) : Writer -> Result Writer := writeUInt value 1.
Definition writeUInt32 (value : Z) : Writer -> Result Writer := writeUInt value 4.

Definition andThen {A B} (r : Result A) (k : A -> Result B) : Result B :=
  match r with Ok a => k a | Throw e => Throw e end.

Definition writeVarOctetString (buffer : list Z) (w : Writer) : Result Writer :=
  let MSB := 0x80 in
  let len := Z.of_nat (length buffer) in
  andThen
    (if len <=? 127 then writeUInt8 len w
     else
       let lengthOfLength := (binaryLength len + 7) / 8 in
       andThen (writeUInt8 (Z.lor MSB lengthOfLength) w)
               (writeUInt len lengthOfLength))
    (fun w => Ok (write buffer w)).

(** Modelled from the spec: the [Reader] of oer-utils is not among the
    sources.  A packet is a 1-byte type followed by a length-prefixed
    envelope; the length is a single byte below 128, or a byte [0x80 | n]
    followed by the length in [n] big-endian bytes.  A reader is the part
    of the buffer that has not been read. *)
Definition Reader : Type := list Z.

Definition read (n : Z) (r : Reader) : Result (list Z * Reader) :=
  if Z.of_nat (length r) <? n then Throw (Error_ "Tried to read past the end of the buffer")
  else Ok (take (Z.to_nat n) r, drop (Z.to_nat n) r).

Definition readUInt (n : Z) (r : Reader) : Result (Z * Reader) :=
  andThen (read n r) (fun '(bytes, r) => Ok (fromBigEndian bytes, r)).

Definition readUInt8 : Reader -> Result (Z * Reader) := readUInt 1.

Definition readLengthPrefix (r : Reader) : Result (Z * Reader) :=
  andThen (readUInt8 r) (fun '(len, r) =>
    if Z.testbit len 7 then readUInt (Z.land len 0x7f) r
    else Ok (len, r)).

Definition readVarOctetString (r : Reader) : Result (list Z * Reader) :=
  andThen (readLengthPrefix r) (fun '(len, r) => read len r).

End Oer.

(** ** ilp-packet (index.ts)

    The envelope, the fulfillment packet and the forwarded payment packet.
    The other packet types need the 64-bit and date helpers of
    [src/utils], which are not among the sources. *)
Module IlpPacket.
Import Js Oer.

Definition TYPE_ILP_FULFILLMENT : Z := 9.
Definition TYPE_ILP_FORWARDED_PAYMENT : Z := 10.

(** The conversions between strings and buffers that Node and
    [src/utils/base64url] provide. *)
Record Runtime : Type := mkRuntime {
  (* [Buffer.from(s, 'base64')] *)
  fromBase64 : string -> list Z;
  (* [bufferToBase64url(buffer)] *)
  bufferToBase64url : list Z -> string
}.

(** [Buffer.from(s, 'ascii')]: the low byte of every character. *)
Definition fromAscii (s : string) : list Z :=
  map (fun c => Z.of_N (N_of_ascii c)) (list_ascii_of_string s).

(** [buffer.toString('ascii')]: the low seven bits of every byte. *)
Definition toAscii (buffer : list Z) : string :=
  string_of_list_ascii
    (map (fun b => ascii_of_N (Z.to_N (Z.land b 0x7f))) buffer).

Definition serializeEnvelope (type : Z) (contents : list Z) : Result (list Z) :=
  let writer := newWriter in
  andThen (writeUInt8 type writer) (fun writer =>
  andThen (writeVarOctetString contents writer) (fun writer =>
  Ok (getBuffer writer))).

Definition deserializeEnvelope (binary : list Z) : Result (Z * list Z) :=
  let envelopeReader : Reader := binary in
  andThen (readUInt8 envelopeReader) (fun '(type, envelopeReader) =>
  andThen (readVarOctetString envelopeReader) (fun '(contents, _) =>
  Ok (type, contents))).

Record IlpForwardedPayment : Type := mkForwardedPayment {
  fp_account : string;
  fp_data : string
}.

Definition serializeIlpForwardedPayment (rt : Runtime)
    (json : IlpForwardedPayment) : Result (list Z) :=
  let writer := newWriter in
  (* account *)
  andThen (writeVarOctetString (fromAscii json.(fp_account)) writer) (fun writer =>
  (* data *)
  andThen (writeVarOctetString (rt.(fromBase64) json.(fp_data)) writer) (fun writer =>
  (* extensibility *)
  andThen (writeUInt8 0 writer) (fun writer =>
  serializeEnvelope TYPE_ILP_FORWARDED_PAYMENT (getBuffer writer)))).

(** The identifier [base64url] is not declared anywhere in the module: the
    import is [bufferToBase64url].  Evaluating the call throws a
    [ReferenceError] once the account has been read. *)
Definition deserializeIlpForwardedPayment (rt : Runtime) (binary : list Z)
  : Result IlpForwardedPayment :=
  andThen (deserializeEnvelope binary) (fun '(type, contents) =>
  if negb (type =? TYPE_ILP_FORWARDED_PAYMENT) then
    Throw (Error_ "Packet has incorrect type")
  else
    let reader : Reader := contents in
    andThen (readVarOctetString reader) (fun '(account, reader) =>
    let account := toAscii account in
    Throw (ReferenceError "base64url"))).

Record IlpFulfillment : Type := mkFulfillment {
  f_data : string
}.

Definition serializeIlpFulfillment (rt : Runtime) (json : IlpFulfillment)
  : Result (list Z) :=
  let writer := newWriter in
  (* data *)
  andThen (writeVarOctetString (rt.(fromBase64) json.(f_data)) writer) (fun writer =>
  (* extensibility *)
  andThen (writeUInt8 0 writer) (fun writer =>
  serializeEnvelope TYPE_ILP_FULFILLMENT (getBuffer writer))).

Definition deserializeIlpFulfillment (rt : Runtime) (binary : list Z)
  : Result IlpFulfillment :=
  andThen (deserializeEnvelope binary) (fun '(type, contents) =>
  if negb (type =? TYPE_ILP_FULFILLMENT) then
    Throw (Error_ "Packet has incorrect type")
  else
    let reader : Reader := contents in
    andThen (readVarOctetString reader) (fun '(data, reader) =>
    let data := rt.(bufferToBase64url) data in
    Ok {| f_data := data |})).

(** [{ type, data }] for the two packet types above. *)
Inductive IlpPacket : Type :=
| Fulfillment (data : IlpFulfillment)
| ForwardedPayment (data : IlpForwardedPayment).

Definition typeOf (obj : IlpPacket) : Z :=
  match obj with
  | Fulfillment _ => TYPE_ILP_FULFILLMENT
  | ForwardedPayment _ => TYPE_ILP_FORWARDED_PAYMENT
  end.

Definition serializeIlpPacket (rt : Runtime) (obj : IlpPacket) : Result (list Z) :=
  match obj with
  | Fulfillment data => serializeIlpFulfillment rt data
  | ForwardedPayment data => serializeIlpForwardedPayment rt data
  end.

(** What [deserializeIlpPacket] returns: [{ type, typeString, data }]. *)
Record Deserialized : Type := mkDeserialized {
  d_type : Z;
  d_typeString : string;
  d_data : IlpPacket
}.

(** [None] for the type bytes 1 to 8, whose deserializers are left out. *)
Definition deserializeIlpPacket (rt : Runtime) (binary : list Z)
  : option (Result Deserialized) :=
  match binary !! 0%nat with
  | Some 9 =>
      Some (andThen (deserializeIlpFulfillment rt binary) (fun packet =>
            Ok (mkDeserialized 9 "ilp_fulfillment" (Fulfillment packet))))
  | Some 10 =>
      Some (andThen (deserializeIlpForwardedPayment rt binary) (fun packet =>
            Ok (mkDeserialized 10 "ilp_forwarded_payment"
                  (ForwardedPayment packet))))
  | Some (1 | 2 | 3 | 4 | 5 | 6 | 7 | 8) => None
  | _ => Some (Throw (Error_ "Packet has invalid type"))
  end.

(** A runtime for the examples: it decodes the empty string only. *)
Definition emptyRuntime : Runtime :=
  {| fromBase64 := fun _ => []; bufferToBase64url := fun _ => ""%string |}.

Definition forwardedExample : IlpPacket :=
  ForwardedPayment {| fp_account := "g.us"; fp_data := "" |}.

End IlpPacket.


(** ** oer-utils: the other writers of [Writer], and the [Predictor]

    [writeUInt], [writeInt], [writeVarUInt] and [writeVarInt] take a
    [BigNumber.Value]: a JavaScript number, or a BigNumber or a numeric
    string, which escape the tests on [typeof _value === 'number'].  The
    values are those that [isInteger] accepts. *)
Module OerWriter.
Import Js Oer.

Inductive Value : Type :=
| Number (z : Z)
| Big (z : Z).

Definition isNumber (v : Value) : bool :=
  match v with Number _ => true | Big _ => false end.

Definition valueOf (v : Value) : Z :=
  match v with Number z | Big z => z end.

Definition MIN_SAFE_INTEGER : Z := - 0x1fffffffffffff.

(** [Writer.INT_RANGES[length]]; [None] where the table has no entry. *)
Definition INT_RANGES (length : Z) : option (Z * Z) :=
  match length with
  | 1 => Some (- 0x80, 0x7f)
  | 2 => Some (- 0x8000, 0x7fff)
  | 3 => Some (- 0x800000, 0x7fffff)
  | 4 => Some (- 0x80000000, 0x7fffffff)
  | 5 => Some (- 0x8000000000, 0x7fffffffff)
  | 6 => Some (- 0x800000000000, 0x7fffffffffff)
  | 8 => Some (- 0x80000000000000, 0x7fffffffffffff)
  | _ => None
  end.

(** [hex = '0'.repeat(length * 2 - hex.length) + hex] followed by
    [Buffer.from(hex, 'hex')]: [repeat] throws a [RangeError] for a
    negative count. *)
Definition paddedHex (value length : Z) : Result (list Z) :=
  if length * 2 <? hexLength value then Throw (Error_ "Invalid count value")
  else Ok (bigEndian (Z.to_nat length) value).

(** [writeUInt(_value, length)].  An array holds the two halves of a
    64-bit number and is written as two [UInt32], whatever [length] is. *)
Definition writeUInt (_value : Value + Z * Z) (length : Z) (w : Writer)
  : Result Writer :=
  match _value with
  | inr (high, low) => andThen (writeUInt32 high w) (writeUInt32 low)
  | inl _value =>
      if isNumber _value && (MAX_SAFE_INTEGER <? valueOf _value) then
        Throw (Error_ "UInt is larger than safe JavaScript range (try using BigNumbers instead)")
      else
        let value := valueOf _value in
        if value <? 0 then Throw (Error_ "UInt must be positive")
        else if length <=? 0 then
          Throw (Error_ "UInt length must be greater than zero")
        else if match UINT_RANGES length with
                | Some range => range <? value
                | None => false
                end
        then Throw (Error_ "UInt does not fit in the given number of bytes")
        else if (value <? 0xffffffffffff) && (length <=? 6) then
          Ok (write (bigEndian (Z.to_nat length) value) w)
        else andThen (paddedHex value length) (fun buffer => Ok (write buffer w))
  end.

Definition writeUInt16 (value : Value + Z * Z) : Writer -> Result Writer :=
  writeUInt value 2.
Definition writeUInt64 (value : Value + Z * Z) : Writer -> Result Writer :=
  writeUInt value 8.

(** [writeInt(_value, length)].  Reading [Writer.INT_RANGES[length][0]]
    for a length without an entry throws a [TypeError]. *)
Definition writeInt (_value : Value) (length : Z) (w : Writer) : Result Writer :=
  if length <=? 0 then Throw (Error_ "Int length must be greater than zero")
  else if isNumber _value && (MAX_SAFE_INTEGER <? valueOf _value) then
    Throw (Error_ "Int is larger than safe JavaScript range")
  else if isNumber _value && (valueOf _value <? MIN_SAFE_INTEGER) then
    Throw (Error_ "Int is smaller than safe JavaScript range")
  else
    let value := valueOf _value in
    match INT_RANGES length with
    | None => Throw (Error_ "Cannot read property '0' of undefined")
    | Some (lowest, highest) =>
        if value <? lowest then
          Throw (Error_ "Int does not fit in the given number of bytes")
        else if highest <? value then
          Throw (Error_ "Int does not fit in the given number of bytes")
        else
          let valueToWrite :=
            if value <? 0 then 256 ^ length + value else value in
          andThen (paddedHex valueToWrite length)
                  (fun buffer => Ok (write buffer w))
    end.

Definition writeInt8 (value : Value) : Writer -> Result Writer := writeInt value 1.
Definition writeInt16 (value : Value) : Writer -> Result Writer := writeInt value 2.
Definition writeInt32 (value : Value) : Writer -> Result Writer := writeInt value 4.
Definition writeInt64 (value : Value) : Writer -> Result Writer := writeInt value 8.

(** [Math.ceil(n / 8)] for a non-negative [n]. *)
Definition ceilDiv8 (n : Z) : Z := (n + 7) / 8.

(** [writeVarUInt(_value)]: a buffer is written as it is. *)
Definition writeVarUInt (_value : Value + list Z) (w : Writer) : Result Writer :=
  match _value with
  | inr buffer => writeVarOctetString buffer w
  | inl _value =>
      if isNumber _value && (MAX_SAFE_INTEGER <? valueOf _value) then
        Throw (Error_ "UInt is larger than safe JavaScript range")
      else
        let value := valueOf _value in
        if value <? 0 then Throw (Error_ "UInt must be positive")
        else
          let lengthOfValue := ceilDiv8 (binaryLength value) in
          andThen (paddedHex value lengthOfValue) (fun buffer =>
          writeVarOctetString buffer w)
  end.

(** [writeVarInt(_value)] *)
Definition writeVarInt (_value : Value + list Z) (w : Writer) : Result Writer :=
  match _value with
  | inr buffer => writeVarOctetString buffer w
  | inl _value =>
      if isNumber _value && (MAX_SAFE_INTEGER <? valueOf _value) then
        Throw (Error_ "Int is larger than safe JavaScript range")
      else if isNumber _value && (valueOf _value <? MIN_SAFE_INTEGER) then
        Throw (Error_ "Int is smaller than safe JavaScript range")
      else
        let value := valueOf _value in
        let lengthDeterminingValue := if value <? 0 then 1 - value else value in
        let lengthOfValue := ceilDiv8 (binaryLength lengthDeterminingValue + 1) in
        let valueToWrite :=
          if value <? 0 then 256 ^ lengthOfValue + value else value in
        andThen (paddedHex valueToWrite lengthOfValue) (fun buffer =>
        writeVarOctetString buffer w)
  end.

Definition writeOctetString (buffer : list Z) (length : Z) (w : Writer)
  : Result Writer :=
  if negb (Z.of_nat (List.length buffer) =? length) then
    Throw (Error_ "Incorrect length for octet string")
  else Ok (write buffer w).

(** The number that [bytes] hold in two's complement, most significant
    byte first. *)
Definition signedValue (bytes : list Z) : Z :=
  let unsigned := fromBigEndian bytes in
  if 2 * unsigned <? 256 ^ Z.of_nat (List.length bytes) then unsigned
  else unsigned - 256 ^ Z.of_nat (List.length bytes).

(** The number of bytes that [writeVarInt] uses for [value]. *)
Definition signedLength (value : Z) : Z :=
  ceilDiv8 (binaryLength (if value <? 0 then 1 - value else value) + 1).

End OerWriter.

(** [Predictor] (src/lib/predictor.ts): the interface of the writer, with
    the size of the output as its only state.  [isInteger] is
    [Number.isInteger], which no BigNumber and no string passes. *)
Module Predictor.
Import Js Oer OerWriter.

Record Predictor : Type := mkPredictor { size : Z }.

Definition newPredictor : Predictor := mkPredictor 0.

Definition getSize (p : Predictor) : Z := p.(size).

Definition skip (bytes : Z) (p : Predictor) : Predictor :=
  mkPredictor (p.(size) + bytes).

Definition write (bytes : list Z) (p : Predictor) : Predictor :=
  mkPredictor (p.(size) + Z.of_nat (length bytes)).

Definition writeUInt (value : Value + Z * Z) (length : Z) (p : Predictor)
  : Predictor :=
  mkPredictor (p.(size) + length).

Definition writeUInt8 (value : Value + Z * Z) : Predictor -> Predictor :=
  writeUInt value 1.
Definition writeUInt16 (value : Value + Z * Z) : Predictor -> Predictor :=
  writeUInt value 2.
Definition writeUInt32 (value : Value + Z * Z) : Predictor -> Predictor :=
  writeUInt value 4.
Definition writeUInt64 (value : Value + Z * Z) : Predictor -> Predictor :=
  writeUInt value 8.

Definition skipVarOctetString (length : Z) (p : Predictor) : Predictor :=
  (* Skip initial byte *)
  let p := skip 1 p in
  (* Skip separate length field if there is one *)
  let p :=
    if 127 <? length then
      let lengthOfLength := ceilDiv8 (binaryLength length) in
      skip lengthOfLength p
    else p in
  skip length p.

Definition writeVarOctetString (buffer : list Z) (p : Predictor) : Predictor :=
  skipVarOctetString (Z.of_nat (length buffer)) p.

Definition writeOctetString (buffer : list Z) (length : Z) (p : Predictor)
  : Predictor :=
  skip length p.

Definition writeVarUInt (value : Value + list Z) (p : Predictor)
  : Result Predictor :=
  match value with
  | inr buffer => Ok (writeVarOctetString buffer p)
  | inl (Big _) => Throw (Error_ "UInt must be an integer")
  | inl (Number value) =>
      if value <? 0 then Throw (Error_ "UInt must be positive")
      else
        let length := ceilDiv8 (binaryLength value) in
        Ok (skipVarOctetString length p)
  end.

(** The calls that both classes understand.  [Writer.writeUInt] and its
    shortcuts take a number, a BigNumber or an array of two numbers. *)
Inductive Call : Type :=
| WriteUInt (value : Value + Z * Z) (length : Z)
| WriteUInt8 (value : Value + Z * Z)
| WriteUInt16 (value : Value + Z * Z)
| WriteUInt32 (value : Value + Z * Z)
| WriteUInt64 (value : Value + Z * Z)
| WriteVarUInt (value : Value + list Z)
| WriteOctetString (buffer : list Z) (length : Z)
| WriteVarOctetString (buffer : list Z)
| Write (buffer : list Z).

Definition callWriter (w : Writer) (c : Call) : Result Writer :=
  match c with
  | WriteUInt value length => OerWriter.writeUInt value length w
  | WriteUInt8 value => OerWriter.writeUInt value 1 w
  | WriteUInt16 value => OerWriter.writeUInt16 value w
  | WriteUInt32 value => OerWriter.writeUInt value 4 w
  | WriteUInt64 value => OerWriter.writeUInt64 value w
  | WriteVarUInt value => OerWriter.writeVarUInt value w
  | WriteOctetString buffer length => OerWriter.writeOctetString buffer length w
  | WriteVarOctetString buffer => Oer.writeVarOctetString buffer w
  | Write buffer => Ok (Oer.write buffer w)
  end.

Definition callPredictor (p : Predictor) (c : Call) : Result Predictor :=
  match c with
  | WriteUInt value length => Ok (writeUInt value length p)
  | WriteUInt8 value => Ok (writeUInt8 value p)
  | WriteUInt16 value => Ok (writeUInt16 value p)
  | WriteUInt32 value => Ok (writeUInt32 value p)
  | WriteUInt64 value => Ok (writeUInt64 value p)
  | WriteVarUInt value => writeVarUInt value p
  | WriteOctetString buffer length => Ok (writeOctetString buffer length p)
  | WriteVarOctetString buffer => Ok (writeVarOctetString buffer p)
  | Write buffer => Ok (write buffer p)
  end.

(** A function that takes a writer, run on either class: the calls in
    order, up to the first that throws. *)
Fixpoint runWriter (w : Writer) (cs : list Call) : Result Writer :=
  match cs with
  | [] => Ok w
  | c :: cs => andThen (callWriter w c) (fun w => runWriter w cs)
  end.

Fixpoint runPredictor (p : Predictor) (cs : list Call) : Result Predictor :=
  match cs with
  | [] => Ok p
  | c :: cs => andThen (callPredictor p c) (fun p => runPredictor p cs)
  end.

(** Calls that hand [writeVarUInt] a BigNumber or a string. *)
Definition bigVarUInt (c : Call) : bool :=
  match c with
  | WriteVarUInt (inl (Big _)) => true
  | _ => false
  end.

(** Calls that hand [writeUInt] an array together with another length
    than eight bytes. *)
Definition shortArray (c : Call) : bool :=
  match c with
  | WriteUInt (inr _) length => negb (length =? 8)
  | WriteUInt8 (inr _) | WriteUInt16 (inr _) | WriteUInt32 (inr _) => true
  | _ => false
  end.

(** The calls for which the two classes are meant to agree. *)
Definition predictable (c : Call) : bool :=
  negb (bigVarUInt c) && negb (shortArray c).

End Predictor.

(** ** ilp-packet: the liquidity request *)
Module Ilqp.
Import Js Oer IlpPacket.

Definition TYPE_ILQP_LIQUIDITY_REQUEST : Z := 2.

Record IlqpLiquidityRequest : Type := mkLiquidityRequest {
  destinationAccount : string;
  destinationHoldDuration : Z
}.

(** [reader.readUInt32()] of the reader of [Oer]. *)
Definition readUInt32 : Reader -> Result (Z * Reader) := readUInt 4.

Definition serializeIlqpLiquidityRequest (json : IlqpLiquidityRequest)
  : Result (list Z) :=
  let writer := newWriter in
  (* destinationAccount *)
  andThen (writeVarOctetString (fromAscii json.(destinationAccount)) writer)
    (fun writer =>
  (* destinationHoldDuration *)
  andThen (writeUInt32 json.(destinationHoldDuration) writer) (fun writer =>
  (* extensibility *)
  andThen (writeUInt8 0 writer) (fun writer =>
  serializeEnvelope TYPE_ILQP_LIQUIDITY_REQUEST (getBuffer writer)))).

Definition deserializeIlqpLiquidityRequest (binary : list Z)
  : Result IlqpLiquidityRequest :=
  andThen (deserializeEnvelope binary) (fun '(type, contents) =>
  if negb (type =? TYPE_ILQP_LIQUIDITY_REQUEST) then
    Throw (Error_ "Packet has incorrect type")
  else
    let reader : Reader := contents in
    andThen (readVarOctetString reader) (fun '(destinationAccount, reader) =>
    let destinationAccount := toAscii destinationAccount in
    andThen (readUInt32 reader) (fun '(destinationHoldDuration, reader) =>
    (* Ignore remaining bytes for extensibility *)
    Ok {| destinationAccount := destinationAccount;
          destinationHoldDuration := destinationHoldDuration |}))).

(** The characters that [Buffer.from(s, 'ascii')] and
    [buffer.toString('ascii')] give back unchanged. *)
Definition sevenBit (s : string) : Prop :=
  Forall (fun c => (N_of_ascii c < 128)%N) (list_ascii_of_string s).

End Ilqp.
(** ** The store wrapper: what a trace queues *)
Module StoreWrapperTraces.
Import Js StoreWrapper.

(** [typeof value === 'object' ? JSON.stringify(value) : value] *)
Definition valueStr (value : Value) : string :=
  match value with
  | Obj json => json
  | Str s => s
  end.

(** The callback that a call chains on [_write]. *)
Definition queued (i : Action) : list Write :=
  match i with
  | CallSet key value => [Put key (valueStr value)]
  | CallDelete key => [Del key]
  | _ => []
  end.

Definition issues (e : Event) : list Write :=
  match e with
  | Does i => queued i
  | _ => []
  end.

Definition writeKey (op : Write) : string :=
  match op with Put key _ | Del key => key end.

(** Calls of [set] or [delete] on [key]. *)
Definition queuesWrite (key : string) (i : Action) : bool :=
  match i with
  | CallSet k _ | CallDelete k => bool_decide (k = key)
  | _ => false
  end.

(** The last of the writes [ws] that is a write of [key]. *)
Definition lastWrite (key : string) (ws : list Write) : option Write :=
  last (filter (fun op => writeKey op = key) ws).

(** What a store holds under [key] once the writes [ws] have reached it
    one after the other, when it held [before]: the last write of the key
    decides. *)
Definition held (key : string) (ws : list Write) (before : option string)
  : option string :=
  match lastWrite key ws with
  | Some (Put _ valueStr) => Some valueStr
  | Some (Del _) => None
  | None => before
  end.

(** The writes [ws] have been issued and the first [n] of them have
    reached the store, which held [store] at first: the store holds what
    these [n] writes leave, and the others wait on [_write] in the order
    of their issue, unless the chain has been rejected, which happens at
    a write that was issued. *)
Definition ordered (store : gmap string string) (ws : list Write) (n : nat)
    (w : Wrapper) : Prop :=
  (forall key,
     MemoryStore_get key w.(_store) =
       held key (take n ws) (MemoryStore_get key store)) /\
  if w.(rejected) then (n < length ws)%nat /\ w.(_write) = []
  else (n <= length ws)%nat /\ w.(_write) = drop n ws.

(** Letting every callback that is chained on [_write] run. *)
Definition drained (w : Wrapper) : Wrapper :=
  performAll w (replicate (length w.(_write)) WriteRuns).


End StoreWrapperTraces.

(** ** The route broadcaster: the requests of one broadcast *)
Module RouteBroadcasterTraces.
Import RouteBroadcaster.

(** The routes that [broadcast] hands to [_broadcastToLedger] for
    [adjacentLedger]: those of the table that do not lead to a peer ledger
    and start at [adjacentLedger]. *)
Definition ledgerRoutes (b : Broadcaster) (adjacentLedger : string) : list Route :=
  filter (fun route : Route => route.(source_ledger) = adjacentLedger)
    (filter (fun route : Route =>
               String.prefix PEER_LEDGER_PREFIX route.(destination_ledger) = false)
            b.(routingTables).(toJSON)).

(** The request that [_broadcastToLedger] hands to [sendRequest] when
    [broadcast] runs in the state [b]. *)
Definition requestFor (b : Broadcaster) (requestFullTable : bool)
    (adjacentLedger : string) : Request :=
  {| ledger := adjacentLedger;
     new_routes :=
       map (omit b.(broadcastCurves))
           (filter (fun route : Route =>
                      epochOrMinusOne b adjacentLedger < route.(added_during_epoch))
                   (ledgerRoutes b adjacentLedger));
     hold_down_time := b.(holdDownTime);
     unreachable_through_me := b.(detectedDown);
     request_full_table := requestFullTable |}.

(** A route as a peer may receive it from this broadcaster. *)
Definition wellFiltered (broadcastCurves : bool) (request : Request) : Prop :=
  Forall (fun r : BroadcastRoute =>
            r.(b_source_ledger) = request.(ledger) /\
            String.prefix PEER_LEDGER_PREFIX r.(b_destination_ledger) = false /\
            (is_Some r.(b_points) <-> broadcastCurves = true))
         request.(new_routes).

(** The ledgers that a turn can mark as unreachable: those that
    [invalidateConnector] returns after a failed request, and those that
    [removeExpiredRoutes] returns to the cleanup timer. *)
Definition reportedLost (i : Turn) : list string :=
  match i with
  | Failed _ lostLedgerLinks | RoutesExpire _ lostLedgerLinks => lostLedgerLinks
  | _ => []
  end.

(** The requests that have been sent since the state [before]. *)
Definition sentSince (before after : Broadcaster) : list Request :=
  drop (length before.(sent)) after.(sent).

End RouteBroadcasterTraces.

(** ** ilp-plugin-lightning: the BTP messages of an account *)
Module LightningMessages.
Import BigNumber Js Lightning.

Definition TYPE_ILP_PREPARE : Z := 12.

(** An entry of [message.data.protocolData], with its data as
    [handleData] reads it: the two fields of the JSON of a peering
    request, and of an ILP packet its first byte and the amount that
    [deserializeIlpPrepare] finds in it.  [Other] is an entry under any
    other protocol name. *)
Inductive BtpSubProtocol : Type :=
| PeeringRequest (lndIdentityPubkey lndPeeringHost : string)
| InvoiceRequest
| Ilp (type : Z) (amount : Z)
| Other.

(** [p.protocolName === name], for the three names that are looked up. *)
Definition named (name : string) (p : BtpSubProtocol) : bool :=
  match p with
  | PeeringRequest _ _ => bool_decide (name = "peeringRequest"%string)
  | InvoiceRequest => bool_decide (name = "invoiceRequest"%string)
  | Ilp _ _ => bool_decide (name = "ilp"%string)
  | Other => false
  end.

(** [message.data.protocolData.find(p => p.protocolName === name)] *)
Definition getSubProtocol (message : list BtpSubProtocol) (name : string)
  : option BtpSubProtocol :=
  List.find (named name) message.

(** What [handleData] resolves to. *)
Inductive BtpReply : Type :=
| PeeringResponse (lndIdentityPubkey : string)
| InvoiceResponseData (payment_request : string)
| IlpResponse (response : IlpReply)
| NoProtocolData.

(** [handleData]: [peering] and [added] are what lnd answers to the calls
    of [_handlePeeringRequest] and [_handleInvoiceRequest]. *)
Definition handleData (master : LightningPlugin) (message : list BtpSubProtocol)
    (peering : HandlerReply unit) (added : string)
    (dataHandler : option (HandlerReply IlpReply)) : M BtpReply :=
  let peeringRequest := getSubProtocol message "peeringRequest" in
  let invoiceRequest := getSubProtocol message "invoiceRequest" in
  let ilp := getSubProtocol message "ilp" in
  match peeringRequest with
  | Some (PeeringRequest lndIdentityPubkey lndPeeringHost) =>
      _handlePeeringRequest lndIdentityPubkey peering;;
      ret (PeeringResponse master.(_lndIdentityPubkey))
  | _ =>
  match invoiceRequest with
  | Some _ =>
      payment_request ← _handleInvoiceRequest added;
      ret (InvoiceResponseData payment_request)
  | None =>
  match ilp with
  | Some (Ilp type amount) =>
      if type =? TYPE_ILP_PREPARE then
        let amountBN := Fin amount in
        response ← _handlePrepare master amountBN dataHandler;
        ret (IlpResponse response)
      else ret NoProtocolData
  | _ => ret NoProtocolData
  end
  end
  end.

(** The calls of [lnd.payInvoice]. *)
Definition isPayment (e : Event) : bool :=
  match e with CalledPayInvoice _ _ => true | _ => false end.

Definition isPeeringRequest (i : Input) : bool :=
  match i with CallHandlePeeringRequest _ _ => true | _ => false end.

(** An account that does not know the lightning identity of its peer and
    has never paid. *)
Definition unpeeredState (s : State) : Prop :=
  s.(account).(lndIdentityPubkey) = None /\
  Forall (fun e => isPayment e = false) s.(calls).

Definition unpeered (n : Node) : Prop :=
  unpeeredState n.(state) /\
  Forall (fun p => isAwaitingPayment p = false) n.(pending).

(** A method keeps a property of the state, whether it returns or
    throws. *)
Definition keeps {A} (P : State -> Prop) (c : M A) : Prop :=
  forall s, P s -> P (c s).1.

End LightningMessages.

(** ** ilp-connector: the first [RouteBroadcaster] of route-broadcaster.js

    This class keeps [peersByLedger], an object of objects
    [{ ledgerPrefix => { connectorName => true } }], written here as a map
    to sets: the order in which [Object.keys] lists the entries is left
    open, and the messages of a broadcast are taken up to their order. *)
Module PeersByLedger.
Import RouteBroadcaster.

(** What [_crawlClient] learns from a client: [getPrefix()],
    [getAccount()] and [getConnectors()]. *)
Record Client : Type := mkClient {
  prefix : string;
  localAccount : string;
  connectors : list string
}.

Record Broadcaster : Type := mkBroadcaster {
  autoloadPeers : bool;
  defaultPeers : list string;
  peersByLedger : gmap string (gset string)
}.

(** The constructor. *)
Definition newBroadcaster (autoloadPeers : bool) (peers : list string)
  : Broadcaster :=
  {| autoloadPeers := autoloadPeers;
     defaultPeers := peers;
     peersByLedger := ∅ |}.

(** [this.peersByLedger[prefix] = this.peersByLedger[prefix] || {}]
    followed by [this.peersByLedger[prefix][connector] = true] *)
Definition addPeer (prefix connector : string) (b : Broadcaster) : Broadcaster :=
  let entry := default ∅ (b.(peersByLedger) !! prefix) in
  mkBroadcaster b.(autoloadPeers) b.(defaultPeers)
    (<[prefix := {[ connector ]} ∪ entry]> b.(peersByLedger)).

Definition _crawlClient (client : Client) (b : Broadcaster) : Broadcaster :=
  fold_left
    (fun b connector =>
       (* Don't broadcast routes to ourselves. *)
       if bool_decide (client.(localAccount) = (client.(prefix) ++ connector)%string)
       then b
       else if b.(autoloadPeers) ||
               bool_decide ((client.(prefix) ++ connector)%string ∈ b.(defaultPeers))
       then addPeer client.(prefix) connector b
       else b)
    client.(connectors) b.

(** [crawl]: the clients in the order in which their generators finish. *)
Definition crawl (clients : list Client) (b : Broadcaster) : Broadcaster :=
  fold_left (fun b client => _crawlClient client b) clients b.

(** A message handed to [sendMessage]. *)
Record Message : Type := mkMessage {
  m_ledger : string;
  m_account : string;
  m_routes : list Route
}.

Definition _broadcastToLedger (adjacentLedger : string) (routes : list Route)
    (b : Broadcaster) : list Message :=
  let connectors := elements (default ∅ (b.(peersByLedger) !! adjacentLedger)) in
  map (fun adjacentConnector =>
         let account := (adjacentLedger ++ adjacentConnector)%string in
         {| m_ledger := adjacentLedger;
            m_account := account;
            m_routes := routes |})
      connectors.

(** [broadcast]: [routes] is [routingTables.toJSON(SIMPLIFY_POINTS)]. *)
Definition broadcast (routes : list Route) (b : Broadcaster) : list Message :=
  let adjacentLedgers := map fst (map_to_list b.(peersByLedger)) in
  flat_map
    (fun adjacentLedger =>
       _broadcastToLedger adjacentLedger
         (filter (fun route : Route => route.(source_ledger) = adjacentLedger)
                 routes)
         b)
    adjacentLedgers.

(** Where an entry of [peersByLedger] comes from. *)
Definition crawled (b : Broadcaster) (clients : list Client)
    (ledger connector : string) : Prop :=
  exists client,
    client ∈ clients /\
    client.(prefix) = ledger /\
    connector ∈ client.(connectors) /\
    client.(localAccount) <> (ledger ++ connector)%string /\
    (b.(autoloadPeers) = true \/
     (ledger ++ connector)%string ∈ b.(defaultPeers)).

End PeersByLedger.

(** ** ilp-connector: the two halves of a trading pair

    [_tradingPairToLocalRoute] takes a pair of strings [currency@ledger]
    apart with [split('@')]. *)
Module TradingPair.

Fixpoint contains (c : ascii) (s : string) : bool :=
  match s with
  | EmptyString => false
  | String c' rest => Ascii.eqb c' c || contains c rest
  end.

(** [s.split(sep)] for a separator of one character. *)
Fixpoint split (sep : ascii) (s : string) : list string :=
  match s with
  | EmptyString => [EmptyString]
  | String c rest =>
      if Ascii.eqb c sep then EmptyString :: split sep rest
      else match split sep rest with
           | first :: others => String c first :: others
           | [] => [String c EmptyString]
           end
  end.

(** [pair[i].split('@').slice(1).join('@')] *)
Definition ledgerOf (half : string) : string :=
  String.concat "@" (drop 1 (split "@" half)).

(** [pair[i].split('@')[0]] *)
Definition currencyOf (half : string) : option string :=
  split "@" half !! 0%nat.

End TradingPair.
(* ===================================================================== *)
(** * Part II: the properties                                             *)
(* ===================================================================== *)

(** Unfolds the monad of [Lightning] down to functions on states. *)
Ltac munfold :=
  unfold mbind, Lightning.M_bind, mret, Lightning.M_ret, Lightning.bind,
    Lightning.ret, Lightning.throw, Lightning.tryCatch, Lightning.await,
    Lightning.getAccount, Lightning.emit, Lightning.setBalance,
    Lightning.setPayoutAmount, Lightning.addInvoice, Lightning.withBalance,
    Lightning.withPayoutAmount, Lightning.withCalls in *.

(** ** Arithmetic and order of [BigNumber] *)
Section BigNumberFacts.
Import BigNumber.

Lemma comparedTo_Fin (a b : Z) : comparedTo (Fin a) (Fin b) = Some (a ?= b).
Proof. reflexivity. Qed.

Lemma gt_Fin (a b : Z) : gt (Fin a) (Fin b) = (b <? a).
Proof.
  unfold gt; simpl. rewrite Z.ltb_antisym, Z.leb_compare.
  destruct (a ?= b); reflexivity.
Qed.

Lemma lt_Fin (a b : Z) : lt (Fin a) (Fin b) = (a <? b).
Proof. unfold lt; simpl. unfold Z.ltb. destruct (a ?= b); reflexivity. Qed.

Lemma lte_Fin (a b : Z) : lte (Fin a) (Fin b) = (a <=? b).
Proof. unfold lte; simpl. unfold Z.leb. destruct (a ?= b); reflexivity. Qed.

Lemma gte_Fin (a b : Z) : gte (Fin a) (Fin b) = (b <=? a).
Proof.
  unfold gte; simpl. rewrite Z.leb_antisym, Z.ltb_compare.
  destruct (a ?= b); reflexivity.
Qed.

Lemma isZero_Fin (a : Z) : isZero (Fin a) = (a =? 0).
Proof. destruct a; reflexivity. Qed.

Lemma plus_Fin (a b : Z) : plus (Fin a) (Fin b) = Fin (a + b).
Proof. reflexivity. Qed.

Lemma minus_Fin (a b : Z) : minus (Fin a) (Fin b) = Fin (a - b).
Proof. reflexivity. Qed.

(** On numbers, "not greater" is "less or equal"; with NaN on either side
    both comparisons are false. *)
Lemma gt_false_lte (x y : BigNumber) :
  isNaN x = false -> isNaN y = false -> gt x y = negb (lte x y).
Proof.
  destruct x, y; intros; try discriminate; try reflexivity.
  unfold gt, lte; simpl. destruct (z ?= z0); reflexivity.
Qed.

Lemma lt_false_gte (x y : BigNumber) :
  isNaN x = false -> isNaN y = false -> lt x y = negb (gte x y).
Proof.
  destruct x, y; intros; try discriminate; try reflexivity.
  unfold lt, gte; simpl. destruct (z ?= z0); reflexivity.
Qed.

Lemma lte_gte (x y : BigNumber) : lte x y = gte y x.
Proof.
  destruct x, y; try reflexivity.
  rewrite lte_Fin, gte_Fin. reflexivity.
Qed.

Lemma lte_notNaN_r (x y : BigNumber) : lte x y = true -> isNaN y = false.
Proof. intros H. destruct x, y; try reflexivity; cbv in H; congruence. Qed.

Lemma lte_notNaN_l (x y : BigNumber) : lte x y = true -> isNaN x = false.
Proof. intros H. destruct x, y; try reflexivity; cbv in H; congruence. Qed.

End BigNumberFacts.

(** ** The balance of an account stays within its bounds *)
Section BalanceBounds.
Import BigNumber Js Lightning.

Lemma withBalance_same (s : State) : withBalance s.(account).(balance) s = s.
Proof. destruct s as [[] ?]; reflexivity. Qed.

(** What [addBalance] does in a state whose balance is a finite number
    within the bounds, for a finite amount that is not negative. *)
Lemma addBalance_spec (master : LightningPlugin) (s : State) (z : Z) :
  isFinite s.(account).(balance) = true ->
  withinBounds master s.(account) ->
  0 <= z ->
  addBalance master (Fin z) s =
    if lte (plus s.(account).(balance) (Fin z)) master.(_balance).(maximum)
    then (withBalance (plus s.(account).(balance) (Fin z)) s, Ok tt)
    else (s, Throw (Error_ "Cannot debit: proposed balance exceeds maximum")).
Proof.
  intros Hfin [Hmin Hmax] Hz.
  destruct (balance (account s)) as [b| | |] eqn:Hb; try discriminate.
  unfold addBalance. rewrite isZero_Fin, lt_Fin.
  destruct (Z.eqb_spec z 0) as [->|Hnz].
  - rewrite plus_Fin, Z.add_0_r, Hmax, <- Hb. now rewrite withBalance_same.
  - destruct (Z.ltb_spec z 0); [lia|].
    munfold. rewrite Hb, plus_Fin.
    rewrite gt_false_lte; [|reflexivity|eapply lte_notNaN_r; eauto].
    destruct (lte (Fin (b + z)) _); reflexivity.
Qed.

Lemma subBalance_spec (master : LightningPlugin) (s : State) (z : Z) :
  isFinite s.(account).(balance) = true ->
  withinBounds master s.(account) ->
  0 <= z ->
  subBalance master (Fin z) s =
    if gte (minus s.(account).(balance) (Fin z)) master.(_balance).(minimum)
    then (withBalance (minus s.(account).(balance) (Fin z)) s, Ok tt)
    else (s, Throw (Error_ "Cannot credit: proposedBalance is below the minimum")).
Proof.
  intros Hfin [Hmin Hmax] Hz.
  destruct (balance (account s)) as [b| | |] eqn:Hb; try discriminate.
  unfold subBalance. rewrite isZero_Fin, lt_Fin.
  destruct (Z.eqb_spec z 0) as [->|Hnz].
  - rewrite minus_Fin, Z.sub_0_r, <- lte_gte, Hmin, <- Hb.
    now rewrite withBalance_same.
  - destruct (Z.ltb_spec z 0); [lia|].
    munfold. rewrite Hb, minus_Fin.
    rewrite lt_false_gte; [|reflexivity|eapply lte_notNaN_l; eauto].
    destruct (gte (Fin (b - z)) _); reflexivity.
Qed.



Section Soundness.
Import BigNumber Js Lightning.
Variable master : LightningPlugin.

Lemma gte_refl_num (x : BigNumber) : isNaN x = false -> gte x x = true.
Proof.
  destruct x; try discriminate; try reflexivity.
  intros _. rewrite gte_Fin. apply Z.leb_refl.
Qed.

Lemma gte_trans (x y z : BigNumber) :
  gte z y = true -> gte y x = true -> gte z x = true.
Proof.
  destruct x, y, z; try reflexivity; try (cbv; congruence).
  rewrite !gte_Fin, !Z.leb_le. lia.
Qed.

Lemma sound_ret {A} (a : A) : sound master (mret a).
Proof.
  intros s Hs. split; [exact Hs|]. apply gte_refl_num, Hs.
Qed.

Lemma sound_throw {A} (e : Error) : sound master (@throw A e).
Proof.
  intros s Hs. split; [exact Hs|]. apply gte_refl_num, Hs.
Qed.

Lemma sound_bind {A B} (c : M A) (k : A -> M B) :
  sound master c -> (forall a, sound master (k a)) -> sound master (c ≫= k).
Proof.
  intros Hc Hk s Hs. unfold mbind, M_bind, bind.
  destruct (Hc s Hs) as [H1 H2]. destruct (c s) as [s' [a|e]]; simpl in *.
  - destruct (Hk a s' H1) as [H3 H4]. split; [exact H3|].
    eapply gte_trans; eauto.
  - auto.
Qed.

Lemma sound_tryCatch {A} (c : M A) (h : Error -> M A) :
  sound master c -> (forall e, sound master (h e)) -> sound master (tryCatch c h).
Proof.
  intros Hc Hh s Hs. unfold tryCatch.
  destruct (Hc s Hs) as [H1 H2]. destruct (c s) as [s' [a|e]]; simpl in *.
  - auto.
  - destruct (Hh e s' H1) as [H3 H4]. split; [exact H3|].
    eapply gte_trans; eauto.
Qed.

Lemma sound_getAccount {A} (k : Account -> M A) :
  (forall s, stateInv master s ->
     stateInv master (k s.(account) s).1 /\
     gte (payoutOf (k s.(account) s).1) (payoutOf s) = true) ->
  sound master (getAccount ≫= k).
Proof. intros H s Hs. exact (H s Hs). Qed.

Lemma sound_emit (e : Event) : sound master (emit e).
Proof.
  intros s Hs. split; [exact Hs|]. apply gte_refl_num, Hs.
Qed.

Lemma sound_await {A} (r : HandlerReply A) : sound master (await r).
Proof. destruct r; [apply sound_ret | apply sound_throw]. Qed.

Lemma sound_if {A} (b : bool) (c1 c2 : M A) :
  sound master c1 -> sound master c2 -> sound master (if b then c1 else c2).
Proof. destruct b; auto. Qed.

Lemma sound_addInvoice (pr : string) : sound master (addInvoice pr).
Proof.
  intros s Hs. split; [exact Hs|]. apply gte_refl_num, Hs.
Qed.

(** Writing a finite balance that the caller has checked against the
    bounds. *)
Lemma sound_setBalance (b : BigNumber) (s : State) :
  stateInv master s ->
  isFinite b = true ->
  lte master.(_balance).(minimum) b = true ->
  lte b master.(_balance).(maximum) = true ->
  stateInv master (setBalance b s).1 /\
  gte (payoutOf (setBalance b s).1) (payoutOf s) = true.
Proof.
  intros (Hst & Hfin & Hb & Hp) Hb1 Hb2 Hb3. split.
  - repeat split; assumption.
  - apply gte_refl_num, Hp.
Qed.

Lemma sound_addBalance (amount : BigNumber) :
  isFinite amount = true -> sound master (addBalance master amount).
Proof.
  intros Ha. unfold addBalance.
  destruct (isZero amount); [apply sound_ret|].
  destruct (lt amount (Fin 0)) eqn:Hneg; [apply sound_throw|].
  apply sound_getAccount. intros s Hs. simpl.
  destruct (gt _ _) eqn:Hgt; [apply (sound_throw (A := unit)); exact Hs|].
  pose proof Hs as (Hst & Hfin & [Hmin Hmax] & Hp).
  destruct amount as [z| | |]; try discriminate.
  destruct (balance (account s)) as [b| | |] eqn:Hb; try discriminate.
  rewrite lt_Fin in Hneg. apply Z.ltb_ge in Hneg.
  apply sound_setBalance; auto.
  - destruct (minimum (_balance master)); try (cbv in Hmin; congruence);
      try reflexivity.
    rewrite plus_Fin, lte_Fin in *. apply Z.leb_le. apply Z.leb_le in Hmin. lia.
  - rewrite gt_false_lte in Hgt; [|reflexivity|eapply lte_notNaN_r; eauto].
    now apply negb_false_iff in Hgt.
Qed.

Lemma sound_subBalance (amount : BigNumber) :
  isFinite amount = true -> sound master (subBalance master amount).
Proof.
  intros Ha. unfold subBalance.
  destruct (isZero amount); [apply sound_ret|].
  destruct (lt amount (Fin 0)) eqn:Hneg; [apply sound_throw|].
  apply sound_getAccount. intros s Hs. simpl.
  destruct (lt (minus _ _) _) eqn:Hlt; [apply (sound_throw (A := unit)); exact Hs|].
  pose proof Hs as (Hst & Hfin & [Hmin Hmax] & Hp).
  destruct amount as [z| | |]; try discriminate.
  destruct (balance (account s)) as [b| | |] eqn:Hb; try discriminate.
  rewrite lt_Fin in Hneg. apply Z.ltb_ge in Hneg.
  apply sound_setBalance; auto.
  - rewrite lt_false_gte in Hlt; [|reflexivity|eapply lte_notNaN_l; eauto].
    apply negb_false_iff in Hlt. now rewrite lte_gte.
  - destruct (maximum (_balance master)); try (cbv in Hmax; congruence);
      try reflexivity.
    rewrite minus_Fin, lte_Fin in *. apply Z.leb_le. apply Z.leb_le in Hmax. lia.
Qed.

(** Adding a finite amount that is not negative to [payoutAmount]. *)
Lemma sound_addPayout (amount : BigNumber) :
  isFinite amount = true -> lte (Fin 0) amount = true ->
  sound master (a ← getAccount; setPayoutAmount (plus a.(payoutAmount) amount)).
Proof.
  intros Ha Hpos. apply sound_getAccount. intros s (Hst & Hfin & Hb & Hp).
  destruct amount as [z| | |]; try discriminate.
  rewrite lte_Fin in Hpos. apply Z.leb_le in Hpos.
  unfold payoutOf, stateInv, withinBounds; simpl.
  destruct Hb as [Hmin Hmax].
  destruct (payoutAmount (account s)) as [p| | |]; try discriminate;
    repeat split; try assumption; try reflexivity.
  rewrite plus_Fin, gte_Fin. apply Z.leb_le. lia.
Qed.



Lemma budget_finite (x : Z) (p : BigNumber) :
  isNaN p = false ->
  lte (min (Fin x) p) (Fin 0) = false ->
  isFinite (min (Fin x) p) = true /\ lte (Fin 0) (min (Fin x) p) = true.
Proof.
  destruct p as [y| | |]; try discriminate; intros _.
  - unfold min. rewrite gt_Fin. destruct (y <? x); rewrite !lte_Fin;
      intros H; apply Z.leb_gt in H; split; try reflexivity; apply Z.leb_le; lia.
  - cbn [min gt comparedTo]. rewrite !lte_Fin.
    intros H; apply Z.leb_gt in H; split; try reflexivity; apply Z.leb_le; lia.
Qed.

(** The budget that [attemptSettle] settles for is finite and positive. *)
Lemma attemptSettle_begin_budget (s s' : State) (b : BigNumber) :
  stateInv master s ->
  attemptSettle_begin master s = (s', Ok (Some b)) ->
  isFinite b = true /\ lte (Fin 0) b = true.
Proof.
  intros (Hst & Hfin & Hb & Hp). unfold attemptSettle_begin.
  destruct (settleThreshold (_balance master)) as [thr|]; [|munfold; congruence].
  change ((getAccount ≫= ?k) s) with (k (account s) s). cbv beta.
  destruct (negb _); [munfold; congruence|].
  destruct (settleTo (_balance master)) as [t| | |]; try discriminate.
  destruct (balance (account s)) as [bal| | |]; try discriminate.
  rewrite minus_Fin.
  destruct (lte (Fin (t - bal)) (Fin 0)); [munfold; congruence|].
  destruct (lte (min _ _) (Fin 0)) eqn:Hpos; [munfold; congruence|].
  apply budget_finite in Hpos; [|exact Hp].
  unfold mbind, M_bind, bind.
  destruct (addBalance _ _ s) as [s1 [[]|e]]; munfold; intros [= _ <-]; exact Hpos.
Qed.

Lemma sound_attemptSettle_begin : sound master (attemptSettle_begin master).
Proof.
  unfold attemptSettle_begin.
  destruct (settleThreshold (_balance master)) as [thr|]; [|apply (sound_ret (A := option _))].
  apply sound_getAccount. intros s Hs.
  destruct (negb _); [apply (sound_ret (A := option _)); exact Hs|].
  destruct (lte (minus _ _) (Fin 0)); [apply (sound_ret (A := option _)); exact Hs|].
  destruct (lte (min _ _) (Fin 0)) eqn:Hpos;
    [apply (sound_ret (A := option _)); exact Hs|].
  revert s Hs Hpos. intros s Hs Hpos.
  pose proof Hs as (Hst & Hfin & Hb & Hp).
  destruct (settleTo (_balance master)) as [t| | |]; try discriminate.
  destruct (balance (account s)) as [bal| | |] eqn:Ebal; try discriminate.
  rewrite minus_Fin in *.
  apply budget_finite in Hpos; [|exact Hp]. destruct Hpos as [Hf _].
  apply sound_bind;
    [now apply sound_addBalance
    |intros _; apply (sound_ret (A := option _))|exact Hs].
Qed.

Lemma sound_requestInvoice (reply : InvoiceReply) : sound master (requestInvoice reply).
Proof.
  unfold requestInvoice. apply sound_tryCatch; [|intros; apply sound_throw].
  apply sound_bind; [apply sound_emit|]. intros _.
  destruct reply; try apply sound_throw.
  apply sound_bind; [|intros; apply sound_ret].
  unfold _validateInvoiceDestination. apply sound_getAccount. intros s Hs.
  destruct (negb _); [apply (sound_throw (A := unit))|apply sound_ret]; exact Hs.
Qed.

Lemma sound_attemptSettle_invoiced (b : BigNumber) (reply : InvoiceReply) :
  isFinite b = true -> sound master (attemptSettle_invoiced master b reply).
Proof.
  intros Hb. unfold attemptSettle_invoiced. apply sound_tryCatch.
  - apply sound_bind; [apply sound_requestInvoice|]. intros pr.
    apply sound_bind; [apply sound_emit|]. intros _. apply sound_ret.
  - intros e. apply sound_bind; [now apply sound_subBalance|].
    intros _. apply sound_ret.
Qed.

Lemma sound_attemptSettle_paid (b : BigNumber) (reply : HandlerReply unit) :
  isFinite b = true -> lte (Fin 0) b = true ->
  sound master (attemptSettle_paid master b reply).
Proof.
  intros Hb Hpos. unfold attemptSettle_paid. apply sound_tryCatch.
  - apply sound_bind; [apply sound_await|]. intros _.
    now apply sound_addPayout.
  - intros e. now apply sound_subBalance.
Qed.

Lemma sound_bind_ok {A B} (c : M A) (k : A -> M B) :
  sound master c ->
  (forall s s' a, c s = (s', Ok a) -> stateInv master s' ->
     stateInv master (k a s').1 /\ gte (payoutOf (k a s').1) (payoutOf s') = true) ->
  sound master (c ≫= k).
Proof.
  intros Hc Hk s Hs. unfold mbind, M_bind, bind.
  destruct (Hc s Hs) as [H1 H2]. destruct (c s) as [s' [a|e]] eqn:E; simpl in *.
  - destruct (Hk s s' a E H1) as [H3 H4]. split; [exact H3|].
    eapply gte_trans; eauto.
  - auto.
Qed.

Lemma subBalance_ok_nonneg (amount : BigNumber) (s s' : State) :
  isNaN amount = false ->
  subBalance master amount s = (s', Ok tt) -> lte (Fin 0) amount = true.
Proof.
  intros Hnan. unfold subBalance.
  destruct amount as [z| | |]; try discriminate; try (cbv; congruence).
  - rewrite isZero_Fin, lt_Fin, lte_Fin.
    destruct (Z.eqb_spec z 0) as [->|]; [reflexivity|].
    destruct (Z.ltb_spec z 0); [munfold; congruence|].
    intros _. apply Z.leb_le. lia.
Qed.

Lemma addBalance_ok_nonneg (amount : BigNumber) (s s' : State) :
  isNaN amount = false ->
  addBalance master amount s = (s', Ok tt) -> lte (Fin 0) amount = true.
Proof.
  intros Hnan. unfold addBalance.
  destruct amount as [z| | |]; try discriminate; try (cbv; congruence).
  - rewrite isZero_Fin, lt_Fin, lte_Fin.
    destruct (Z.eqb_spec z 0) as [->|]; [reflexivity|].
    destruct (Z.ltb_spec z 0); [munfold; congruence|].
    intros _. apply Z.leb_le. lia.
Qed.

Lemma sound_handlePrepareResponse (amount : Z) (response : IlpReply) :
  sound master (handlePrepareResponse master amount response).
Proof.
  unfold handlePrepareResponse. apply sound_bind.
  - apply sound_if; [|apply sound_ret].
    apply sound_tryCatch; [|intros; apply sound_throw].
    apply sound_bind_ok; [now apply sound_subBalance|].
    intros s s' [] Hok. apply subBalance_ok_nonneg in Hok; [|reflexivity].
    now apply sound_addPayout.
  - intros _. apply sound_if; [|apply (sound_ret (A := option _))].
    apply sound_tryCatch; [apply sound_attemptSettle_begin|].
    intros _. apply (sound_ret (A := option _)).
Qed.

Lemma handlePrepareResponse_budget (amount : Z) (response : IlpReply)
    (s s' : State) (b : BigNumber) :
  stateInv master s ->
  handlePrepareResponse master amount response s = (s', Ok (Some b)) ->
  isFinite b = true /\ lte (Fin 0) b = true.
Proof.
  intros Hs. unfold handlePrepareResponse.
  set (c := if isFulfill response then _ else _).
  assert (Hc : sound master c).
  { subst c. apply sound_if; [|apply sound_ret].
    apply sound_tryCatch; [|intros; apply sound_throw].
    apply sound_bind_ok; [now apply sound_subBalance|].
    intros s0 s1 [] Hok. apply subBalance_ok_nonneg in Hok; [|reflexivity].
    now apply sound_addPayout. }
  unfold mbind at 1. unfold M_bind, bind.
  destruct (Hc s Hs) as [H1 _]. destruct (c s) as [s1 [[]|e]]; [|congruence].
  simpl in H1. destruct (_ || _); [|munfold; congruence].
  unfold tryCatch.
  destruct (attemptSettle_begin master s1) as [s2 [o|e]] eqn:E;
    [|munfold; congruence].
  intros [= <- ->]. eapply attemptSettle_begin_budget; eauto.
Qed.

Lemma sound_handlePrepare_begin (amount : BigNumber) (registered : bool) :
  isFinite amount = true -> sound master (_handlePrepare_begin master amount registered).
Proof.
  intros Ha. unfold _handlePrepare_begin.
  apply sound_tryCatch; [|intros; apply (sound_ret (A := _ + _))].
  apply sound_if; [apply sound_throw|].
  apply sound_if; [apply sound_throw|].
  apply sound_bind.
  - apply sound_tryCatch; [now apply sound_addBalance|intros; apply sound_throw].
  - intros _. apply sound_bind; [apply sound_emit|].
    intros _. apply (sound_ret (A := _ + _)).
Qed.

Lemma handlePrepare_begin_nonneg (amount : BigNumber) (registered : bool)
    (s s' : State) :
  isNaN amount = false ->
  _handlePrepare_begin master amount registered s = (s', Ok (inl tt)) ->
  lte (Fin 0) amount = true.
Proof.
  intros Hnan. unfold _handlePrepare_begin, tryCatch at 1.
  destruct (negb registered); [munfold; congruence|].
  destruct (gt amount _); [munfold; congruence|].
  unfold mbind at 1. unfold M_bind, bind, tryCatch.
  destruct (addBalance master amount s) as [s1 [[]|e]] eqn:E;
    [|munfold; congruence].
  intros _. eapply addBalance_ok_nonneg; eauto.
Qed.

Lemma sound_handlePrepare_resume (amount : BigNumber)
    (reply : HandlerReply IlpReply) :
  isFinite amount = true -> sound master (_handlePrepare_resume master amount reply).
Proof.
  intros Ha. unfold _handlePrepare_resume.
  apply sound_tryCatch; [|intros; apply sound_ret].
  apply sound_bind; [apply sound_await|]. intros response.
  apply sound_bind; [|intros; apply sound_ret].
  apply sound_if; [apply sound_ret|now apply sound_subBalance].
Qed.

Lemma sound_handleIncomingInvoice (invoice : Invoice)
    (moneyHandler : option (HandlerReply unit)) :
  sound master (_handleIncomingInvoice master invoice moneyHandler).
Proof.
  unfold _handleIncomingInvoice. apply sound_getAccount. intros s Hs.
  destruct (_ && _); [|apply sound_ret; exact Hs].
  apply sound_bind; [now apply sound_subBalance| |exact Hs].
  intros _. destruct moneyHandler; [|apply sound_throw].
  apply sound_bind; [apply sound_emit|]. intros _. apply sound_await.
Qed.

Lemma sound_setLndIdentityPubkey (pubkey : string) :
  sound master (setLndIdentityPubkey pubkey).
Proof.
  intros s Hs. split; [exact Hs|]. apply gte_refl_num, Hs.
Qed.

Lemma sound_handlePeeringRequest (pubkey : string) (peering : HandlerReply unit) :
  sound master (_handlePeeringRequest pubkey peering).
Proof.
  unfold _handlePeeringRequest.
  apply sound_tryCatch; [|intros; apply sound_throw].
  apply sound_bind; [apply sound_await|]. intros _.
  apply sound_setLndIdentityPubkey.
Qed.

Lemma sound_handleInvoiceRequest (added : string) :
  sound master (_handleInvoiceRequest added).
Proof.
  unfold _handleInvoiceRequest.
  apply sound_bind; [apply sound_addInvoice|]. intros _. apply sound_ret.
Qed.

Lemma pendingOk_spawn (started : option BigNumber) (ps : list Pending) :
  (forall b, started = Some b -> isFinite b = true /\ lte (Fin 0) b = true) ->
  Forall pendingOk ps -> Forall pendingOk (spawn started ps).
Proof.
  intros Hb Hps. destruct started as [b|]; [|exact Hps].
  apply Forall_app. split; [exact Hps|].
  constructor; [|constructor]. exact (Hb b eq_refl).
Qed.

(** Every turn of the event loop keeps the invariant and does not lower
    [payoutAmount]. *)
Lemma step_sound (n : Node) (i : Input) :
  nodeInv master n ->
  nodeInv master (step master n i) /\
  gte (payoutOf (step master n i).(state)) (payoutOf n.(state)) = true.
Proof.
  intros [Hs Hp]. destruct i as [|amount response|amount registered
    |invoice handler|added|pubkey peering|i reply|i reply|i reply]; simpl.
  - pose proof (sound_attemptSettle_begin _ Hs) as [H1 H2].
    destruct (attemptSettle_begin master (state n)) as [s [started|e]] eqn:E;
      simpl in *; (split; [split|]; simpl; auto).
    apply pendingOk_spawn; [|exact Hp]. intros b ->.
    exact (attemptSettle_begin_budget _ _ _ Hs E).
  - pose proof (sound_handlePrepareResponse amount response _ Hs) as [H1 H2].
    destruct (handlePrepareResponse master amount response (state n))
      as [s [started|e]] eqn:E; simpl in *; (split; [split|]; simpl; auto).
    apply pendingOk_spawn; [|exact Hp]. intros b ->.
    exact (handlePrepareResponse_budget _ _ _ _ _ Hs E).
  - pose proof (sound_handlePrepare_begin (Fin amount) registered eq_refl _ Hs)
      as [H1 H2].
    destruct (_handlePrepare_begin master (Fin amount) registered (state n))
      as [s [[[]|r]|e]] eqn:E; simpl in *; (split; [split|]; simpl; auto).
    apply Forall_app. split; [exact Hp|]. constructor; [|constructor].
    split; [reflexivity|]. eapply handlePrepare_begin_nonneg; eauto.
  - pose proof (sound_handleIncomingInvoice invoice handler _ Hs) as [H1 H2].
    split; [split|]; simpl; auto.
  - pose proof (sound_handleInvoiceRequest added _ Hs) as [H1 H2].
    split; [split|]; simpl; auto.
  - pose proof (sound_handlePeeringRequest pubkey peering _ Hs) as [H1 H2].
    split; [split|]; simpl; auto.
  - destruct (pending n !! i) as [[b|b pr|a]|] eqn:El;
      try (split; [split; assumption|apply gte_refl_num, Hs]).
    pose proof (proj1 (Forall_lookup _ _) Hp _ _ El) as [Hf Hpos].
    pose proof (sound_attemptSettle_invoiced b reply Hf _ Hs) as [H1 H2].
    destruct (attemptSettle_invoiced master b reply (state n))
      as [s [[pr|]|e]]; simpl in *; (split; [split|]; simpl; auto).
    + apply Forall_insert; [exact Hp|]. split; assumption.
    + now apply Forall_delete.
    + now apply Forall_delete.
  - destruct (pending n !! i) as [[b|b pr|a]|] eqn:El;
      try (split; [split; assumption|apply gte_refl_num, Hs]).
    pose proof (proj1 (Forall_lookup _ _) Hp _ _ El) as [Hf Hpos].
    pose proof (sound_attemptSettle_paid b reply Hf Hpos _ Hs) as [H1 H2].
    split; [split|]; simpl; auto. now apply Forall_delete.
  - destruct (pending n !! i) as [[b|b pr|a]|] eqn:El;
      try (split; [split; assumption|apply gte_refl_num, Hs]).
    pose proof (proj1 (Forall_lookup _ _) Hp _ _ El) as [Hf Hpos].
    pose proof (sound_handlePrepare_resume a reply Hf _ Hs) as [H1 H2].
    split; [split|]; simpl; auto. now apply Forall_delete.
Qed.

Lemma run_sound (inputs : list Input) (n : Node) :
  nodeInv master n -> nodeInv master (run master n inputs).
Proof.
  revert n. induction inputs as [|i inputs IH]; intros n Hn; [exact Hn|].
  apply IH. now apply step_sound.
Qed.

Lemma start_sound (name : string) :
  isFinite master.(_balance).(settleTo) = true ->
  lte master.(_balance).(minimum) (Fin 0) = true ->
  lte (Fin 0) master.(_balance).(maximum) = true ->
  nodeInv master (start master name).
Proof.
  intros Hst Hmin Hmax. split; [|constructor].
  repeat split; try assumption; try reflexivity.
  simpl. destruct (gt _ _); reflexivity.
Qed.

End Soundness.

(** C1 (amended).  For every account whose bounds lie around the initial
    balance 0 and whose [settleTo] is finite, at every point of every
    interleaving of the methods: [minimum <= balance <= maximum];
    [addBalance(z)] with [0 <= z] raises the balance by [z] exactly when
    [balance + z <= maximum] and otherwise throws without changing the
    state; [subBalance(z)] with [0 <= z] lowers the balance by [z] exactly
    when [balance - z >= minimum] and otherwise throws without changing the
    state; and no turn of the event loop lowers [payoutAmount]. *)
Theorem balance_stays_within_bounds (master : LightningPlugin) (name : string)
    (inputs : list Input) :
  isFinite master.(_balance).(settleTo) = true ->
  lte master.(_balance).(minimum) (Fin 0) = true ->
  lte (Fin 0) master.(_balance).(maximum) = true ->
  let n := run master (start master name) inputs in
  let s := n.(state) in
  let b := s.(account).(balance) in
  withinBounds master s.(account) /\
  (forall z, 0 <= z ->
     addBalance master (Fin z) s =
       if lte (plus b (Fin z)) master.(_balance).(maximum)
       then (withBalance (plus b (Fin z)) s, Ok tt)
       else (s, Throw (Error_ "Cannot debit: proposed balance exceeds maximum"))) /\
  (forall z, 0 <= z ->
     subBalance master (Fin z) s =
       if gte (minus b (Fin z)) master.(_balance).(minimum)
       then (withBalance (minus b (Fin z)) s, Ok tt)
       else (s, Throw (Error_ "Cannot credit: proposedBalance is below the minimum"))) /\
  (forall i,
     gte (payoutOf (step master n i).(state)) (payoutOf s) = true).
Proof.
  intros Hst Hmin Hmax n s b.
  assert (Hn : nodeInv master n).
  { apply run_sound. now apply start_sound. }
  pose proof Hn as [(_ & Hfin & Hb & _) _].
  split; [exact Hb|]. split; [|split].
  - intros z Hz. now apply addBalance_spec.
  - intros z Hz. now apply subBalance_spec.
  - intros i. now apply step_sound.
Qed.

Lemma balance_stays_within_bounds_witness :
  withinBounds boundedPlugin
    (run boundedPlugin (start boundedPlugin "peer")
       [CallHandlePrepare 100 true;
        DataHandlerReplies 0 (Returns Fulfill)]).(state).(account).
Proof.
  exact (proj1 (balance_stays_within_bounds boundedPlugin "peer"
                  [CallHandlePrepare 100 true;
                   DataHandlerReplies 0 (Returns Fulfill)]
                  eq_refl eq_refl eq_refl)).
Defined.

(** C1 as stated fails.  With [minimum = 5] and [maximum = 10] the account
    starts at balance 0; a PREPARE of 1 is accepted by [addBalance] and the
    committed balance 1 is below the minimum.  With [settleTo = Infinity]
    the revert of a failed settlement computes [Infinity - Infinity] and
    commits NaN instead of throwing. *)
Lemma balance_bounds_counterexample :
  constructor lopsidedOpts = Ok lopsidedPlugin /\
  (let s := (run lopsidedPlugin (start lopsidedPlugin "peer")
               [CallHandlePrepare 1 true]).(state) in
   s.(account).(balance) = Fin 1 /\
   s.(calls) = [CalledDataHandler] /\
   lte lopsidedPlugin.(_balance).(minimum) s.(account).(balance) = false) /\
  constructor unboundedOpts = Ok unboundedPlugin /\
  (let s := (run unboundedPlugin (start unboundedPlugin "peer")
               [CallAttemptSettle]).(state) in
   s.(account).(balance) = PosInfinity /\
   (subBalance unboundedPlugin PosInfinity s).2 = Ok tt /\
   (subBalance unboundedPlugin PosInfinity s).1.(account).(balance) = NaN).
Proof. repeat split; vm_compute; reflexivity. Qed.

End BalanceBounds.



(** ** Settlement *)
Section Settlement.
Import BigNumber Js Lightning.

(** The checks of the constructor on the rounded bounds. *)
Lemma constructor_checks (opts : LightningPluginOpts) (master : LightningPlugin) :
  constructor opts = Ok master ->
  match master.(_balance).(settleThreshold) with
  | Some threshold =>
      gte master.(_balance).(maximum) master.(_balance).(settleTo) = true /\
      gte master.(_balance).(settleTo) threshold = true /\
      gte threshold master.(_balance).(minimum) = true
  | None => gt master.(_balance).(maximum) master.(_balance).(minimum) = true
  end.
Proof.
  unfold constructor.
  destruct (opt_lndIdentityPubkey opts); [|discriminate].
  destruct (opt_lndHost opts); [|discriminate].
  cbv zeta. cbn [settleThreshold maximum minimum settleTo].
  destruct (match opt_settleThreshold _ with Some _ => _ | None => _ end).
  - destruct (gte _ _) eqn:H1; [|discriminate].
    destruct (gte _ b) eqn:H2; [|discriminate].
    destruct (gte b _) eqn:H3; [|discriminate].
    intros [= <-]. simpl. auto.
  - destruct (gt _ _) eqn:H1; [|discriminate].
    intros [= <-]. simpl. auto.
Qed.

Lemma min_Fin_cases (x : Z) (p : BigNumber) :
  isNaN p = false ->
  lte (min (Fin x) p) (Fin 0) = false ->
  exists y, min (Fin x) p = Fin y /\ 0 < y <= x.
Proof.
  destruct p as [y| | |]; try discriminate; intros _.
  - unfold min. rewrite gt_Fin. destruct (Z.ltb_spec y x); rewrite lte_Fin;
      intros H'; apply Z.leb_gt in H'; eexists; split; try reflexivity; lia.
  - cbn [min gt comparedTo]. rewrite lte_Fin. intros H'; apply Z.leb_gt in H'.
    eexists; split; try reflexivity; lia.
Qed.

(** [attemptSettle] up to its first [await]. *)
Lemma attemptSettle_begin_spec (master : LightningPlugin) (s : State)
    (threshold : BigNumber) :
  master.(_balance).(settleThreshold) = Some threshold ->
  lte master.(_balance).(settleTo) master.(_balance).(maximum) = true ->
  isFinite master.(_balance).(settleTo) = true ->
  isFinite s.(account).(balance) = true ->
  isNaN s.(account).(payoutAmount) = false ->
  attemptSettle_begin master s =
    if gt threshold s.(account).(balance) &&
       negb (lte (budgetOf master s.(account)) (Fin 0))
    then (withBalance (plus s.(account).(balance)
                            (budgetOf master s.(account))) s,
          Ok (Some (budgetOf master s.(account))))
    else (s, Ok None).
Proof.
  intros Hthr Hmax Hst Hfin Hp. unfold attemptSettle_begin, budgetOf.
  rewrite Hthr. change ((getAccount ≫= ?k) s) with (k (account s) s). cbv beta.
  destruct (gt threshold _); [|reflexivity]. cbn [negb andb].
  destruct (settleTo (_balance master)) as [t| | |] eqn:Et; try discriminate.
  destruct (balance (account s)) as [bal| | |] eqn:Ebal; try discriminate.
  rewrite minus_Fin.
  destruct (lte (Fin (t - bal)) (Fin 0)) eqn:H0.
  - rewrite lte_Fin in H0. apply Z.leb_le in H0.
    assert (lte (min (Fin (t - bal)) (payoutAmount (account s))) (Fin 0) = true)
      as ->; [|reflexivity].
    destruct (payoutAmount (account s)) as [p| | |]; try discriminate;
      try reflexivity.
    + unfold min. rewrite gt_Fin. destruct (Z.ltb_spec p (t - bal));
        rewrite lte_Fin; apply Z.leb_le; lia.
    + cbn [min gt comparedTo]. rewrite lte_Fin. apply Z.leb_le; lia.
  - destruct (lte (min _ _) (Fin 0)) eqn:Hpos; [reflexivity|].
    destruct (min_Fin_cases _ _ Hp Hpos) as (y & -> & Hy). cbn [negb].
    unfold addBalance. rewrite isZero_Fin, lt_Fin.
    destruct (Z.eqb_spec y 0); [lia|]. destruct (Z.ltb_spec y 0); [lia|].
    munfold. rewrite Ebal, plus_Fin.
    assert (gt (Fin (bal + y)) (maximum (_balance master)) = false) as ->;
      [|reflexivity].
    destruct (maximum (_balance master)) as [m| | |]; try (cbv in Hmax; congruence);
      try reflexivity.
    rewrite lte_Fin in Hmax. apply Z.leb_le in Hmax.
    rewrite gt_Fin. apply Z.ltb_ge. lia.
Qed.

(** The [try]/[catch] block of [attemptSettle] for a positive budget whose
    revert stays above the minimum. *)
Lemma attemptSettle_pay_spec (master : LightningPlugin) (s : State)
    (b y : Z) (invoice : InvoiceReply) (payment : HandlerReply unit) :
  s.(account).(balance) = Fin b ->
  0 < y ->
  lte master.(_balance).(minimum) (Fin (b - y)) = true ->
  attemptSettle_pay master (Fin y) invoice payment s =
    match invoiceAccepted s.(account) invoice, payment with
    | Some payment_request, Returns _ =>
        (withPayoutAmount (plus s.(account).(payoutAmount) (Fin y))
           (withCalls [SentInvoiceRequest;
                       CalledPayInvoice payment_request (Fin y)] s), Ok tt)
    | Some payment_request, Rejects _ =>
        (withBalance (Fin (b - y))
           (withCalls [SentInvoiceRequest;
                       CalledPayInvoice payment_request (Fin y)] s), Ok tt)
    | None, _ =>
        (withBalance (Fin (b - y)) (withCalls [SentInvoiceRequest] s), Ok tt)
    end.
Proof.
  intros Hb Hy Hmin.
  assert (Hsub : forall s', s'.(account).(balance) = Fin b ->
            subBalance master (Fin y) s' = (withBalance (Fin (b - y)) s', Ok tt)).
  { intros s' Hb'. unfold subBalance. rewrite isZero_Fin, lt_Fin.
    destruct (Z.eqb_spec y 0); [lia|]. destruct (Z.ltb_spec y 0); [lia|].
    munfold. rewrite Hb', minus_Fin.
    rewrite lt_false_gte; [|reflexivity|eapply lte_notNaN_l; eauto].
    now rewrite <- lte_gte, Hmin. }
  unfold attemptSettle_pay, requestInvoice, payInvoice, invoiceAccepted,
    _validateInvoiceDestination.
  destruct invoice as [e| |pr dest].
  - munfold. simpl. rewrite Hsub by exact Hb. destruct payment; reflexivity.
  - munfold. simpl. rewrite Hsub by exact Hb. destruct payment; reflexivity.
  - munfold. simpl. destruct (bool_decide _); simpl.
    + destruct payment as [[]|e]; simpl.
      * rewrite <- app_assoc. reflexivity.
      * rewrite Hsub by exact Hb. rewrite <- app_assoc. reflexivity.
    + rewrite Hsub by exact Hb. destruct payment; reflexivity.
Qed.

(** X26.  [attemptSettle] run from its start to its end with no other call
    on the account in between.  For a plugin accepted by the constructor
    with a finite [settleTo], and an account whose balance is finite, at
    least the minimum and strictly below [settleThreshold], it works with
    [budget = min(settleTo - balance, payoutAmount)].  When the budget is
    not positive it returns without any call and without changing the
    state.  Otherwise it requests an invoice and, if the invoice is
    accepted, pays exactly the budget; after a successful payment the
    balance and [payoutAmount] are both higher by the budget; after a failed
    invoice request or a failed payment the account is as it was before the
    attempt. *)
Theorem settlement_pays_budget (opts : LightningPluginOpts)
    (master : LightningPlugin) (threshold : BigNumber) (s : State)
    (invoice : InvoiceReply) (payment : HandlerReply unit) :
  constructor opts = Ok master ->
  master.(_balance).(settleThreshold) = Some threshold ->
  isFinite master.(_balance).(settleTo) = true ->
  isFinite s.(account).(balance) = true ->
  isNaN s.(account).(payoutAmount) = false ->
  lte master.(_balance).(minimum) s.(account).(balance) = true ->
  gt threshold s.(account).(balance) = true ->
  let budget := budgetOf master s.(account) in
  let result := attemptSettle master invoice payment s in
  if lte budget (Fin 0) then result = (s, Ok tt)
  else
    result.2 = Ok tt /\
    match invoiceAccepted s.(account) invoice, payment with
    | Some payment_request, Returns _ =>
        result.1.(account).(balance) = plus s.(account).(balance) budget /\
        result.1.(account).(payoutAmount) =
          plus s.(account).(payoutAmount) budget /\
        result.1.(calls) =
          s.(calls) ++ [SentInvoiceRequest;
                        CalledPayInvoice payment_request budget]
    | Some payment_request, Rejects _ =>
        result.1.(account) = s.(account) /\
        result.1.(calls) =
          s.(calls) ++ [SentInvoiceRequest;
                        CalledPayInvoice payment_request budget]
    | None, _ =>
        result.1.(account) = s.(account) /\
        result.1.(calls) = s.(calls) ++ [SentInvoiceRequest]
    end.
Proof.
  intros Hc Hthr Hst Hfin Hp Hmin Hgt budget result.
  pose proof (constructor_checks _ _ Hc) as Hchk. rewrite Hthr in Hchk.
  destruct Hchk as (Hmax & _ & _). rewrite <- lte_gte in Hmax.
  assert (Hres : attemptSettle master invoice payment s =
            if lte budget (Fin 0) then (s, Ok tt)
            else attemptSettle_pay master budget invoice payment
                   (withBalance (plus s.(account).(balance) budget) s)).
  { unfold attemptSettle, mbind, M_bind, bind.
    rewrite (attemptSettle_begin_spec _ _ _ Hthr Hmax Hst Hfin Hp), Hgt.
    fold budget. cbn [andb]. destruct (lte budget (Fin 0)); reflexivity. }
  subst result. rewrite Hres. clear Hres.
  destruct (lte budget (Fin 0)) eqn:Hpos; [reflexivity|].
  destruct (settleTo (_balance master)) as [t| | |] eqn:Et; try discriminate.
  destruct (balance (account s)) as [bal| | |] eqn:Ebal; try discriminate.
  unfold budget, budgetOf in Hpos. rewrite Et, Ebal, minus_Fin in Hpos.
  destruct (min_Fin_cases _ _ Hp Hpos) as (y & Ey & Hy).
  assert (Eb : budget = Fin y).
  { unfold budget, budgetOf. now rewrite Et, Ebal, minus_Fin. }
  rewrite Eb, plus_Fin.
  rewrite (attemptSettle_pay_spec master _ (bal + y) y invoice payment);
    [|reflexivity|lia|now replace (bal + y - y) with bal by lia].
  replace (bal + y - y) with bal by lia.
  change (account (withBalance (Fin (bal + y)) s)) with
    (mkAccount (accountName (account s)) (Fin (bal + y))
               (lndIdentityPubkey (account s)) (payoutAmount (account s))
               (invoices (account s))).
  replace (invoiceAccepted (mkAccount _ _ _ _ _) invoice)
    with (invoiceAccepted (account s) invoice) by (destruct invoice; reflexivity).
  destruct (invoiceAccepted (account s) invoice) as [pr|].
  - destruct payment as [[]|e]; (split; [reflexivity|]).
    + repeat split; reflexivity.
    + split; [|reflexivity]. destruct s as [[] ?]; simpl in *. now subst.
  - split; [reflexivity|]. split; [|reflexivity].
    destruct s as [[] ?]; simpl in *. now subst.
Qed.

Lemma settlement_pays_budget_witness :
  let result :=
    attemptSettle settlingPlugin (InvoiceResponse "lnbc1" "02peer")
      (Returns tt) owingState in
  result.2 = Ok tt /\
  result.1.(account).(balance) = Fin 0 /\
  result.1.(account).(payoutAmount) = Fin 300 /\
  result.1.(calls) = [SentInvoiceRequest; CalledPayInvoice "lnbc1" (Fin 150)].
Proof.
  exact (settlement_pays_budget settlingOpts settlingPlugin (Fin (-100))
           owingState (InvoiceResponse "lnbc1" "02peer") (Returns tt)
           eq_refl eq_refl eq_refl eq_refl eq_refl eq_refl eq_refl).
Defined.

(** C2, the defect.  The revert of a failed settlement is
    [subBalance(settlementBudget)], which checks the minimum and throws.
    With [minimum = -1000], [settleThreshold = -100] and [settleTo = 0] a
    FULFILL of 150 starts a settlement with a budget of 150, which is
    added to the balance at once.  While the invoice request is awaited the
    peer pays 900 on an invoice, and the balance is -900.  When the invoice
    request then fails, [subBalance(150)] throws in the [catch] block of
    [attemptSettle]: nothing has been paid, [payoutAmount] is unchanged,
    and the budget stays on the balance for good. *)
Theorem settlement_revert_throws :
  constructor settlingOpts = Ok settlingPlugin /\
  (let fulfilled :=
     run settlingPlugin (start settlingPlugin "peer") (take 2 failedSettlement) in
   let paid :=
     run settlingPlugin (start settlingPlugin "peer") (take 3 failedSettlement) in
   let failed :=
     run settlingPlugin (start settlingPlugin "peer") failedSettlement in
   fulfilled.(state).(account).(balance) = Fin 0 /\
   fulfilled.(state).(account).(payoutAmount) = Fin 150 /\
   fulfilled.(pending) = [AwaitingInvoice (Fin 150)] /\
   paid.(state).(account).(balance) = Fin (-900) /\
   paid.(pending) = [AwaitingInvoice (Fin 150)] /\
   (attemptSettle_invoiced settlingPlugin (Fin 150)
      (SendFailed (Error_ "request timed out")) paid.(state)).2 =
     Throw (Error_ "Cannot credit: proposedBalance is below the minimum") /\
   failed.(state).(account).(balance) = Fin (-900) /\
   failed.(state).(account).(payoutAmount) = Fin 150 /\
   failed.(state).(calls) =
     [CalledMoneyHandler 900; SentInvoiceRequest] /\
   failed.(pending) = []).
Proof. split; [reflexivity|]. vm_compute. repeat split; reflexivity. Qed.

(** The revert throws also when nothing runs in between.  The constructor
    accepts
    [minimum = 5 <= settleThreshold = 6 <= settleTo = 8 <= maximum = 10];
    the new account has balance 0, below the threshold, and the budget is 8.
    When the invoice request fails, [subBalance(8)] throws because 0 is
    below the minimum, and the balance stays at 8.  With
    [settleTo = Infinity] the revert commits NaN. *)
Lemma settlement_revert_counterexample :
  constructor cornerOpts = Ok cornerPlugin /\
  (let s := (start cornerPlugin "peer").(state) in
   let result := attemptSettle cornerPlugin NoInvoiceResponse (Returns tt) s in
   s.(account).(balance) = Fin 0 /\
   gt (Fin 6) s.(account).(balance) = true /\
   budgetOf cornerPlugin s.(account) = Fin 8 /\
   result.1.(account).(balance) = Fin 8 /\
   result.2 =
     Throw (Error_ "Cannot credit: proposedBalance is below the minimum")) /\
  constructor unboundedOpts = Ok unboundedPlugin /\
  (let s := (start unboundedPlugin "peer").(state) in
   let result := attemptSettle unboundedPlugin NoInvoiceResponse (Returns tt) s in
   s.(account).(balance) = Fin 0 /\
   result.1.(account).(balance) = NaN).
Proof. repeat split; vm_compute; reflexivity. Qed.

(** C3 (amended).  [attemptSettle] takes no lock and does not look at the
    settlements in progress: for a plugin accepted by the constructor, a
    trigger starts a new invoice request and payment exactly when the
    balance it finds is below [settleThreshold] and the budget
    [min(settleTo - balance, payoutAmount)] is positive, whatever is
    pending.  The only suppression comes from the optimistic [addBalance]:
    when the budget is the full [settleTo - balance], a second trigger finds
    the balance at [settleTo] and starts nothing. *)
Theorem settlement_trigger_ignores_pending (opts : LightningPluginOpts)
    (master : LightningPlugin) (threshold : BigNumber) (n : Node) :
  constructor opts = Ok master ->
  master.(_balance).(settleThreshold) = Some threshold ->
  isFinite master.(_balance).(settleTo) = true ->
  isFinite n.(state).(account).(balance) = true ->
  isNaN n.(state).(account).(payoutAmount) = false ->
  let a := n.(state).(account) in
  let budget := budgetOf master a in
  let triggered := step master n CallAttemptSettle in
  triggered =
    (if gt threshold a.(balance) && negb (lte budget (Fin 0))
     then mkNode (withBalance (plus a.(balance) budget) n.(state))
                 (n.(pending) ++ [AwaitingInvoice budget])
     else n) /\
  (budget = minus master.(_balance).(settleTo) a.(balance) ->
   step master triggered CallAttemptSettle = triggered).
Proof.
  intros Hc Hthr Hst Hfin Hp a budget triggered.
  pose proof (constructor_checks _ _ Hc) as Hchk. rewrite Hthr in Hchk.
  destruct Hchk as (Hmax & Hto & _). rewrite <- lte_gte in Hmax.
  assert (Hstep : forall m : Node,
            isFinite m.(state).(account).(balance) = true ->
            isNaN m.(state).(account).(payoutAmount) = false ->
            step master m CallAttemptSettle =
              if gt threshold m.(state).(account).(balance) &&
                 negb (lte (budgetOf master m.(state).(account)) (Fin 0))
              then mkNode (withBalance (plus m.(state).(account).(balance)
                                          (budgetOf master m.(state).(account)))
                             m.(state))
                          (m.(pending) ++
                             [AwaitingInvoice (budgetOf master m.(state).(account))])
              else m).
  { intros m Hf Hq. cbn [step].
    rewrite (attemptSettle_begin_spec _ _ _ Hthr Hmax Hst Hf Hq).
    destruct (_ && _); [reflexivity|]. now destruct m. }
  split; [now apply Hstep|].
  intros Hfull. subst triggered. rewrite (Hstep n Hfin Hp). fold a budget.
  destruct (gt threshold (balance a) && negb (lte budget (Fin 0))) eqn:Hcond.
  - rewrite Hstep; [|subst a; destruct (balance (account (state n)));
                      try discriminate; rewrite Hfull;
                      destruct (settleTo (_balance master)); try discriminate;
                      reflexivity|exact Hp].
    cbn [state pending]. unfold withBalance at 1 2. cbn [setBalance fst account balance].
    assert (gt threshold (plus (balance a) budget) = false) as ->; [|reflexivity].
    rewrite Hfull.
    destruct (settleTo (_balance master)) as [t| | |]; try discriminate.
    subst a. destruct (balance (account (state n))) as [b| | |]; try discriminate.
    rewrite minus_Fin, plus_Fin. replace (b + (t - b)) with t by lia.
    destruct threshold as [th| | |]; try (cbv in Hto; congruence); try reflexivity.
    rewrite gte_Fin in Hto. apply Z.leb_le in Hto. rewrite gt_Fin.
    apply Z.ltb_ge. lia.
  - rewrite (Hstep n Hfin Hp). fold a budget. now rewrite Hcond.
Qed.

Lemma settlement_trigger_ignores_pending_witness :
  step settlingPlugin (mkNode owingState [AwaitingPayment (Fin 7) "lnbc0"])
       CallAttemptSettle =
  mkNode (withBalance (Fin 0) owingState)
         [AwaitingPayment (Fin 7) "lnbc0"; AwaitingInvoice (Fin 150)].
Proof.
  exact (proj1 (settlement_trigger_ignores_pending settlingOpts settlingPlugin
                  (Fin (-100))
                  (mkNode owingState [AwaitingPayment (Fin 7) "lnbc0"])
                  eq_refl eq_refl eq_refl eq_refl eq_refl)).
Defined.

(** C3 as stated fails.  Two FULFILLs of 150 arrive while the first
    settlement waits for its payment: the second FULFILL lowers the balance
    to -150 again, [attemptSettle] starts a second settlement of 150, and
    two [lnd.payInvoice] calls are outstanding together. *)
Lemma single_flight_counterexample :
  constructor settlingOpts = Ok settlingPlugin /\
  (let n := run settlingPlugin (start settlingPlugin "peer")
              [CallHandlePeeringRequest "02peer" (Returns tt);
               CallHandlePrepareResponse 150 Fulfill;
               InvoiceReplies 0 (InvoiceResponse "lnbc1" "02peer");
               CallHandlePrepareResponse 150 Fulfill;
               InvoiceReplies 1 (InvoiceResponse "lnbc2" "02peer")] in
   n.(pending) = [AwaitingPayment (Fin 150) "lnbc1";
                  AwaitingPayment (Fin 150) "lnbc2"] /\
   outstandingPayments n = 2%nat /\
   n.(state).(calls) =
     [SentInvoiceRequest; CalledPayInvoice "lnbc1" (Fin 150);
      SentInvoiceRequest; CalledPayInvoice "lnbc2" (Fin 150)]).
Proof. repeat split; vm_compute; reflexivity. Qed.

End Settlement.

(** ** Packets and incoming payments *)
Section Packets.
Import BigNumber Js Lightning.

Lemma addBalance_commits (master : LightningPlugin) (s : State) (b z : Z) :
  s.(account).(balance) = Fin b ->
  0 <= z ->
  lte (Fin (b + z)) master.(_balance).(maximum) = true ->
  addBalance master (Fin z) s = (withBalance (Fin (b + z)) s, Ok tt).
Proof.
  intros Hb Hz Hmax. unfold addBalance. rewrite isZero_Fin, lt_Fin.
  destruct (Z.eqb_spec z 0) as [->|].
  - rewrite Z.add_0_r, <- Hb. now rewrite withBalance_same.
  - destruct (Z.ltb_spec z 0); [lia|]. munfold. rewrite Hb, plus_Fin.
    rewrite gt_false_lte; [|reflexivity|eapply lte_notNaN_r; eauto].
    now rewrite Hmax.
Qed.

Lemma subBalance_commits (master : LightningPlugin) (s : State) (b z : Z) :
  s.(account).(balance) = Fin b ->
  0 <= z ->
  lte master.(_balance).(minimum) (Fin (b - z)) = true ->
  subBalance master (Fin z) s = (withBalance (Fin (b - z)) s, Ok tt).
Proof.
  intros Hb Hz Hmin. unfold subBalance. rewrite isZero_Fin, lt_Fin.
  destruct (Z.eqb_spec z 0) as [->|].
  - rewrite Z.sub_0_r, <- Hb. now rewrite withBalance_same.
  - destruct (Z.ltb_spec z 0); [lia|]. munfold. rewrite Hb, minus_Fin.
    rewrite lt_false_gte; [|reflexivity|eapply lte_notNaN_l; eauto].
    now rewrite <- lte_gte, Hmin.
Qed.



(** When the minimum does not allow it, [subBalance] throws, the amount
    stays on the balance and the error becomes the reply. *)
Lemma handlePrepare_resume_revert_throws (master : LightningPlugin)
    (s : State) (a' amount : Z) (r : IlpReject) :
  s.(account).(balance) = Fin a' ->
  0 < amount ->
  lt (Fin (a' - amount)) master.(_balance).(minimum) = true ->
  _handlePrepare_resume master (Fin amount) (Returns (Reject r)) s =
    (s, Ok (Reject (errorToReject ""
              (Error_ "Cannot credit: proposedBalance is below the minimum")))).
Proof.
  intros Ha Hz Hmin. unfold _handlePrepare_resume, subBalance.
  rewrite isZero_Fin, lt_Fin.
  destruct (Z.eqb_spec amount 0); [lia|]. destruct (Z.ltb_spec amount 0); [lia|].
  munfold. cbn. now rewrite Ha, minus_Fin, Hmin.
Qed.







(** X21.  A data handler that throws instead of answering leaves the amount of
    the PREPARE on the balance: the revert sits after the [await]. *)
Lemma handlePrepare_handler_throws (master : LightningPlugin) (s : State)
    (a amount : Z) (e : Error) :
  s.(account).(balance) = Fin a ->
  0 <= amount ->
  gt (Fin amount) master.(_maxPacketAmount) = false ->
  lte (Fin (a + amount)) master.(_balance).(maximum) = true ->
  _handlePrepare master (Fin amount) (Some (Rejects e)) s =
    (withBalance (Fin (a + amount)) (withCalls [CalledDataHandler] s),
     Ok (Reject (errorToReject "" e))).
Proof.
  intros Ha Hz Hmaxp Hmax. unfold _handlePrepare. rewrite Hmaxp.
  unfold tryCatch at 1. unfold mbind at 1. unfold M_bind, bind.
  unfold tryCatch at 1. rewrite (addBalance_commits _ _ a amount) by assumption.
  reflexivity.
Qed.

(** The methods agree with their two halves, the one that runs up to the
    [await] and the one that runs when the answer arrives. *)
Lemma handlePrepare_split (master : LightningPlugin) (amount : BigNumber)
    (reply : HandlerReply IlpReply) (s : State) :
  _handlePrepare master amount (Some reply) s =
    match _handlePrepare_begin master amount true s with
    | (s1, Ok (inl _)) => _handlePrepare_resume master amount reply s1
    | (s1, Ok (inr reject)) => (s1, Ok reject)
    | (s1, Throw e) => (s1, Throw e)
    end.
Proof.
  unfold _handlePrepare, _handlePrepare_begin, _handlePrepare_resume.
  cbn [negb]. destruct (gt amount _); [reflexivity|].
  unfold tryCatch at 1 3. unfold mbind at 1 5. unfold M_bind, bind.
  unfold tryCatch at 1 2.
  destruct (addBalance master amount s) as [s1 [[]|e]]; [|reflexivity].
  munfold. cbn. destruct reply as [response|e]; reflexivity.
Qed.

Lemma attemptSettle_pay_split (master : LightningPlugin) (budget : BigNumber)
    (invoice : InvoiceReply) (payment : HandlerReply unit) (s : State) :
  attemptSettle_pay master budget invoice payment s =
    match attemptSettle_invoiced master budget invoice s with
    | (s1, Ok (Some _)) => attemptSettle_paid master budget payment s1
    | (s1, Ok None) => (s1, Ok tt)
    | (s1, Throw e) => (s1, Throw e)
    end.
Proof.
  unfold attemptSettle_pay, attemptSettle_invoiced, attemptSettle_paid, payInvoice.
  unfold tryCatch at 1 3. unfold mbind at 1 5. unfold M_bind, bind.
  destruct (requestInvoice invoice s) as [s1 [pr|e]].
  - munfold. cbn. destruct payment as [[]|e]; reflexivity.
  - unfold mbind, M_bind, bind.
    destruct (subBalance master budget s1) as [s2 [[]|e']]; reflexivity.
Qed.

(** C5 (amended).  When a data handler is registered, every PREPARE whose
    amount is strictly greater than [maxPacketAmount] is answered by a
    REJECT with code F08 whose data holds the received amount and the
    configured maximum; the data handler is not called and the account,
    its balance included, is unchanged. *)
Theorem oversized_prepare_rejected (master : LightningPlugin)
    (amount : BigNumber) (handler : HandlerReply IlpReply) (s : State) :
  gt amount master.(_maxPacketAmount) = true ->
  _handlePrepare master amount (Some handler) s =
    (s, Ok (Reject {| code := "F08";
                      triggeredBy := "";
                      rejectMessage := "Packet size is too large";
                      data := AmountTooLargeData amount
                                master.(_maxPacketAmount) |})).
Proof.
  intros Hgt. unfold _handlePrepare. rewrite Hgt. reflexivity.
Qed.

Lemma oversized_prepare_rejected_witness :
  _handlePrepare limitedPlugin (Fin 100) (Some (Returns Fulfill))
    (start limitedPlugin "peer").(state) =
  ((start limitedPlugin "peer").(state),
   Ok (Reject (mkReject "F08" "" "Packet size is too large"
                 (AmountTooLargeData (Fin 100) (Fin 50))))).
Proof.
  exact (oversized_prepare_rejected limitedPlugin (Fin 100) (Returns Fulfill)
           (start limitedPlugin "peer").(state) eq_refl).
Defined.

(** C5 as stated fails when no data handler is registered: the check for
    the handler comes first, and the PREPARE of 100 against a limit of 50
    is answered with the reject made from a plain [Error], whose code is
    not F08. *)
Lemma oversized_prepare_counterexample :
  gt (Fin 100) limitedPlugin.(_maxPacketAmount) = true /\
  _handlePrepare limitedPlugin (Fin 100) None
    (start limitedPlugin "peer").(state) =
  ((start limitedPlugin "peer").(state),
   Ok (Reject (mkReject "F00" "" "no request handler registered" NoData))).
Proof. split; reflexivity. Qed.

(** The constructor validates a threshold that it keeps: for a truthy
    [settleThreshold] it succeeds exactly when
    [minimum <= settleThreshold <= settleTo <= maximum] holds for the
    rounded values. *)
Lemma constructor_validates_threshold (b : BalanceOpts) (v : Value) :
  b.(opt_settleThreshold) = Some v ->
  truthy v = true ->
  let minimum := dp0 ROUND_FLOOR (numberOf (default (VNumber JsNegInfinity) b.(opt_minimum))) in
  let maximum := dp0 ROUND_FLOOR (numberOf (default (VNumber JsInfinity) b.(opt_maximum))) in
  let settleTo := dp0 ROUND_FLOOR (numberOf (default (number 0) b.(opt_settleTo))) in
  let threshold := dp0 ROUND_FLOOR (numberOf v) in
  isOk (constructor (optsWithBalance b)) =
    lte minimum threshold && lte threshold settleTo && lte settleTo maximum.
Proof.
  intros Hv Ht. unfold constructor, optsWithBalance. cbn -[dp0 gte lte numberOf].
  rewrite Hv, Ht. cbn -[dp0 gte lte numberOf]. rewrite !lte_gte.
  change (VNumber (JsFinite 0)) with (number 0).
  repeat (destruct (gte _ _)); reflexivity.
Qed.

(** A receive-only account never settles: [attemptSettle] returns without
    any call and without changing the state. *)
Lemma receive_only_never_settles (master : LightningPlugin)
    (invoice : InvoiceReply) (payment : HandlerReply unit) (s : State) :
  master.(_balance).(settleThreshold) = None ->
  attemptSettle master invoice payment s = (s, Ok tt).
Proof.
  intros Hnone. unfold attemptSettle, attemptSettle_begin. rewrite Hnone.
  reflexivity.
Qed.

(** C6, the defect.  The constructor tests the raw option for truthiness,
    so the number 0 counts as absent: with [settleThreshold: 0] and
    [settleTo: -5] the required order [settleThreshold <= settleTo] is
    violated, yet the constructor succeeds and builds a receive-only
    plugin. *)
Theorem constructor_ignores_zero_threshold :
  zeroThresholdOpts.(opt_balance) =
    Some (mkBalanceOpts (Some (number (-10))) (Some (number 10))
                        (Some (number (-5))) (Some (number 0))) /\
  lte (dp0 ROUND_FLOOR (numberOf (number 0)))
      (dp0 ROUND_FLOOR (numberOf (number (-5)))) = false /\
  constructor zeroThresholdOpts = Ok zeroThresholdPlugin /\
  zeroThresholdPlugin.(_balance).(settleThreshold) = None.
Proof. repeat split; vm_compute; reflexivity. Qed.




End Packets.
(** ** The store wrapper *)
Section StoreWrapperFacts.
Import StoreWrapper StoreWrapperTraces.


Lemma enqueue_store (op : Write) (w : Wrapper) :
  (enqueue op w).(_store) = w.(_store).
Proof. unfold enqueue. now destruct (rejected w). Qed.





(** A resumed load touches the cache only. *)
Lemma load_resume_frame (l : Load) (parsed : option Cached) (w : Wrapper) :
  (_load_resume l parsed w).(_store) = w.(_store) /\
  (_load_resume l parsed w).(_write) = w.(_write) /\
  (_load_resume l parsed w).(loads) = w.(loads) /\
  (_load_resume l parsed w).(rejected) = w.(rejected).
Proof.
  unfold _load_resume. destruct (negb _); [|auto].
  destruct (_ && _); [destruct parsed|]; auto.
Qed.

(** What the store holds after the writes of two lists, one list after
    the other. *)
Lemma held_app (key : string) (ws1 ws2 : list Write) (before : option string) :
  held key (ws1 ++ ws2) before = held key ws2 (held key ws1 before).
Proof.
  unfold held, lastWrite. rewrite filter_app, last_app.
  now destruct (last (filter _ ws2)) as [[]|].
Qed.

Lemma held_one (key : string) (op : Write) (before : option string) :
  held key [op] before =
    if bool_decide (writeKey op = key)
    then match op with Put _ valueStr => Some valueStr | Del _ => None end
    else before.
Proof.
  unfold held, lastWrite. destruct (decide (writeKey op = key)) as [E|E].
  - rewrite filter_cons_True by exact E. rewrite bool_decide_eq_true_2 by exact E.
    now destruct op.
  - rewrite filter_cons_False by exact E. now rewrite bool_decide_eq_false_2.
Qed.

Lemma held_other (key : string) (ws : list Write) (before : option string) :
  Forall (fun op => writeKey op <> key) ws -> held key ws before = before.
Proof.
  induction 1 as [|op ws Hop _ IH]; [reflexivity|].
  change (op :: ws) with ([op] ++ ws). rewrite held_app, held_one.
  now rewrite bool_decide_eq_false_2.
Qed.

Lemma applyWrite_held (op : Write) (m : gmap string string) (key : string) :
  MemoryStore_get key (applyWrite op m) = held key [op] (MemoryStore_get key m).
Proof.
  rewrite held_one. unfold MemoryStore_get.
  destruct op as [k v|k]; cbn [applyWrite writeKey];
    unfold MemoryStore_put, MemoryStore_del;
    destruct (decide (k = key)) as [->|E].
  - rewrite bool_decide_eq_true_2 by reflexivity. apply lookup_insert_eq.
  - rewrite bool_decide_eq_false_2 by exact E. now apply lookup_insert_ne.
  - rewrite bool_decide_eq_true_2 by reflexivity. apply lookup_delete_eq.
  - rewrite bool_decide_eq_false_2 by exact E. now apply lookup_delete_ne.
Qed.

Lemma applyWrites_held (ops : list Write) (m : gmap string string)
    (key : string) :
  MemoryStore_get key (fold_left (fun m op => applyWrite op m) ops m) =
    held key ops (MemoryStore_get key m).
Proof.
  revert m. induction ops as [|op ops IH]; intros m; [reflexivity|].
  cbn [fold_left]. rewrite IH, applyWrite_held.
  change (op :: ops) with ([op] ++ ops). now rewrite held_app.
Qed.

(** Letting the chain run hands its callbacks to the store, first to
    last. *)
Lemma drain_queue (q : list Write) (st : gmap string string)
    (c : gmap string (option Cached)) (ls : list Load) (r : bool) :
  (performAll (mkWrapper st c q ls r) (replicate (length q) WriteRuns)).(_store)
    = fold_left (fun m op => applyWrite op m) q st.
Proof.
  revert st. induction q as [|op q IH]; intros st; [reflexivity|].
  change (performAll (mkWrapper st c (op :: q) ls r)
            (replicate (length (op :: q)) WriteRuns))
    with (performAll (mkWrapper (applyWrite op st) c q ls r)
            (replicate (length q) WriteRuns)).
  apply IH.
Qed.

Lemma drained_held (w : Wrapper) (key : string) :
  MemoryStore_get key (drained w).(_store) =
    held key w.(_write) (MemoryStore_get key w.(_store)).
Proof.
  unfold drained. destruct w as [st c q ls r]. cbn [_write _store].
  now rewrite drain_queue, applyWrites_held.
Qed.

(** One event: the writes that have reached the store stay a prefix of
    the writes issued, longer by at most one. *)
Lemma react_ordered (store : gmap string string) (ws : list Write) (n : nat)
    (w : Wrapper) (e : Event) :
  ordered store ws n w ->
  exists n', (n <= n' <= S n)%nat /\
             ordered store (ws ++ issues e) n' (react w e).
Proof.
  intros [Hs Hq].
  assert (Hsame : forall w', w'.(_store) = w.(_store) ->
            w'.(_write) = w.(_write) -> w'.(rejected) = w.(rejected) ->
            ordered store (ws ++ []) n w').
  { intros w' E1 E2 E3. rewrite app_nil_r. split.
    - intros key. rewrite E1. apply Hs.
    - now rewrite E2, E3. }
  assert (Hqueue : forall op w', w'.(_store) = w.(_store) ->
            w'.(_write) = w.(_write) -> w'.(rejected) = w.(rejected) ->
            ordered store (ws ++ [op]) n (enqueue op w')).
  { intros op w' E1 E2 E3. split.
    - intros key. rewrite enqueue_store, E1, Hs.
      destruct (rejected w); destruct Hq as [Hn _];
        now rewrite take_app_le by lia.
    - unfold enqueue. rewrite <- E3 in Hq. destruct (rejected w') eqn:Er.
      + rewrite Er, E2. destruct Hq as [Hn Hq]. split; [|exact Hq].
        rewrite length_app. lia.
      + cbn [rejected _write]. rewrite E2. destruct Hq as [Hn ->].
        rewrite length_app. split; [lia|]. now rewrite drop_app_le by lia. }
  destruct e as [[key parse|i parsed|key|key value|key|key value|]|i|];
    cbn [react perform issues queued].
  - exists n. split; [lia|]. apply Hsame; unfold _load;
      now destruct (bool_decide _).
  - exists n. split; [lia|]. destruct (loads w !! i) as [l|];
      [|now apply Hsame].
    destruct (load_resume_frame l parsed w) as (E1 & E2 & _ & E3).
    now apply Hsame.
  - exists n. split; [lia|]. apply Hsame; unfold unload;
      now destruct (bool_decide _).
  - exists n. split; [lia|]. unfold set. destruct value; now apply Hqueue.
  - exists n. split; [lia|]. unfold delete_. now apply Hqueue.
  - exists n. split; [lia|]. now apply Hsame.
  - unfold runWrite. destruct (_write w) as [|op rest] eqn:Ew.
    { exists n. split; [lia|]. apply Hsame; [reflexivity|exact Ew|reflexivity]. }
    destruct (rejected w) eqn:Er; [now destruct Hq|]. destruct Hq as [Hn Hq].
    assert (Hop : ws !! n = Some op).
    { rewrite <- (Nat.add_0_r n), <- lookup_drop, <- Hq. reflexivity. }
    exists (S n). split; [lia|]. rewrite app_nil_r. split.
    + intros key. cbn [_store].
      rewrite applyWrite_held, Hs, (take_S_r _ _ _ Hop). now rewrite held_app.
    + cbn [rejected _write].
      apply lookup_lt_Some in Hop as Hlt. split; [lia|].
      rewrite (drop_S _ _ _ Hop) in Hq. now injection Hq.
  - exists n. split; [lia|]. now apply Hsame.
  - unfold rejectWrite. destruct (_write w) as [|op rest] eqn:Ew.
    { exists n. split; [lia|]. apply Hsame; [reflexivity|exact Ew|reflexivity]. }
    destruct (rejected w) eqn:Er; [now destruct Hq|]. destruct Hq as [Hn Hq].
    exists n. split; [lia|]. rewrite app_nil_r. split; [exact Hs|].
    cbn [rejected _write]. split; [|reflexivity].
    destruct (decide (n < length ws)%nat); [assumption|].
    rewrite drop_ge in Hq by lia. discriminate.
Qed.

Lemma reactAll_ordered (store : gmap string string) (events : list Event)
    (ws : list Write) (n : nat) (w : Wrapper) :
  ordered store ws n w ->
  exists n', (n <= n')%nat /\
             ordered store (ws ++ flat_map issues events) n' (reactAll w events).
Proof.
  revert ws n w. induction events as [|e events IH]; intros ws n w Hw.
  - exists n. split; [lia|]. cbn. now rewrite app_nil_r.
  - destruct (react_ordered _ _ _ _ e Hw) as (n1 & Hn1 & H1).
    destruct (IH _ _ _ H1) as (n' & Hn' & H'). exists n'. split; [lia|].
    cbn [flat_map reactAll fold_left]. now rewrite app_assoc.
Qed.

Lemma newWrapper_ordered (store : gmap string string) :
  ordered store [] 0 (newWrapper store).
Proof. split; [reflexivity|]. split; [cbn; lia|reflexivity]. Qed.



(** Over a store that resolves every call the chain is never rejected. *)
Lemma perform_rejected (w : Wrapper) (i : Action) :
  (perform w i).(rejected) = w.(rejected).
Proof.
  destruct i as [key parse|i parsed|key|key value|key|key value|];
    cbn [perform].
  - unfold _load. now destruct (bool_decide _).
  - destruct (loads w !! i) as [l|]; [|reflexivity].
    now destruct (load_resume_frame l parsed w) as (_ & _ & _ & E3).
  - unfold unload. now destruct (bool_decide _).
  - unfold set, enqueue. cbn. destruct (rejected w) eqn:Er; cbn; auto.
  - unfold delete_, enqueue. cbn. destruct (rejected w) eqn:Er; cbn; auto.
  - reflexivity.
  - unfold runWrite. now destruct (_write w).
Qed.

Lemma performAll_rejected (inputs : list Action) (w : Wrapper) :
  (performAll w inputs).(rejected) = w.(rejected).
Proof.
  revert w. induction inputs as [|i inputs IH]; intros w; [reflexivity|].
  change (performAll w (i :: inputs)) with (performAll (perform w i) inputs).
  now rewrite IH, perform_rejected.
Qed.

Lemma performAll_reactAll (inputs : list Action) (w : Wrapper) :
  performAll w inputs = reactAll w (map Does inputs).
Proof.
  revert w. induction inputs as [|i inputs IH]; intros w; [reflexivity|].
  cbn. apply IH.
Qed.

Lemma issues_Does (inputs : list Action) :
  flat_map issues (map Does inputs) = flat_map queued inputs.
Proof.
  induction inputs as [|i inputs IH]; [reflexivity|]. cbn. now rewrite IH.
Qed.




End StoreWrapperFacts.

(** ** The route broadcaster *)
Section RouteBroadcasterFacts.
Import RouteBroadcaster.

(** The epoch recorded for a peer changes only when one of its requests
    is answered or fails. *)
Lemma peerEpochs_fold (requestFullTable : bool) (unreachable : list string)
    (routes : list Route) (ledgers : list string) (b : Broadcaster) :
  (fold_left
     (fun b adjacentLedger =>
        _broadcastToLedger adjacentLedger
          (filter (fun route : Route => route.(source_ledger) = adjacentLedger)
                  routes)
          unreachable requestFullTable b)
     ledgers b).(peerEpochs) = b.(peerEpochs).
Proof.
  revert b. induction ledgers as [|l ledgers IH]; intros b; [reflexivity|].
  cbn [fold_left]. now rewrite IH.
Qed.

Lemma cursor_moves_only_on_reply (b : Broadcaster) (i : Turn) :
  match i with Acknowledged _ | Failed _ _ => False | _ => True end ->
  (turn b i).(peerEpochs) = b.(peerEpochs).
Proof.
  destruct i; cbn [turn]; intros H; try contradiction; try reflexivity.
  - unfold broadcast. now rewrite peerEpochs_fold.
  - unfold _addPeer. now destruct (bool_decide _).
Qed.

(** An acknowledgement records the epoch that is current when it arrives;
    a failure records -1. *)
Lemma cursor_after_reply (b : Broadcaster) (adjacentLedger : string)
    (lostLedgerLinks : list string) :
  adjacentLedger ∈ b.(awaiting) ->
  (turn b (Acknowledged adjacentLedger)).(peerEpochs) !! adjacentLedger =
    Some (_currentEpoch b) /\
  (turn b (Failed adjacentLedger lostLedgerLinks)).(peerEpochs) !! adjacentLedger =
    Some (-1).
Proof.
  intros Hin. cbn [turn]. rewrite !bool_decide_eq_true_2 by exact Hin.
  split; cbn; apply lookup_insert_eq.
Qed.

Lemma stuck_round (k : nat) (b : Broadcaster) :
  stuck k b -> stuck (S k) (turns b quietRound).
Proof.
  intros (Ht & Hp & He & Ha & Hk & Hs).
  destruct b as [tables curves hold ps epochs down reqs aw]. cbn in *. subst.
  unfold turns, quietRound. cbn [fold_left turn].
  unfold broadcast. cbn [peers routingTables toJSON detectedDown fold_left].
  unfold _broadcastToLedger, epochOrMinusOne.
  cbn [peerEpochs awaiting sent broadcastCurves holdDownTime routingTables
       peers detectedDown clearDetectedDown].
  rewrite He. cbn.
  repeat split; try reflexivity.
  - apply lookup_insert_eq.
  - rewrite bool_decide_true by apply list_elem_of_here.
    cbn. rewrite length_app. cbn. lia.
  - apply Forall_app. split; [exact Hs|]. repeat constructor.
Qed.

Lemma stuck_rounds (n k : nat) (b : Broadcaster) :
  stuck k b -> stuck (k + n) (turns b (concat (replicate n quietRound))).
Proof.
  revert k b. induction n as [|n IH]; intros k b Hb.
  - now rewrite Nat.add_0_r.
  - cbn [replicate concat]. unfold turns. rewrite fold_left_app.
    replace (k + S n)%nat with (S k + n)%nat by lia.
    apply IH. now apply stuck_round.
Qed.

Lemma stuck_never_offered (k : nat) (b : Broadcaster) :
  stuck k b -> ~ offered "ledger.a." lateRoute b.
Proof.
  intros (_ & _ & _ & _ & _ & Hs) (request & Hin & _ & Hroute).
  rewrite Forall_forall in Hs. rewrite (Hs _ Hin) in Hroute.
  now apply not_elem_of_nil in Hroute.
Qed.

(** C9, the defect.  The first broadcast to [ledger.a.] is computed while
    the table is empty and the epoch is 0.  Before it is acknowledged a
    route for [ledger.a.] is added during epoch 1.  The acknowledgement
    records the epoch that is current when it arrives, 1, although the
    request carried no route; every later broadcast filters by
    [added_during_epoch > 1] and leaves the route out again.  However many
    broadcasts follow, the cursor covers a route that was never offered to
    the peer. *)
Theorem cursor_covers_route_never_offered (n : nat) :
  let b := turns (newBroadcaster (mkTables [] 0) false 45000
                    ["ledger.a."%string])
                 (raceInputs ++ concat (replicate n quietRound)) in
  b.(peerEpochs) !! "ledger.a."%string = Some 1 /\
  lateRoute ∈ b.(routingTables).(toJSON) /\
  lateRoute.(source_ledger) = "ledger.a."%string /\
  lateRoute.(added_during_epoch) <= 1 /\
  b.(awaiting) = [] /\
  length b.(sent) = (2 + n)%nat /\
  ~ offered "ledger.a." lateRoute b.
Proof.
  intros b.
  assert (Hb : stuck (2 + n) b).
  { subst b. unfold turns. rewrite fold_left_app. apply stuck_rounds.
    repeat split; try (vm_compute; reflexivity). vm_compute. repeat constructor. }
  pose proof Hb as (Ht & _ & He & Ha & Hk & _).
  split; [exact He|]. split; [rewrite Ht; apply list_elem_of_here|].
  split; [reflexivity|]. split; [vm_compute; discriminate|].
  split; [exact Ha|]. split; [exact Hk|]. now apply stuck_never_offered with (k := (2 + n)%nat).
Qed.

(** A notice of unreachable ledgers is sent once: [broadcast] empties
    [detectedDown] before the requests are answered, and the failure of a
    request puts back only what [invalidateConnector] reports. *)
Lemma unreachable_notice_not_repeated :
  let b := turns (newBroadcaster (mkTables [] 0) false 45000
                    ["ledger.a."%string; "ledger.c."%string])
                 [Broadcast true;
                  Failed "ledger.c." ["ledger.x."%string];
                  Acknowledged "ledger.a.";
                  Broadcast false;
                  Failed "ledger.a." [];
                  Acknowledged "ledger.c.";
                  Broadcast false] in
  map (fun r => (r.(ledger), r.(unreachable_through_me))) b.(sent) =
    [("ledger.a."%string, []); ("ledger.c."%string, []);
     ("ledger.a."%string, ["ledger.x."%string]);
     ("ledger.c."%string, ["ledger.x."%string]);
     ("ledger.a."%string, []); ("ledger.c."%string, [])].
Proof. vm_compute. reflexivity. Qed.

End RouteBroadcasterFacts.

(** ** The codec *)
Section Codec.
Import Js Oer IlpPacket.

Lemma length_bigEndian (n : nat) (value : Z) : length (bigEndian n value) = n.
Proof. induction n; cbn; congruence. Qed.

Lemma fold_bigEndian (n : nat) (value acc : Z) :
  fold_left (fun acc byte => acc * 256 + byte) (bigEndian n value) acc =
    acc * 256 ^ Z.of_nat n + value mod 256 ^ Z.of_nat n.
Proof.
  revert acc. induction n as [|k IH]; intros acc.
  - cbn. rewrite Z.mod_1_r. lia.
  - cbn [bigEndian fold_left]. rewrite IH.
    replace (Z.of_nat (S k)) with (Z.of_nat k + 1) by lia.
    rewrite Z.pow_add_r by lia. change (256 ^ 1) with 256.
    assert (0 < 256 ^ Z.of_nat k) by (apply Z.pow_pos_nonneg; lia).
    rewrite (Z.rem_mul_r value (256 ^ Z.of_nat k) 256) by lia.
    ring.
Qed.

(** Reading back the bytes of a number that fits. *)
Lemma fromBigEndian_bigEndian (n : nat) (value : Z) :
  0 <= value < 256 ^ Z.of_nat n ->
  fromBigEndian (bigEndian n value) = value.
Proof.
  intros H. unfold fromBigEndian. rewrite fold_bigEndian.
  rewrite Z.mod_small by exact H. lia.
Qed.

Lemma read_app (bytes rest : list Z) :
  read (Z.of_nat (length bytes)) (bytes ++ rest) = Ok (bytes, rest).
Proof.
  unfold read. rewrite length_app.
  destruct (Z.ltb_spec (Z.of_nat (length bytes + length rest))
                       (Z.of_nat (length bytes))); [lia|].
  rewrite Nat2Z.id, take_app_length, drop_app_length. reflexivity.
Qed.

Lemma readUInt_bigEndian (n : nat) (value : Z) (rest : list Z) :
  0 <= value < 256 ^ Z.of_nat n ->
  readUInt (Z.of_nat n) (bigEndian n value ++ rest) = Ok (value, rest).
Proof.
  intros H. unfold readUInt.
  rewrite <- (length_bigEndian n value) at 1. rewrite read_app. cbn.
  now rewrite fromBigEndian_bigEndian.
Qed.

Lemma getBuffer_write (buffer : list Z) (w : Writer) :
  getBuffer (write buffer w) = getBuffer w ++ buffer.
Proof.
  unfold getBuffer, write. cbn. rewrite concat_app. cbn.
  now rewrite app_nil_r.
Qed.

Lemma readUInt8_cons (byte : Z) (rest : list Z) :
  readUInt8 (byte :: rest) = Ok (byte, rest).
Proof.
  unfold readUInt8, readUInt, read. cbn [length].
  destruct (Z.ltb_spec (Z.of_nat (S (length rest))) 1); [lia|]. reflexivity.
Qed.

(** A successful [writeUInt] appends the big-endian bytes of a value that
    fits into them. *)
Lemma writeUInt_ok (value len : Z) (w w' : Writer) :
  writeUInt value len w = Ok w' ->
  w' = write (bigEndian (Z.to_nat len) value) w /\
  0 <= value <= MAX_SAFE_INTEGER /\ 0 < len /\ value < 256 ^ len.
Proof.
  unfold writeUInt.
  destruct (Z.ltb_spec MAX_SAFE_INTEGER value); [discriminate|].
  destruct (Z.ltb_spec value 0); [discriminate|].
  destruct (Z.leb_spec len 0); [discriminate|].
  destruct (match UINT_RANGES len with Some r => r <? value | None => false end)
    eqn:Hrange; [discriminate|].
  destruct ((value <? 0xffffffffffff) && (len <=? 6)) eqn:Hsmall.
  - intros [= <-]. repeat split; try lia.
    apply andb_true_iff in Hsmall as [_ Hlen]. apply Z.leb_le in Hlen.
    assert (Hc : len = 1 \/ len = 2 \/ len = 3 \/ len = 4 \/ len = 5 \/ len = 6)
      by lia.
    destruct Hc as [->|[->|[->|[->|[->| ->]]]]]; cbn in Hrange;
      apply Z.ltb_ge in Hrange; lia.
  - destruct (Z.ltb_spec (len * 2) (hexLength value)) as [|Hhex]; [discriminate|].
    intros [= <-]. repeat split; try lia.
    unfold hexLength in Hhex. destruct (Z.eqb_spec value 0) as [->|Hnz].
    + apply Z.pow_pos_nonneg; lia.
    + assert (Hlog : Z.log2 value < 8 * len).
      { pose proof (Z.div_mod (Z.log2 value) 4 ltac:(lia)).
        pose proof (Z.mod_pos_bound (Z.log2 value) 4 ltac:(lia)). lia. }
      pose proof (Z.log2_spec value ltac:(lia)) as [_ Hup].
      eapply Z.lt_le_trans; [exact Hup|].
      replace 256 with (2 ^ 8) by reflexivity.
      rewrite <- Z.pow_mul_r by lia.
      apply Z.pow_le_mono_r; lia.
Qed.

(** What [writeVarOctetString] appends can be read back by
    [readVarOctetString], whatever follows it. *)
Lemma writeVarOctetString_read (buffer : list Z) (w w' : Writer) :
  writeVarOctetString buffer w = Ok w' ->
  exists prefix,
    getBuffer w' = getBuffer w ++ prefix ++ buffer /\
    forall rest,
      readVarOctetString (prefix ++ buffer ++ rest) = Ok (buffer, rest).
Proof.
  unfold writeVarOctetString. cbv zeta.
  set (len := Z.of_nat (length buffer)).
  destruct (Z.leb_spec len 127) as [Hle|Hgt].
  - destruct (writeUInt8 len w) as [w1|e] eqn:E1; [|discriminate].
    cbn [andThen]. intros [= <-].
    apply writeUInt_ok in E1 as (-> & _ & _ & _).
    change (Z.to_nat 1) with 1%nat. cbn [bigEndian].
    change (256 ^ Z.of_nat 0) with 1. rewrite Z.div_1_r.
    rewrite Z.mod_small by lia.
    exists [len]. split.
    + rewrite !getBuffer_write. now rewrite <- app_assoc.
    + intros rest. unfold readVarOctetString, readLengthPrefix.
      cbn [app]. rewrite readUInt8_cons. cbn [andThen].
      assert (Z.testbit len 7 = false) as ->.
      { apply Z.testbit_false; [lia|]. change (2 ^ 7) with 128.
        rewrite Z.div_small by lia. reflexivity. }
      cbn [andThen]. subst len. apply read_app.
  - set (L := (binaryLength len + 7) / 8).
    destruct (writeUInt8 (Z.lor 128 L) w) as [w1|e] eqn:E1; [|discriminate].
    cbn [andThen].
    destruct (writeUInt len L w1) as [w2|e] eqn:E2; [|discriminate].
    cbn [andThen]. intros [= <-].
    apply writeUInt_ok in E1 as (-> & _ & _ & _).
    apply writeUInt_ok in E2 as (-> & [_ Hsafe] & HL & Hfit).
    assert (HL7 : L <= 7).
    { subst L. unfold binaryLength. destruct (Z.eqb_spec len 0); [lia|].
      assert (Z.log2 len <= 52).
      { apply Z.lt_succ_r, Z.log2_lt_pow2; [lia|]. unfold MAX_SAFE_INTEGER in *.
        lia. }
      apply Z.lt_succ_r. apply Z.div_lt_upper_bound; lia. }
    assert (Hfirst : bigEndian (Z.to_nat 1) (Z.lor 128 L) = [128 + L] /\
                     Z.testbit (128 + L) 7 = true /\
                     Z.land (128 + L) 0x7f = L).
    { assert (Hc : L = 1 \/ L = 2 \/ L = 3 \/ L = 4 \/ L = 5 \/ L = 6 \/ L = 7)
        by lia.
      destruct Hc as [->|[->|[->|[->|[->|[->| ->]]]]]]; repeat split; reflexivity. }
    destruct Hfirst as (-> & Hbit & Hland).
    exists ([128 + L] ++ bigEndian (Z.to_nat L) len). split.
    + rewrite !getBuffer_write. now rewrite <- !app_assoc.
    + intros rest. unfold readVarOctetString, readLengthPrefix.
      rewrite <- !app_assoc. cbn [app]. rewrite readUInt8_cons. cbn [andThen].
      rewrite Hbit, Hland.
      rewrite <- (Z2Nat.id L) at 1 by lia.
      rewrite readUInt_bigEndian by (rewrite Z2Nat.id by lia; lia).
      cbn [andThen]. subst len. apply read_app.
Qed.

Lemma writeUInt8_ok (value : Z) (w w' : Writer) :
  writeUInt8 value w = Ok w' ->
  w' = write [value] w /\ 0 <= value < 256.
Proof.
  intros H. apply writeUInt_ok in H as (-> & [H0 _] & _ & Hfit).
  change (256 ^ 1) with 256 in Hfit. split; [|lia].
  change (Z.to_nat 1) with 1%nat. cbn [bigEndian].
  change (256 ^ Z.of_nat 0) with 1. rewrite Z.div_1_r.
  now rewrite Z.mod_small by lia.
Qed.

(** The envelope can be taken apart again, and its first byte is the
    type. *)
Lemma envelope_roundtrip (type : Z) (contents binary : list Z) :
  serializeEnvelope type contents = Ok binary ->
  deserializeEnvelope binary = Ok (type, contents) /\
  binary !! 0%nat = Some type.
Proof.
  unfold serializeEnvelope. cbv zeta.
  destruct (writeUInt8 type newWriter) as [w1|e] eqn:E1; [|discriminate].
  cbn [andThen].
  destruct (writeVarOctetString contents w1) as [w2|e] eqn:E2; [|discriminate].
  cbn [andThen]. intros [= <-].
  apply writeUInt8_ok in E1 as [-> _].
  apply writeVarOctetString_read in E2 as (prefix & Hbuf & Hread).
  rewrite Hbuf, getBuffer_write. cbn [getBuffer newWriter components concat app].
  split; [|reflexivity].
  unfold deserializeEnvelope. cbv zeta. rewrite readUInt8_cons. cbn [andThen].
  rewrite <- (app_nil_r contents) at 1. rewrite Hread. reflexivity.
Qed.

(** The fulfillment packet takes the sibling path with the imported
    [bufferToBase64url] and comes back with its data converted from base64
    to base64url. *)
Lemma fulfillment_roundtrip (rt : Runtime) (json : IlpFulfillment) :
  match serializeIlpPacket rt (Fulfillment json) with
  | Ok binary =>
      deserializeIlpPacket rt binary =
        Some (Ok {| d_type := 9;
                    d_typeString := "ilp_fulfillment";
                    d_data := Fulfillment
                      {| f_data := rt.(bufferToBase64url)
                                     (rt.(fromBase64) json.(f_data)) |} |})
  | Throw _ => True
  end.
Proof.
  cbn [serializeIlpPacket]. unfold serializeIlpFulfillment. cbv zeta.
  destruct (writeVarOctetString _ newWriter) as [w1|e] eqn:E1; [|exact I].
  cbn [andThen].
  destruct (writeUInt8 0 w1) as [w2|e] eqn:E2; [|exact I]. cbn [andThen].
  destruct (serializeEnvelope _ _) as [binary|e] eqn:E3; [|exact I].
  apply envelope_roundtrip in E3 as [Henv Hfirst].
  apply writeUInt8_ok in E2 as [-> _].
  apply writeVarOctetString_read in E1 as (prefix & Hbuf & Hread).
  unfold deserializeIlpPacket. rewrite Hfirst.
  change TYPE_ILP_FULFILLMENT with 9 in Hfirst |- *.
  unfold deserializeIlpFulfillment. rewrite Henv. cbn [andThen].
  change (negb (TYPE_ILP_FULFILLMENT =? TYPE_ILP_FULFILLMENT)) with false.
  cbv iota zeta. rewrite getBuffer_write, Hbuf.
  cbn [getBuffer newWriter components concat app].
  rewrite <- app_assoc, Hread. reflexivity.
Qed.

(** C8, the defect.  Whatever forwarded payment is serialized,
    [deserializeIlpPacket] does not return it: the envelope and the
    account are read back, and the call of the undeclared [base64url]
    throws a [ReferenceError]. *)
Theorem forwarded_payment_cannot_be_deserialized (rt : Runtime)
    (json : IlpForwardedPayment) :
  match serializeIlpPacket rt (ForwardedPayment json) with
  | Ok binary =>
      deserializeIlpPacket rt binary = Some (Throw (ReferenceError "base64url"))
  | Throw _ => True
  end.
Proof.
  cbn [serializeIlpPacket]. unfold serializeIlpForwardedPayment. cbv zeta.
  destruct (writeVarOctetString _ newWriter) as [w1|e] eqn:E1; [|exact I].
  cbn [andThen].
  destruct (writeVarOctetString _ w1) as [w2|e] eqn:E2; [|exact I].
  cbn [andThen].
  destruct (writeUInt8 0 w2) as [w3|e] eqn:E3; [|exact I]. cbn [andThen].
  destruct (serializeEnvelope _ _) as [binary|e] eqn:E4; [|exact I].
  apply envelope_roundtrip in E4 as [Henv Hfirst].
  apply writeUInt8_ok in E3 as [-> _].
  apply writeVarOctetString_read in E2 as (prefix2 & Hbuf2 & _).
  apply writeVarOctetString_read in E1 as (prefix1 & Hbuf1 & Hread1).
  unfold deserializeIlpPacket. rewrite Hfirst.
  change TYPE_ILP_FORWARDED_PAYMENT with 10 in Hfirst |- *.
  unfold deserializeIlpForwardedPayment. rewrite Henv. cbn [andThen].
  change (negb (TYPE_ILP_FORWARDED_PAYMENT =? TYPE_ILP_FORWARDED_PAYMENT))
    with false.
  cbv iota zeta. rewrite getBuffer_write, Hbuf2, Hbuf1.
  cbn [getBuffer newWriter components concat app].
  rewrite <- !app_assoc, Hread1. reflexivity.
Qed.

(** The packet [{ type: 10, data: { account: 'g.us', data: '' } }]. *)
Example forwarded_payment_example :
  serializeIlpPacket emptyRuntime forwardedExample =
    Ok [10; 7; 4; 103; 46; 117; 115; 0; 0] /\
  deserializeIlpPacket emptyRuntime [10; 7; 4; 103; 46; 117; 115; 0; 0] =
    Some (Throw (ReferenceError "base64url")).
Proof. split; vm_compute; reflexivity. Qed.

End Codec.

(** ** The writers of oer-utils and the predictor *)
Section WriterFacts.
Import Js Oer OerWriter.

Lemma pow256 (n : Z) : 0 <= n -> 256 ^ n = 2 ^ (8 * n).
Proof.
  intros H. replace 256 with (2 ^ 8) by reflexivity.
  now rewrite <- Z.pow_mul_r by lia.
Qed.

Lemma pow256_pos (n : Z) : 0 <= n -> 0 < 256 ^ n.
Proof. intros H. apply Z.pow_pos_nonneg; lia. Qed.

Lemma binaryLength_pos (value : Z) : 1 <= binaryLength value.
Proof.
  unfold binaryLength. destruct (Z.eqb_spec value 0); [lia|].
  pose proof (Z.log2_nonneg value). lia.
Qed.

Lemma binaryLength_upper (value : Z) :
  0 <= value -> value < 2 ^ binaryLength value.
Proof.
  intros H. unfold binaryLength. destruct (Z.eqb_spec value 0) as [->|Hnz].
  - reflexivity.
  - replace (Z.log2 value + 1) with (Z.succ (Z.log2 value)) by lia.
    apply Z.log2_spec. lia.
Qed.

Lemma binaryLength_lower (value : Z) :
  0 < value -> 2 ^ (binaryLength value - 1) <= value.
Proof.
  intros H. unfold binaryLength. destruct (Z.eqb_spec value 0); [lia|].
  replace (Z.log2 value + 1 - 1) with (Z.log2 value) by lia.
  apply Z.log2_spec. lia.
Qed.

Lemma ceilDiv8_spec (n : Z) :
  8 * (ceilDiv8 n - 1) < n <= 8 * ceilDiv8 n.
Proof.
  unfold ceilDiv8.
  pose proof (Z.div_mod (n + 7) 8 ltac:(lia)).
  pose proof (Z.mod_pos_bound (n + 7) 8 ltac:(lia)). lia.
Qed.

(** A value below [256 ^ length] has at most [2 * length] hexadecimal
    digits, so the padding never fails for it. *)
Lemma hexLength_fits (value length : Z) :
  1 <= length -> 0 <= value < 256 ^ length -> hexLength value <= length * 2.
Proof.
  intros Hl [H0 Hlt]. unfold hexLength.
  destruct (Z.eqb_spec value 0) as [->|Hnz]; [lia|].
  assert (Hlog : Z.log2 value < 8 * length).
  { apply Z.log2_lt_pow2; [lia|]. now rewrite <- pow256 by lia. }
  pose proof (Z.div_mod (Z.log2 value) 4 ltac:(lia)).
  pose proof (Z.mod_pos_bound (Z.log2 value) 4 ltac:(lia)). lia.
Qed.

Lemma hexLength_fits_inv (value length : Z) :
  1 <= length -> 0 <= value -> hexLength value <= length * 2 ->
  value < 256 ^ length.
Proof.
  intros Hl H0 Hhex. unfold hexLength in Hhex.
  destruct (Z.eqb_spec value 0) as [->|Hnz]; [now apply pow256_pos; lia|].
  assert (Hlog : Z.log2 value < 8 * length).
  { pose proof (Z.div_mod (Z.log2 value) 4 ltac:(lia)).
    pose proof (Z.mod_pos_bound (Z.log2 value) 4 ltac:(lia)). lia. }
  pose proof (Z.log2_spec value ltac:(lia)) as [_ Hup].
  eapply Z.lt_le_trans; [exact Hup|].
  rewrite pow256 by lia. apply Z.pow_le_mono_r; lia.
Qed.

Lemma paddedHex_fits (value length : Z) :
  1 <= length -> 0 <= value < 256 ^ length ->
  paddedHex value length = Ok (bigEndian (Z.to_nat length) value).
Proof.
  intros Hl Hv. unfold paddedHex.
  pose proof (hexLength_fits value length Hl Hv).
  destruct (Z.ltb_spec (length * 2) (hexLength value)); [lia|reflexivity].
Qed.

Lemma UINT_RANGES_spec (length range : Z) :
  UINT_RANGES length = Some range ->
  1 <= length /\ 256 ^ length - 1 <= range.
Proof.
  unfold UINT_RANGES.
  destruct length as [|p|p]; try discriminate.
  destruct p as [p|p|]; try discriminate;
    try (destruct p as [p|p|]; try discriminate;
         try (destruct p as [p|p|]; try discriminate;
              try (destruct p as [p|p|]; try discriminate)));
    intros [= <-]; split; try lia; vm_compute; discriminate.
Qed.

(** The unsigned writer on a JavaScript number is the writer of the
    codec. *)
Lemma writeUInt_number (z length : Z) (w : Writer) :
  OerWriter.writeUInt (inl (Number z)) length w = Oer.writeUInt z length w.
Proof.
  unfold OerWriter.writeUInt, Oer.writeUInt, paddedHex. cbn [isNumber valueOf andb].
  repeat (destruct (_ <? _) || destruct (_ <=? _) || destruct (UINT_RANGES _));
    cbn; reflexivity.
Qed.

Lemma writeUInt_value_ok (_value : Value) (length : Z) (w w' : Writer) :
  OerWriter.writeUInt (inl _value) length w = Ok w' ->
  w' = write (bigEndian (Z.to_nat length) (valueOf _value)) w /\
  0 <= valueOf _value < 256 ^ length /\ 1 <= length /\
  (isNumber _value = true -> valueOf _value <= MAX_SAFE_INTEGER).
Proof.
  unfold OerWriter.writeUInt.
  destruct (isNumber _value && (MAX_SAFE_INTEGER <? valueOf _value)) eqn:Hsafe;
    [discriminate|].
  cbv zeta. set (value := valueOf _value) in *.
  destruct (Z.ltb_spec value 0); [discriminate|].
  destruct (Z.leb_spec length 0); [discriminate|].
  destruct (match UINT_RANGES length with Some r => r <? value | None => false end)
    eqn:Hrange; [discriminate|].
  assert (Hs : isNumber _value = true -> value <= MAX_SAFE_INTEGER).
  { intros E. rewrite E in Hsafe. cbn in Hsafe. now apply Z.ltb_ge in Hsafe. }
  destruct ((value <? 0xffffffffffff) && (length <=? 6)) eqn:Hsmall.
  - intros [= <-]. repeat split; try lia; [|exact Hs].
    apply andb_true_iff in Hsmall as [_ Hlen]. apply Z.leb_le in Hlen.
    assert (Hc : length = 1 \/ length = 2 \/ length = 3 \/ length = 4 \/
                 length = 5 \/ length = 6) by lia.
    destruct Hc as [->|[->|[->|[->|[->| ->]]]]]; cbn in Hrange;
      apply Z.ltb_ge in Hrange; lia.
  - unfold paddedHex.
    destruct (Z.ltb_spec (length * 2) (hexLength value)) as [|Hhex];
      [discriminate|].
    cbn [andThen]. intros [= <-]. repeat split; try lia; [|exact Hs].
    apply hexLength_fits_inv; lia.
Qed.

Lemma writeUInt_value_fits (_value : Value) (length : Z) (w : Writer) :
  0 <= valueOf _value < 256 ^ length -> 1 <= length ->
  (isNumber _value = true -> valueOf _value <= MAX_SAFE_INTEGER) ->
  OerWriter.writeUInt (inl _value) length w =
    Ok (write (bigEndian (Z.to_nat length) (valueOf _value)) w).
Proof.
  intros [H0 Hlt] Hl Hs. unfold OerWriter.writeUInt.
  assert (isNumber _value && (MAX_SAFE_INTEGER <? valueOf _value) = false) as ->.
  { destruct (isNumber _value); [|reflexivity]. cbn. apply Z.ltb_ge. now apply Hs. }
  cbv zeta. set (value := valueOf _value) in *.
  destruct (Z.ltb_spec value 0); [lia|].
  destruct (Z.leb_spec length 0); [lia|].
  assert (match UINT_RANGES length with Some r => r <? value | None => false end
          = false) as ->.
  { destruct (UINT_RANGES length) as [r|] eqn:E; [|reflexivity].
    apply UINT_RANGES_spec in E as [_ E]. apply Z.ltb_ge. lia. }
  destruct ((value <? 0xffffffffffff) && (length <=? 6)); [reflexivity|].
  rewrite paddedHex_fits by lia. reflexivity.
Qed.

(** X1.  [writeUInt] accepts exactly the values that fit into [length] bytes
    (a JavaScript number must also be a safe integer), for every positive
    [length], with or without an entry in [UINT_RANGES]; what it appends
    are [length] bytes that hold the value, most significant byte first. *)
Theorem writeUInt_writes_what_fits (_value : Value) (length : Z) (w : Writer) :
  (isOk (OerWriter.writeUInt (inl _value) length w) = true <->
     1 <= length /\ 0 <= valueOf _value < 256 ^ length /\
     (isNumber _value = true -> valueOf _value <= MAX_SAFE_INTEGER)) /\
  (forall w', OerWriter.writeUInt (inl _value) length w = Ok w' ->
     exists bytes,
       w' = write bytes w /\
       Z.of_nat (List.length bytes) = length /\
       fromBigEndian bytes = valueOf _value).
Proof.
  split; [split|].
  - destruct (OerWriter.writeUInt (inl _value) length w) as [w'|e] eqn:E;
      [|discriminate].
    intros _. apply writeUInt_value_ok in E as (_ & Hv & Hl & Hs). auto.
  - intros (Hl & Hv & Hs). now rewrite writeUInt_value_fits.
  - intros w' E. apply writeUInt_value_ok in E as (-> & Hv & Hl & _).
    exists (bigEndian (Z.to_nat length) (valueOf _value)).
    split; [reflexivity|]. rewrite length_bigEndian. split; [lia|].
    apply fromBigEndian_bigEndian. now rewrite Z2Nat.id by lia.
Qed.

(** The halves of a 64-bit number given as an array are written as two
    [UInt32]: eight bytes that hold [high * 2^32 + low]. *)
Lemma writeUInt_pair (high low length : Z) (w w' : Writer) :
  OerWriter.writeUInt (inr (high, low)) length w = Ok w' ->
  exists bytes,
    w' = write (drop 4 bytes) (write (take 4 bytes) w) /\
    List.length bytes = 8%nat /\
    0 <= high < 2 ^ 32 /\ 0 <= low < 2 ^ 32 /\
    fromBigEndian bytes = high * 2 ^ 32 + low.
Proof.
  cbn [OerWriter.writeUInt]. unfold writeUInt32.
  destruct (Oer.writeUInt high 4 w) as [w1|e] eqn:E1; [|discriminate].
  cbn [andThen]. intros E2.
  apply writeUInt_ok in E1 as (-> & [H0 _] & _ & Hh).
  apply writeUInt_ok in E2 as (-> & [L0 _] & _ & Hl).
  exists (bigEndian 4 high ++ bigEndian 4 low).
  rewrite take_app_length' by (symmetry; apply length_bigEndian).
  rewrite drop_app_length' by (symmetry; apply length_bigEndian).
  split; [reflexivity|]. rewrite length_app, !length_bigEndian.
  split; [reflexivity|]. change (256 ^ 4) with (2 ^ 32) in *.
  repeat split; try lia.
  unfold fromBigEndian. rewrite fold_left_app.
  rewrite (fold_bigEndian 4 high 0), (fold_bigEndian 4 low).
  change (256 ^ Z.of_nat 4) with (2 ^ 32).
  rewrite !Z.mod_small by lia. lia.
Qed.

Lemma INT_RANGES_spec (length lowest highest : Z) :
  INT_RANGES length = Some (lowest, highest) ->
  1 <= length /\ - 256 ^ length <= 2 * lowest /\ 2 * highest < 256 ^ length.
Proof.
  unfold INT_RANGES.
  destruct length as [|p|p]; try discriminate.
  destruct p as [p|p|]; try discriminate;
    try (destruct p as [p|p|]; try discriminate;
         try (destruct p as [p|p|]; try discriminate;
              try (destruct p as [p|p|]; try discriminate)));
    intros [= <- <-]; repeat split; try lia; vm_compute; congruence.
Qed.

(** Two's complement: the bytes written for [value] read back as [value]
    when they are taken as a signed number. *)
Lemma signedValue_bigEndian (n : nat) (value : Z) :
  - 256 ^ Z.of_nat n <= 2 * value < 256 ^ Z.of_nat n ->
  signedValue
    (bigEndian n (if value <? 0 then 256 ^ Z.of_nat n + value else value))
  = value.
Proof.
  intros H. unfold signedValue. rewrite length_bigEndian.
  assert (0 < 256 ^ Z.of_nat n) by (apply pow256_pos; lia).
  destruct (Z.ltb_spec value 0).
  - rewrite fromBigEndian_bigEndian by lia.
    destruct (Z.ltb_spec (2 * (256 ^ Z.of_nat n + value)) (256 ^ Z.of_nat n)); lia.
  - rewrite fromBigEndian_bigEndian by lia.
    destruct (Z.ltb_spec (2 * value) (256 ^ Z.of_nat n)); lia.
Qed.

Lemma writeInt_ok (_value : Value) (length : Z) (w w' : Writer) :
  writeInt _value length w = Ok w' ->
  exists lowest highest,
    INT_RANGES length = Some (lowest, highest) /\
    lowest <= valueOf _value <= highest /\
    (isNumber _value = true ->
     MIN_SAFE_INTEGER <= valueOf _value <= MAX_SAFE_INTEGER) /\
    w' = write (bigEndian (Z.to_nat length)
                  (if valueOf _value <? 0 then 256 ^ length + valueOf _value
                   else valueOf _value)) w.
Proof.
  unfold writeInt.
  destruct (Z.leb_spec length 0); [discriminate|].
  destruct (isNumber _value && (MAX_SAFE_INTEGER <? valueOf _value)) eqn:Hhi;
    [discriminate|].
  destruct (isNumber _value && (valueOf _value <? MIN_SAFE_INTEGER)) eqn:Hlo;
    [discriminate|].
  cbv zeta. destruct (INT_RANGES length) as [[lowest highest]|] eqn:E;
    [|discriminate].
  destruct (Z.ltb_spec (valueOf _value) lowest); [discriminate|].
  destruct (Z.ltb_spec highest (valueOf _value)); [discriminate|].
  unfold paddedHex. destruct (_ <? hexLength _); [discriminate|].
  cbn [andThen]. intros [= <-]. exists lowest, highest.
  split; [reflexivity|]. split; [lia|]. split; [|reflexivity].
  intros N. rewrite N in Hhi, Hlo. cbn in Hhi, Hlo.
  apply Z.ltb_ge in Hhi, Hlo. lia.
Qed.

Lemma writeInt_fits (_value : Value) (length lowest highest : Z) (w : Writer) :
  INT_RANGES length = Some (lowest, highest) ->
  lowest <= valueOf _value <= highest ->
  (isNumber _value = true ->
   MIN_SAFE_INTEGER <= valueOf _value <= MAX_SAFE_INTEGER) ->
  isOk (writeInt _value length w) = true.
Proof.
  intros E Hv Hs. pose proof (INT_RANGES_spec _ _ _ E) as (Hl & Hlow & Hhigh).
  unfold writeInt.
  destruct (Z.leb_spec length 0); [lia|].
  assert (isNumber _value && (MAX_SAFE_INTEGER <? valueOf _value) = false) as ->.
  { destruct (isNumber _value); [|reflexivity]. cbn. apply Z.ltb_ge.
    now apply Hs. }
  assert (isNumber _value && (valueOf _value <? MIN_SAFE_INTEGER) = false) as ->.
  { destruct (isNumber _value); [|reflexivity]. cbn. apply Z.ltb_ge.
    now apply Hs. }
  cbv zeta. rewrite E.
  destruct (Z.ltb_spec (valueOf _value) lowest); [lia|].
  destruct (Z.ltb_spec highest (valueOf _value)); [lia|].
  rewrite paddedHex_fits; [reflexivity|lia|].
  pose proof (pow256_pos length ltac:(lia)).
  destruct (Z.ltb_spec (valueOf _value) 0); lia.
Qed.

(** X2.  [writeInt] accepts exactly the values between the two entries that
    [INT_RANGES] has for [length] (a JavaScript number must also be a safe
    integer) and throws for a length without an entry; what it appends are
    [length] bytes that hold the value in two's complement. *)
Theorem writeInt_twos_complement (_value : Value) (length : Z) (w : Writer) :
  (isOk (writeInt _value length w) = true <->
     exists lowest highest,
       INT_RANGES length = Some (lowest, highest) /\
       lowest <= valueOf _value <= highest /\
       (isNumber _value = true ->
        MIN_SAFE_INTEGER <= valueOf _value <= MAX_SAFE_INTEGER)) /\
  (forall w', writeInt _value length w = Ok w' ->
     exists bytes,
       w' = write bytes w /\
       Z.of_nat (List.length bytes) = length /\
       signedValue bytes = valueOf _value).
Proof.
  split; [split|].
  - destruct (writeInt _value length w) as [w'|e] eqn:E; [|discriminate].
    intros _. apply writeInt_ok in E as (lowest & highest & E & Hv & Hs & _).
    eauto.
  - intros (lowest & highest & E & Hv & Hs). eapply writeInt_fits; eauto.
  - intros w' E. apply writeInt_ok in E as (lowest & highest & E & Hv & _ & ->).
    apply INT_RANGES_spec in E as (Hl & Hlow & Hhigh).
    eexists. split; [reflexivity|]. rewrite length_bigEndian.
    split; [lia|].
    rewrite <- (Z2Nat.id length) at 2 by lia.
    apply signedValue_bigEndian. rewrite Z2Nat.id by lia. lia.
Qed.

(** X3.  The 64-bit writers on a BigNumber: [writeUInt64] takes every value
    below [2^64], but the entry of [INT_RANGES] for eight bytes has
    fourteen hexadecimal digits, so [writeInt64] takes only the values
    from [-2^55] to [2^55 - 1]. *)
Theorem writeInt64_range (value : Z) (w : Writer) :
  (isOk (OerWriter.writeUInt64 (inl (Big value)) w) = true <->
     0 <= value < 2 ^ 64) /\
  (isOk (writeInt64 (Big value) w) = true <->
     - 2 ^ 55 <= value <= 2 ^ 55 - 1).
Proof.
  split; split.
  - unfold OerWriter.writeUInt64.
    destruct (OerWriter.writeUInt _ 8 w) as [w'|e] eqn:E; [|discriminate].
    intros _. apply writeUInt_value_ok in E as (_ & H & _). exact H.
  - intros H. unfold OerWriter.writeUInt64.
    rewrite writeUInt_value_fits; [reflexivity|exact H|lia|discriminate].
  - unfold writeInt64.
    destruct (writeInt _ 8 w) as [w'|e] eqn:E; [|discriminate].
    intros _. apply writeInt_ok in E as (lowest & highest & [= <- <-] & H & _).
    cbn [valueOf] in H. lia.
  - intros H. unfold writeInt64.
    apply (writeInt_fits (Big value) 8 (- 0x80000000000000) 0x7fffffffffffff);
      [reflexivity|cbn [valueOf]; lia|discriminate].
Qed.

Lemma writeUInt_fits (value length : Z) (w : Writer) :
  1 <= length -> 0 <= value < 256 ^ length -> value <= MAX_SAFE_INTEGER ->
  Oer.writeUInt value length w =
    Ok (write (bigEndian (Z.to_nat length) value) w).
Proof.
  intros Hl Hv Hs. rewrite <- writeUInt_number.
  now rewrite writeUInt_value_fits.
Qed.

Lemma bigEndian_one (value : Z) : 0 <= value < 256 -> bigEndian 1 value = [value].
Proof.
  intros H. cbn [bigEndian]. change (256 ^ Z.of_nat 0) with 1.
  rewrite Z.div_1_r. now rewrite Z.mod_small by lia.
Qed.

(** The number of bytes that hold [value] without a leading zero byte. *)
Lemma byteLength_spec (value : Z) :
  0 <= value ->
  let n := ceilDiv8 (binaryLength value) in
  1 <= n /\ value < 256 ^ n /\ (1 < n -> 256 ^ (n - 1) <= value).
Proof.
  intros H0 n. pose proof (binaryLength_pos value) as Hb.
  pose proof (ceilDiv8_spec (binaryLength value)) as [Hlo Hhi]. fold n in Hlo, Hhi.
  assert (Hn : 1 <= n) by lia. split; [exact Hn|]. split.
  - rewrite pow256 by lia.
    eapply Z.lt_le_trans; [apply binaryLength_upper; lia|].
    apply Z.pow_le_mono_r; lia.
  - intros H1. rewrite pow256 by lia.
    assert (0 < value).
    { destruct (Z.eq_dec value 0) as [->|]; [|lia].
      change (binaryLength 0) with 1 in Hlo. lia. }
    eapply Z.le_trans; [|apply binaryLength_lower; lia].
    apply Z.pow_le_mono_r; lia.
Qed.

Lemma byteLength_safe (value : Z) :
  0 <= value <= MAX_SAFE_INTEGER -> ceilDiv8 (binaryLength value) <= 7.
Proof.
  intros H. assert (binaryLength value <= 53).
  { unfold binaryLength. destruct (Z.eqb_spec value 0); [lia|].
    assert (Z.log2 value < 53); [|lia].
    apply Z.log2_lt_pow2; [lia|]. unfold MAX_SAFE_INTEGER in H. lia. }
  pose proof (ceilDiv8_spec (binaryLength value)). lia.
Qed.

Lemma lor_128 (n : Z) : 1 <= n <= 7 -> Z.lor 128 n = 128 + n.
Proof.
  intros H.
  assert (Hc : n = 1 \/ n = 2 \/ n = 3 \/ n = 4 \/ n = 5 \/ n = 6 \/ n = 7)
    by lia.
  destruct Hc as [->|[->|[->|[->|[->|[->| ->]]]]]]; reflexivity.
Qed.

(** What [writeVarOctetString] does for a buffer. *)
Lemma writeVarOctetString_fits (buffer : list Z) (w : Writer) :
  let len := Z.of_nat (List.length buffer) in
  len <= MAX_SAFE_INTEGER ->
  writeVarOctetString buffer w =
    Ok (write buffer
          (if len <=? 127 then write [len] w
           else
             let n := ceilDiv8 (binaryLength len) in
             write (bigEndian (Z.to_nat n) len) (write [128 + n] w))).
Proof.
  intros len Hs. unfold writeVarOctetString. cbv zeta. fold len.
  destruct (Z.leb_spec len 127) as [Hle|Hgt].
  - unfold writeUInt8. rewrite writeUInt_fits by (change (256 ^ 1) with 256; lia).
    cbn [andThen]. change (Z.to_nat 1) with 1%nat.
    now rewrite bigEndian_one by lia.
  - change ((binaryLength len + 7) / 8) with (ceilDiv8 (binaryLength len)).
    pose proof (byteLength_spec len ltac:(lia)) as (Hn & Hfit & _).
    pose proof (byteLength_safe len ltac:(lia)) as Hn7.
    set (n := ceilDiv8 (binaryLength len)) in *.
    rewrite lor_128 by lia. unfold writeUInt8.
    rewrite writeUInt_fits
      by (change (256 ^ 1) with 256; unfold MAX_SAFE_INTEGER; lia).
    cbn [andThen]. change (Z.to_nat 1) with 1%nat.
    rewrite bigEndian_one by lia.
    rewrite writeUInt_fits by lia. reflexivity.
Qed.

Lemma writeVarOctetString_safe (buffer : list Z) (w w' : Writer) :
  writeVarOctetString buffer w = Ok w' ->
  Z.of_nat (List.length buffer) <= MAX_SAFE_INTEGER.
Proof.
  unfold writeVarOctetString. cbv zeta.
  destruct (Z.leb_spec (Z.of_nat (List.length buffer)) 127) as [Hle|Hgt].
  - intros _. unfold MAX_SAFE_INTEGER. lia.
  - destruct (writeUInt8 _ w) as [w1|e]; [|discriminate]. cbn [andThen].
    destruct (Oer.writeUInt _ _ w1) as [w2|e] eqn:E; [|discriminate].
    intros _. now apply writeUInt_ok in E as (_ & [_ H] & _).
Qed.

(** X4.  The length prefix.  [writeVarOctetString] throws for no buffer: up to
    127 bytes the prefix is the length itself; above, it is [0x80 | n]
    followed by the length in [n] bytes, the fewest that hold it. *)
Theorem writeVarOctetString_prefix (buffer : list Z) (w : Writer) :
  let len := Z.of_nat (List.length buffer) in
  len <= MAX_SAFE_INTEGER ->
  exists w' prefix,
    writeVarOctetString buffer w = Ok w' /\
    getBuffer w' = getBuffer w ++ prefix ++ buffer /\
    (len <= 127 -> prefix = [len]) /\
    (127 < len ->
     exists n, 1 <= n <= 7 /\
       prefix = (128 + n) :: bigEndian (Z.to_nat n) len /\
       256 ^ (n - 1) <= len < 256 ^ n /\
       fromBigEndian (bigEndian (Z.to_nat n) len) = len).
Proof.
  intros len Hs. rewrite writeVarOctetString_fits by exact Hs. fold len.
  destruct (Z.leb_spec len 127) as [Hle|Hgt].
  - exists (write buffer (write [len] w)), [len].
    split; [reflexivity|]. rewrite !getBuffer_write, <- app_assoc.
    split; [reflexivity|]. split; [reflexivity|lia].
  - cbv zeta. set (n := ceilDiv8 (binaryLength len)).
    pose proof (byteLength_spec len ltac:(lia)) as (Hn & Hfit & Hmin).
    pose proof (byteLength_safe len ltac:(lia)) as Hn7. fold n in Hn, Hfit, Hmin, Hn7.
    eexists _, ((128 + n) :: bigEndian (Z.to_nat n) len).
    split; [reflexivity|]. rewrite !getBuffer_write, <- !app_assoc.
    split; [reflexivity|]. split; [lia|]. intros _. exists n.
    split; [lia|]. split; [reflexivity|]. split.
    + split; [|exact Hfit].
      destruct (Z.eq_dec n 1) as [->|]; [change (256 ^ (1 - 1)) with 1; lia|].
      apply Hmin. lia.
    + apply fromBigEndian_bigEndian. rewrite Z2Nat.id by lia. lia.
Qed.

Lemma writeVarOctetString_prefix_witness :
  exists w' prefix,
    writeVarOctetString (replicate 300 7) newWriter = Ok w' /\
    getBuffer w' = prefix ++ replicate 300 7 /\
    prefix = [130; 1; 44].
Proof.
  destruct (writeVarOctetString_prefix (replicate 300 7) newWriter)
    as (w' & prefix & E & Hbuf & _ & Hlong).
  { vm_compute. discriminate. }
  exists w', prefix. split; [exact E|]. split; [exact Hbuf|].
  destruct Hlong as (n & Hn & -> & Hfit & _); [vm_compute; reflexivity|].
  assert (n = 2) as ->.
  { rewrite length_replicate in Hfit. destruct Hfit as [Hlo Hhi].
    assert (Hc : n = 1 \/ n = 2 \/ n = 3 \/ n = 4 \/ n = 5 \/ n = 6 \/ n = 7)
      by lia.
    destruct Hc as [->|[->|[->|[->|[->|[->| ->]]]]]]; vm_compute in Hlo, Hhi;
      try reflexivity; congruence. }
  vm_compute. reflexivity.
Defined.

Lemma writeVarUInt_bytes (_value : Value) (w : Writer) :
  0 <= valueOf _value ->
  (isNumber _value = true -> valueOf _value <= MAX_SAFE_INTEGER) ->
  let n := ceilDiv8 (binaryLength (valueOf _value)) in
  let bytes := bigEndian (Z.to_nat n) (valueOf _value) in
  writeVarUInt (inl _value) w = writeVarOctetString bytes w /\
  Z.of_nat (List.length bytes) = n /\
  fromBigEndian bytes = valueOf _value /\
  1 <= n /\ (1 < n -> 256 ^ (n - 1) <= valueOf _value).
Proof.
  intros H0 Hs n bytes.
  pose proof (byteLength_spec (valueOf _value) H0) as (Hn & Hfit & Hmin).
  fold n in Hn, Hfit, Hmin. split.
  - cbn [writeVarUInt].
    assert (isNumber _value && (MAX_SAFE_INTEGER <? valueOf _value) = false) as ->.
    { destruct (isNumber _value); [|reflexivity]. cbn. apply Z.ltb_ge.
      now apply Hs. }
    cbv zeta. destruct (Z.ltb_spec (valueOf _value) 0); [lia|].
    fold n. rewrite paddedHex_fits by lia. reflexivity.
  - subst bytes. rewrite length_bigEndian. split; [lia|]. split.
    + apply fromBigEndian_bigEndian. rewrite Z2Nat.id by lia. lia.
    + split; [exact Hn|exact Hmin].
Qed.

(** X5.  [writeVarUInt] writes a number as the octet string of its bytes, most
    significant first, and uses the fewest bytes that hold it (one byte
    for zero). *)
Theorem writeVarUInt_minimal (_value : Value) (w : Writer) :
  0 <= valueOf _value ->
  (isNumber _value = true -> valueOf _value <= MAX_SAFE_INTEGER) ->
  let n := ceilDiv8 (binaryLength (valueOf _value)) in
  let bytes := bigEndian (Z.to_nat n) (valueOf _value) in
  writeVarUInt (inl _value) w = writeVarOctetString bytes w /\
  Z.of_nat (List.length bytes) = n /\
  fromBigEndian bytes = valueOf _value /\
  1 <= n /\ (1 < n -> 256 ^ (n - 1) <= valueOf _value).
Proof. exact (writeVarUInt_bytes _value w). Qed.

Lemma writeVarUInt_minimal_witness :
  writeVarUInt (inl (Number 0x01020305)) newWriter =
    writeVarOctetString [1; 2; 3; 5] newWriter /\
  fromBigEndian [1; 2; 3; 5] = 0x01020305.
Proof.
  destruct (writeVarUInt_minimal (Number 0x01020305) newWriter)
    as (E & _ & Hvalue & _).
  - cbn. lia.
  - intros _. vm_compute. discriminate.
  - split; [exact E|exact Hvalue].
Defined.

(** [writeVarUInt] throws for a negative number and for a JavaScript
    number above the safe range. *)
Lemma writeVarUInt_rejects (_value : Value) (w : Writer) :
  valueOf _value < 0 \/
  (isNumber _value = true /\ MAX_SAFE_INTEGER < valueOf _value) ->
  isOk (writeVarUInt (inl _value) w) = false.
Proof.
  intros H. cbn [writeVarUInt].
  destruct (isNumber _value && (MAX_SAFE_INTEGER <? valueOf _value)) eqn:E;
    [reflexivity|].
  cbv zeta. destruct (Z.ltb_spec (valueOf _value) 0); [reflexivity|].
  destruct H as [H|[N H]]; [lia|]. rewrite N in E. cbn in E.
  apply Z.ltb_ge in E. lia.
Qed.

Lemma signedLength_spec (value : Z) :
  let n := signedLength value in
  1 <= n /\
  - 256 ^ n <= 2 * value < 256 ^ n /\
  (1 < n -> 256 ^ (n - 1) <= 2 * value \/ 2 * value <= 2 - 256 ^ (n - 1)).
Proof.
  intros n. unfold signedLength in n.
  set (d := if value <? 0 then 1 - value else value) in *.
  assert (Hd : 0 <= d) by (subst d; destruct (Z.ltb_spec value 0); lia).
  pose proof (binaryLength_pos d) as Hb.
  pose proof (ceilDiv8_spec (binaryLength d + 1)) as [Hlo Hhi].
  fold n in Hlo, Hhi. assert (Hn : 1 <= n) by lia.
  split; [exact Hn|].
  assert (Hup : 2 * d < 256 ^ n).
  { rewrite pow256 by lia.
    pose proof (binaryLength_upper d Hd) as Hu.
    assert (2 ^ (binaryLength d + 1) <= 2 ^ (8 * n))
      by (apply Z.pow_le_mono_r; lia).
    rewrite Z.pow_add_r in * by lia. change (2 ^ 1) with 2 in *. lia. }
  split.
  - pose proof (pow256_pos n ltac:(lia)).
    subst d. destruct (Z.ltb_spec value 0); lia.
  - intros H1.
    assert (Hdpos : 0 < d).
    { destruct (Z.eq_dec d 0) as [E|]; [|lia]. rewrite E in Hlo.
      change (binaryLength 0) with 1 in Hlo. lia. }
    assert (Hlow : 256 ^ (n - 1) <= 2 * d).
    { rewrite pow256 by lia.
      pose proof (binaryLength_lower d Hdpos) as Hl.
      assert (2 ^ (8 * (n - 1)) <= 2 ^ binaryLength d)
        by (apply Z.pow_le_mono_r; lia).
      replace (binaryLength d) with ((binaryLength d - 1) + 1) in H by lia.
      rewrite Z.pow_add_r in H by lia. change (2 ^ 1) with 2 in H. lia. }
    subst d. destruct (Z.ltb_spec value 0); [right|left]; lia.
Qed.

(** X6.  [writeVarInt] writes a number as the octet string of its two's
    complement, which reads back as the number.  The length is computed
    from [1 - value] for a negative value, so for [-h] and [1 - h], with
    [h] half a power of 256, it is one byte more than the value needs:
    -128 takes two bytes. *)
Theorem writeVarInt_twos_complement (_value : Value) (w : Writer) :
  (isNumber _value = true ->
   MIN_SAFE_INTEGER <= valueOf _value <= MAX_SAFE_INTEGER) ->
  let value := valueOf _value in
  let n := signedLength value in
  exists bytes,
    writeVarInt (inl _value) w = writeVarOctetString bytes w /\
    Z.of_nat (List.length bytes) = n /\
    signedValue bytes = value /\
    1 <= n /\
    (1 < n -> 256 ^ (n - 1) <= 2 * value \/ 2 * value <= 2 - 256 ^ (n - 1)).
Proof.
  intros Hs value n.
  pose proof (signedLength_spec value) as (Hn & Hfit & Hmin).
  fold n in Hn, Hfit, Hmin.
  exists (bigEndian (Z.to_nat n) (if value <? 0 then 256 ^ n + value else value)).
  split; [|split; [|split; [|split]]].
  - cbn [writeVarInt]. fold value.
    assert (isNumber _value && (MAX_SAFE_INTEGER <? value) = false) as ->.
    { destruct (isNumber _value); [|reflexivity]. cbn. apply Z.ltb_ge.
      now apply Hs. }
    assert (isNumber _value && (value <? MIN_SAFE_INTEGER) = false) as ->.
    { destruct (isNumber _value); [|reflexivity]. cbn. apply Z.ltb_ge.
      now apply Hs. }
    cbv zeta. change (ceilDiv8 _) with n.
    rewrite paddedHex_fits; [reflexivity|exact Hn|].
    pose proof (pow256_pos n ltac:(lia)).
    destruct (Z.ltb_spec value 0); lia.
  - rewrite length_bigEndian. lia.
  - rewrite <- (Z2Nat.id n) at 2 by lia.
    apply signedValue_bigEndian. rewrite Z2Nat.id by lia. lia.
  - exact Hn.
  - exact Hmin.
Qed.

Lemma writeVarInt_twos_complement_witness :
  exists bytes,
    writeVarInt (inl (Number (-128))) newWriter =
      writeVarOctetString bytes newWriter /\
    Z.of_nat (List.length bytes) = 2 /\
    signedValue bytes = -128.
Proof.
  destruct (writeVarInt_twos_complement (Number (-128)) newWriter)
    as (bytes & E & Hlen & Hvalue & _).
  - intros _. vm_compute. split; discriminate.
  - exists bytes. split; [exact E|]. split; [exact Hlen|exact Hvalue].
Defined.

End WriterFacts.

Section PredictorFacts.
Import Js Oer OerWriter Predictor.

Lemma written_write (buffer : list Z) (w : Writer) :
  Z.of_nat (length (getBuffer (Oer.write buffer w))) =
    Z.of_nat (length (getBuffer w)) + Z.of_nat (length buffer).
Proof. rewrite getBuffer_write, length_app. lia. Qed.

Lemma writeVarOctetString_size (buffer : list Z) (w w' : Writer) (p : Predictor) :
  Oer.writeVarOctetString buffer w = Ok w' ->
  size (Predictor.writeVarOctetString buffer p) =
    size p + (Z.of_nat (length (getBuffer w')) - Z.of_nat (length (getBuffer w))).
Proof.
  intros E. pose proof (writeVarOctetString_safe _ _ _ E) as Hs.
  rewrite writeVarOctetString_fits in E by exact Hs. injection E as <-.
  unfold Predictor.writeVarOctetString, skipVarOctetString, skip. cbn [size].
  set (len := Z.of_nat (length buffer)) in *.
  destruct (Z.leb_spec len 127) as [Hle|Hgt].
  - destruct (Z.ltb_spec 127 len); [lia|].
    rewrite !written_write. cbn [length size]. subst len. lia.
  - destruct (Z.ltb_spec 127 len); [|lia]. cbn [size].
    pose proof (byteLength_spec len ltac:(lia)) as (Hn & _).
    rewrite !written_write, length_bigEndian. cbn [length size]. subst len. lia.
Qed.

Lemma writeUInt_size (value : Value) (len : Z) (w w' : Writer) (p : Predictor) :
  OerWriter.writeUInt (inl value) len w = Ok w' ->
  size (Predictor.writeUInt (inl value) len p) =
    size p + (Z.of_nat (length (getBuffer w')) - Z.of_nat (length (getBuffer w))).
Proof.
  intros E. apply writeUInt_value_ok in E as (-> & _ & Hl & _).
  rewrite written_write, length_bigEndian. cbn [Predictor.writeUInt size]. lia.
Qed.

(** An array is written as two 32-bit numbers, whatever length is asked
    for. *)
Lemma writeUInt_pair_size (high low len : Z) (w w' : Writer) :
  OerWriter.writeUInt (inr (high, low)) len w = Ok w' ->
  Z.of_nat (length (getBuffer w')) = Z.of_nat (length (getBuffer w)) + 8.
Proof.
  intros E. apply (writeUInt_pair high low len) in E as (bytes & -> & Hlen & _).
  rewrite !written_write, length_take, length_drop, Hlen. lia.
Qed.

(** One call: when the writer accepts it, the predictor accepts it and
    counts the bytes that the writer appends. *)
Lemma call_agrees (c : Call) (w w' : Writer) (p : Predictor) :
  predictable c = true ->
  callWriter w c = Ok w' ->
  exists p',
    callPredictor p c = Ok p' /\
    size p' =
      size p + (Z.of_nat (length (getBuffer w')) - Z.of_nat (length (getBuffer w))).
Proof.
  intros Hc E. apply andb_true_iff in Hc as [Hbig Harr].
  apply negb_true_iff in Hbig, Harr.
  destruct c as [value len|value|value|value|value|value|buffer len|buffer|buffer];
    cbn [callWriter callPredictor] in *.
  - eexists; split; [reflexivity|]. destruct value as [value|[high low]].
    + now apply writeUInt_size.
    + cbn [shortArray] in Harr. apply negb_false_iff, Z.eqb_eq in Harr. subst len.
      rewrite (writeUInt_pair_size _ _ _ _ _ E).
      cbn [Predictor.writeUInt size]. lia.
  - eexists; split; [reflexivity|]. destruct value as [value|[high low]];
      [now apply writeUInt_size|discriminate].
  - eexists; split; [reflexivity|]. destruct value as [value|[high low]];
      [now apply writeUInt_size|discriminate].
  - eexists; split; [reflexivity|]. destruct value as [value|[high low]];
      [now apply writeUInt_size|discriminate].
  - eexists; split; [reflexivity|]. destruct value as [value|[high low]].
    + now apply writeUInt_size.
    + rewrite (writeUInt_pair_size high low 8 _ _ E).
      unfold Predictor.writeUInt64, Predictor.writeUInt. cbn [size].
      lia.
  - destruct value as [[z|z]|buffer]; [| discriminate |].
    + assert (Hz : 0 <= z <= MAX_SAFE_INTEGER).
      { destruct (Z.ltb_spec z 0) as [Hneg|];
          [|destruct (Z.ltb_spec MAX_SAFE_INTEGER z) as [Hbig'|]; [|lia]].
        - pose proof (writeVarUInt_rejects (Number z) w (or_introl Hneg)) as R.
          rewrite E in R. discriminate.
        - pose proof (writeVarUInt_rejects (Number z) w
                        (or_intror (conj eq_refl Hbig'))) as R.
          rewrite E in R. discriminate. }
      destruct (writeVarUInt_bytes (Number z) w) as (Ew & Hlen & _);
        [cbn; lia|cbn; lia|].
      rewrite Ew in E. cbn [valueOf] in *.
      cbn [Predictor.writeVarUInt].
      destruct (Z.ltb_spec z 0); [lia|]. eexists; split; [reflexivity|].
      rewrite <- (writeVarOctetString_size _ _ _ p E).
      unfold Predictor.writeVarOctetString. now rewrite Hlen.
    + eexists; split; [reflexivity|]. now apply writeVarOctetString_size.
  - unfold OerWriter.writeOctetString in E.
    destruct (Z.eqb_spec (Z.of_nat (length buffer)) len) as [<-|];
      [|discriminate].
    cbn [negb] in E. injection E as <-. eexists; split; [reflexivity|].
    rewrite written_write. cbn [Predictor.writeOctetString skip size]. lia.
  - eexists; split; [reflexivity|]. now apply writeVarOctetString_size.
  - injection E as <-. eexists; split; [reflexivity|].
    rewrite written_write. cbn [Predictor.write size]. lia.
Qed.

Lemma run_agrees (cs : list Call) (w w' : Writer) (p : Predictor) :
  forallb predictable cs = true ->
  runWriter w cs = Ok w' ->
  exists p',
    runPredictor p cs = Ok p' /\
    size p' =
      size p + (Z.of_nat (length (getBuffer w')) - Z.of_nat (length (getBuffer w))).
Proof.
  revert w p. induction cs as [|c cs IH]; intros w p Hall E.
  - injection E as <-. exists p. split; [reflexivity|lia].
  - cbn [forallb] in Hall. apply andb_true_iff in Hall as [Hc Hall].
    cbn [runWriter runPredictor] in *.
    destruct (callWriter w c) as [w1|e] eqn:E1; [|discriminate].
    cbn [andThen] in E.
    destruct (call_agrees c w w1 p Hc E1) as (p1 & -> & H1). cbn [andThen].
    destruct (IH w1 p1 Hall E) as (p' & -> & H2).
    exists p'. split; [reflexivity|lia].
Qed.

(** X7.  The predictor predicts the writer: when a sequence of calls succeeds on
    a new [Writer], the same calls succeed on a new [Predictor], and
    [getSize()] is the length of [getBuffer()].  The calls are those that
    hand [writeVarUInt] a number or a buffer, and that hand [writeUInt]
    an array only where eight bytes are asked for. *)
Theorem predictor_predicts_writer (cs : list Call) (w' : Writer) :
  forallb predictable cs = true ->
  runWriter newWriter cs = Ok w' ->
  exists p',
    runPredictor newPredictor cs = Ok p' /\
    getSize p' = Z.of_nat (length (getBuffer w')).
Proof.
  intros Hall E.
  destruct (run_agrees cs newWriter w' newPredictor Hall E) as (p' & Ep & H).
  exists p'. split; [exact Ep|]. unfold getSize. rewrite H. cbn. lia.
Qed.

Lemma predictor_predicts_writer_witness :
  exists p',
    runPredictor newPredictor
      [WriteUInt8 (inl (Number 10));
       WriteVarOctetString (replicate 300 7);
       WriteVarUInt (inl (Number 0x01020305));
       WriteUInt64 (inr (1, 2));
       WriteUInt (inr (3, 4)) 8;
       WriteOctetString [1; 2; 3] 3] = Ok p' /\
    getSize p' = 1 + (3 + 300) + 5 + 8 + 8 + 3.
Proof.
  destruct (predictor_predicts_writer
    [WriteUInt8 (inl (Number 10));
     WriteVarOctetString (replicate 300 7);
     WriteVarUInt (inl (Number 0x01020305));
     WriteUInt64 (inr (1, 2));
     WriteUInt (inr (3, 4)) 8;
     WriteOctetString [1; 2; 3] 3]
    (mkWriter [[10]; [130]; [1; 44]; replicate 300 7; [4]; [1; 2; 3; 5];
               [0; 0; 0; 1]; [0; 0; 0; 2]; [0; 0; 0; 3]; [0; 0; 0; 4];
               [1; 2; 3]]))
    as (p' & E & H).
  - reflexivity.
  - vm_compute. reflexivity.
  - exists p'. split; [exact E|]. rewrite H. vm_compute. reflexivity.
Defined.

(** X28.  An array handed to [Writer.writeUInt] is written as two 32-bit
    numbers, eight bytes, whatever length is asked for, while
    [Predictor.writeUInt] counts the length asked for: the two agree on an
    array only for a length of eight. *)
Theorem array_is_written_in_eight_bytes (high low length : Z)
    (w w' : Writer) (p : Predictor) :
  OerWriter.writeUInt (inr (high, low)) length w = Ok w' ->
  (exists bytes,
     getBuffer w' = getBuffer w ++ bytes /\
     List.length bytes = 8%nat /\
     fromBigEndian bytes = high * 2 ^ 32 + low) /\
  getSize (Predictor.writeUInt (inr (high, low)) length p) =
    getSize p + length.
Proof.
  intros E. split; [|reflexivity].
  apply (writeUInt_pair high low length) in E as (bytes & -> & Hlen & _ & _ & Hv).
  exists bytes. rewrite !getBuffer_write, <- app_assoc, take_drop. auto.
Qed.

Lemma array_is_written_in_eight_bytes_witness :
  exists w',
    OerWriter.writeUInt (inr (1, 2)) 4 newWriter = Ok w' /\
    getBuffer w' = [0; 0; 0; 1; 0; 0; 0; 2] /\
    getSize (Predictor.writeUInt (inr (1, 2)) 4 newPredictor) = 4.
Proof.
  exists (mkWriter [[0; 0; 0; 1]; [0; 0; 0; 2]]).
  split; [reflexivity|]. split; [reflexivity|].
  exact (proj2 (array_is_written_in_eight_bytes 1 2 4 newWriter
                  (mkWriter [[0; 0; 0; 1]; [0; 0; 0; 2]]) newPredictor
                  eq_refl)).
Defined.

(** X8.  The two classes disagree on a BigNumber: [Writer.writeVarUInt] writes
    every non-negative one, [Predictor.writeVarUInt] tests it with
    [Number.isInteger] and throws. *)
Theorem predictor_rejects_BigNumber (value : Z) (w : Writer) (p : Predictor) :
  0 <= value < 256 ^ 127 ->
  isOk (OerWriter.writeVarUInt (inl (Big value)) w) = true /\
  isOk (Predictor.writeVarUInt (inl (Big value)) p) = false.
Proof.
  intros [H0 Hlt]. split; [|reflexivity].
  destruct (writeVarUInt_bytes (Big value) w) as (-> & Hlen & _);
    [exact H0|discriminate|].
  rewrite writeVarOctetString_fits; [reflexivity|].
  rewrite Hlen. cbn [valueOf].
  pose proof (ceilDiv8_spec (binaryLength value)) as [Hlo _].
  assert (binaryLength value <= 8 * 127).
  { unfold binaryLength. destruct (Z.eqb_spec value 0); [lia|].
    assert (Z.log2 value < 8 * 127); [|lia].
    apply Z.log2_lt_pow2; [lia|]. now rewrite <- pow256 by lia. }
  unfold MAX_SAFE_INTEGER. lia.
Qed.

Lemma predictor_rejects_BigNumber_witness :
  isOk (OerWriter.writeVarUInt (inl (Big (2 ^ 64))) newWriter) = true /\
  isOk (Predictor.writeVarUInt (inl (Big (2 ^ 64))) newPredictor) = false.
Proof.
  apply (predictor_rejects_BigNumber (2 ^ 64) newWriter newPredictor).
  split; [lia|]. vm_compute. reflexivity.
Defined.

End PredictorFacts.

(** ** The liquidity request and the type byte of the envelope *)
Section IlqpFacts.
Import Js Oer IlpPacket Ilqp.

Lemma toAscii_fromAscii (s : string) : sevenBit s -> toAscii (fromAscii s) = s.
Proof.
  unfold sevenBit, toAscii, fromAscii. intros H.
  rewrite <- (string_of_list_ascii_of_string s) at 2. f_equal.
  induction H as [|c cs Hc _ IH]; [reflexivity|].
  cbn [map]. f_equal; [|exact IH].
  change 0x7f with (Z.ones 7). rewrite Z.land_ones by lia.
  rewrite Z.mod_small by (change (2 ^ 7) with 128; lia).
  rewrite N2Z.id. apply ascii_N_embedding.
Qed.

(** X9.  A liquidity request whose account is plain ASCII comes back from its
    serialization unchanged, and only a hold duration that fits into 32
    bits is serialized. *)
Theorem liquidity_request_roundtrip (json : IlqpLiquidityRequest)
    (binary : list Z) :
  sevenBit json.(destinationAccount) ->
  serializeIlqpLiquidityRequest json = Ok binary ->
  deserializeIlqpLiquidityRequest binary = Ok json /\
  binary !! 0%nat = Some 2 /\
  0 <= json.(destinationHoldDuration) < 2 ^ 32.
Proof.
  intros Hascii. unfold serializeIlqpLiquidityRequest. cbv zeta.
  destruct (writeVarOctetString _ newWriter) as [w1|e] eqn:E1; [|discriminate].
  cbn [andThen].
  destruct (writeUInt32 _ w1) as [w2|e] eqn:E2; [|discriminate]. cbn [andThen].
  destruct (writeUInt8 0 w2) as [w3|e] eqn:E3; [|discriminate]. cbn [andThen].
  intros E4. apply envelope_roundtrip in E4 as [Henv Hfirst].
  apply writeUInt8_ok in E3 as [-> _].
  apply writeUInt_ok in E2 as (-> & [H0 _] & _ & Hfit).
  apply writeVarOctetString_read in E1 as (prefix & Hbuf & Hread).
  change (256 ^ 4) with (2 ^ 32) in Hfit.
  split; [|split; [exact Hfirst|lia]].
  unfold deserializeIlqpLiquidityRequest. rewrite Henv. cbn [andThen].
  change (negb (TYPE_ILQP_LIQUIDITY_REQUEST =? TYPE_ILQP_LIQUIDITY_REQUEST))
    with false.
  cbv iota zeta. rewrite !getBuffer_write, Hbuf.
  cbn [getBuffer newWriter components concat app].
  rewrite <- !app_assoc, Hread. cbn [andThen].
  unfold readUInt32. change 4 with (Z.of_nat 4) at 1.
  change (Z.to_nat 4) with 4%nat.
  rewrite readUInt_bigEndian by (change (256 ^ Z.of_nat 4) with (2 ^ 32); lia).
  cbn [andThen]. rewrite toAscii_fromAscii by exact Hascii.
  now destruct json.
Qed.

Lemma liquidity_request_roundtrip_witness :
  deserializeIlqpLiquidityRequest
    [2; 14; 8; 103; 46; 117; 115; 46; 98; 111; 98; 0; 0; 19; 136; 0] =
    Ok {| destinationAccount := "g.us.bob"; destinationHoldDuration := 5000 |}.
Proof.
  apply (liquidity_request_roundtrip
           {| destinationAccount := "g.us.bob"; destinationHoldDuration := 5000 |}).
  - repeat constructor.
  - vm_compute. reflexivity.
Defined.

(** X10.  The type byte is checked: a deserializer handed the envelope of
    another packet type throws and returns nothing. *)
Theorem other_type_is_rejected (rt : Runtime) (type : Z)
    (contents binary : list Z) :
  serializeEnvelope type contents = Ok binary ->
  (type <> TYPE_ILP_FULFILLMENT ->
   deserializeIlpFulfillment rt binary =
     Throw (Error_ "Packet has incorrect type")) /\
  (type <> TYPE_ILP_FORWARDED_PAYMENT ->
   deserializeIlpForwardedPayment rt binary =
     Throw (Error_ "Packet has incorrect type")) /\
  (type <> TYPE_ILQP_LIQUIDITY_REQUEST ->
   deserializeIlqpLiquidityRequest binary =
     Throw (Error_ "Packet has incorrect type")).
Proof.
  intros E. apply envelope_roundtrip in E as [Henv _].
  unfold deserializeIlpFulfillment, deserializeIlpForwardedPayment,
    deserializeIlqpLiquidityRequest.
  rewrite Henv. cbn [andThen].
  repeat split; intros Hne; apply Z.eqb_neq in Hne; now rewrite Hne.
Qed.

Lemma other_type_is_rejected_witness :
  deserializeIlpFulfillment emptyRuntime
    [2; 14; 8; 103; 46; 117; 115; 46; 98; 111; 98; 0; 0; 19; 136; 0] =
    Throw (Error_ "Packet has incorrect type").
Proof.
  apply (other_type_is_rejected emptyRuntime 2
           [8; 103; 46; 117; 115; 46; 98; 111; 98; 0; 0; 19; 136; 0]).
  - vm_compute. reflexivity.
  - discriminate.
Defined.

End IlqpFacts.
(** ** The store wrapper: durability and reloading *)
Section StoreWrapperTraceFacts.
Import Js StoreWrapper StoreWrapperTraces.

Lemma queued_other (key : string) (inputs : list Action) :
  Forall (fun i => queuesWrite key i = false) inputs ->
  Forall (fun op => writeKey op <> key) (flat_map queued inputs).
Proof.
  induction 1 as [|i inputs Hi _ IH]; [constructor|].
  cbn. apply Forall_app. split; [|exact IH].
  destruct i; cbn in *; try constructor; try constructor;
    now apply bool_decide_eq_false in Hi.
Qed.

(** Over a store that resolves every call, the store holds after the
    chain has run what the writes of all the calls leave. *)
Lemma drained_store (store : gmap string string) (inputs : list Action)
    (key : string) :
  MemoryStore_get key (drained (performAll (newWrapper store) inputs)).(_store) =
    held key (flat_map queued inputs) (MemoryStore_get key store).
Proof.
  set (w := performAll (newWrapper store) inputs).
  assert (Hr : w.(rejected) = false) by apply performAll_rejected.
  destruct (reactAll_ordered store (map Does inputs) [] 0 (newWrapper store)
              (newWrapper_ordered store)) as (n & _ & Hs & Hq).
  rewrite <- performAll_reactAll, issues_Does in Hs, Hq. fold w in Hs, Hq.
  cbn [app] in Hs, Hq. rewrite Hr in Hq. destruct Hq as [_ Hq].
  rewrite drained_held, Hs, Hq, <- held_app. now rewrite take_drop.
Qed.

(** X11.  Durability.  Once the chain of writes has run, the store holds for a
    key what the last [set] of the key gave it, and nothing after the last
    [delete], whatever loads, unloads and writes of other keys came in
    between. *)
Theorem last_write_reaches_store (store : gmap string string)
    (before after : list Action) (key : string) (value : Value) :
  Forall (fun i => queuesWrite key i = false) after ->
  MemoryStore_get key
    (drained (performAll (newWrapper store)
                (before ++ CallSet key value :: after))).(_store)
    = Some (valueStr value) /\
  MemoryStore_get key
    (drained (performAll (newWrapper store)
                (before ++ CallDelete key :: after))).(_store)
    = None.
Proof.
  intros Hafter. apply queued_other in Hafter.
  split; rewrite drained_store, flat_map_app; cbn [flat_map queued];
    rewrite !held_app, (held_other _ _ _ Hafter), held_one; cbn [writeKey];
    now rewrite bool_decide_eq_true_2.
Qed.

Lemma last_write_reaches_store_witness :
  MemoryStore_get "a"
    (drained (performAll (newWrapper {[ "a"%string := "old"%string ]})
                ([CallLoad "a" false; CallSet "a" (Str "first")] ++
                 CallSet "a" (Obj "{}") ::
                 [LoadResumes 0 None; CallSet "b" (Str "other"); WriteRuns;
                  CallUnload "a"]))).(_store)
    = Some "{}"%string.
Proof.
  refine (proj1 (last_write_reaches_store {[ "a"%string := "old"%string ]}
                   [CallLoad "a" false; CallSet "a" (Str "first")]
                   [LoadResumes 0 None; CallSet "b" (Str "other"); WriteRuns;
                    CallUnload "a"] "a" (Obj "{}") _)).
  repeat constructor.
Defined.

Lemma load_pending (w : Wrapper) (key : string) (parse : bool) :
  w.(_cache) !! key = None ->
  _load key parse w =
    mkWrapper w.(_store) w.(_cache) w.(_write)
      (w.(loads) ++ [mkLoad key parse (MemoryStore_get key w.(_store))])
      w.(rejected).
Proof.
  intros H. unfold _load. rewrite H.
  rewrite bool_decide_eq_false_2; [reflexivity|]. now intros [x Hx].
Qed.

(** A load and the wake-up of the same load, with nothing in between. *)
Lemma load_and_resume (w : Wrapper) (key : string) (parse : bool)
    (parsed : option Cached) :
  w.(_cache) !! key = None ->
  (performAll w [CallLoad key parse; LoadResumes (length w.(loads)) parsed]).(_cache)
  = if parse && truthyString (MemoryStore_get key w.(_store)) then
      match parsed with
      | Some value => <[key := Some value]> w.(_cache)
      | None => w.(_cache)
      end
    else <[key := asCacheValue (MemoryStore_get key w.(_store))]> w.(_cache).
Proof.
  intros H. cbn [performAll fold_left perform].
  rewrite load_pending by exact H. cbn [loads].
  rewrite list_lookup_middle by reflexivity.
  unfold _load_resume. cbn [_cache load_key load_parse load_value].
  rewrite H. rewrite bool_decide_eq_false_2 by (now intros [x Hx]).
  cbn [negb]. destruct (parse && truthyString _); [|reflexivity].
  now destruct parsed.
Qed.

(** X12.  Loading and reading.  After [loadString] a key reads as the store has
    it.  After [loadObject] the cache holds what [JSON.parse] made of the
    stored text: [getObject] returns it when it is an object or [null]
    and throws when it is a string, a number or a boolean; it returns
    [undefined] when the store has nothing or [JSON.parse] throws; an
    empty text is cached as the string it is, and [getObject] throws for
    it. *)
Theorem load_then_get (w : Wrapper) (key : string) (parsed : option Cached) :
  w.(_cache) !! key = None ->
  let n := length w.(loads) in
  getString key (performAll w [CallLoad key false; LoadResumes n parsed]) =
    Ok (MemoryStore_get key w.(_store)) /\
  getObject key (performAll w [CallLoad key true; LoadResumes n parsed]) =
    match MemoryStore_get key w.(_store) with
    | None => Ok None
    | Some text =>
        if bool_decide (text = ""%string) then
          Throw (Error_ "StoreWrapper#getObject: unexpected type for key")
        else
          match parsed with
          | None => Ok None
          | Some (Given (Obj json)) => Ok (Some (Given (Obj json)))
          | Some Null => Ok (Some Null)
          | Some (Given (Str _)) | Some (NumberOrBoolean _) =>
              Throw (Error_ "StoreWrapper#getObject: unexpected type for key")
          end
    end.
Proof.
  intros H n. subst n. split.
  - unfold getString. rewrite (load_and_resume w key false parsed H).
    cbn [andb]. rewrite lookup_insert_eq.
    now destruct (MemoryStore_get key (_store w)).
  - unfold getObject. rewrite (load_and_resume w key true parsed H).
    cbn [andb]. destruct (MemoryStore_get key (_store w)) as [text|];
      cbn [truthyString asCacheValue].
    + destruct (bool_decide (text = ""%string)); cbn [negb].
      * now rewrite lookup_insert_eq.
      * destruct parsed as [[[s|json]| |json]|];
          [rewrite lookup_insert_eq; reflexivity..|now rewrite H].
    + now rewrite lookup_insert_eq.
Qed.

Lemma load_then_get_witness :
  getObject "account"
    (performAll (newWrapper {[ "account"%string := "5"%string ]})
       [CallLoad "account" true;
        LoadResumes 0 (Some (NumberOrBoolean "5"))]) =
    Throw (Error_ "StoreWrapper#getObject: unexpected type for key").
Proof.
  exact (proj2 (load_then_get (newWrapper {[ "account"%string := "5"%string ]})
                  "account" (Some (NumberOrBoolean "5")) eq_refl)).
Defined.

(** X13.  Unloading a key whose write is still queued.  A [set], an [unload] and
    a new load of the key in the same turn leave the cache with what the
    store had before the [set]; when the queued write has run, the store
    holds the new value and the cache still answers with the old one. *)
Theorem reload_before_write_is_stale (store : gmap string string)
    (key value : string) (parsed : option Cached) :
  let w := performAll (newWrapper store)
             [CallSet key (Str value); CallUnload key;
              CallLoad key false; LoadResumes 0 parsed] in
  w.(_write) = [Put key value] /\
  getString key w = Ok (MemoryStore_get key store) /\
  getString key (drained w) = Ok (MemoryStore_get key store) /\
  MemoryStore_get key (drained w).(_store) = Some value.
Proof.
  assert (E1 : perform (newWrapper store) (CallSet key (Str value)) =
               mkWrapper store (<[key := Some (Given (Str value))]> ∅)
                         [Put key value] [] false)
    by reflexivity.
  assert (E2 : perform (mkWrapper store (<[key := Some (Given (Str value))]> ∅)
                          [Put key value] [] false)
                       (CallUnload key) =
               mkWrapper store ∅ [Put key value] [] false).
  { cbn [perform]. unfold unload. cbn [_cache]. rewrite lookup_insert_eq.
    rewrite bool_decide_eq_true_2 by eauto. unfold withCache. cbn.
    now rewrite delete_insert_eq, delete_empty. }
  assert (E3 : perform (mkWrapper store ∅ [Put key value] [] false)
                       (CallLoad key false) =
               mkWrapper store ∅ [Put key value]
                 [mkLoad key false (MemoryStore_get key store)] false).
  { cbn [perform]. now rewrite load_pending by apply lookup_empty. }
  assert (E4 : perform (mkWrapper store ∅ [Put key value]
                          [mkLoad key false (MemoryStore_get key store)] false)
                       (LoadResumes 0 parsed) =
               mkWrapper store
                 (<[key := asCacheValue (MemoryStore_get key store)]> ∅)
                 [Put key value] [] false).
  { cbn [perform loads].
    change ([mkLoad key false (MemoryStore_get key store)] !! 0%nat)
      with (Some (mkLoad key false (MemoryStore_get key store))).
    cbv iota zeta. unfold _load_resume.
    cbn [load_key load_parse load_value andb _cache].
    rewrite lookup_empty. rewrite bool_decide_eq_false_2 by (now intros [x Hx]).
    reflexivity. }
  cbn [performAll fold_left]. rewrite E1, E2, E3, E4. clear E1 E2 E3 E4.
  cbv zeta. split; [reflexivity|].
  assert (Hget : forall st wr ls r,
            getString key
              (mkWrapper st (<[key := asCacheValue (MemoryStore_get key store)]> ∅)
                         wr ls r) = Ok (MemoryStore_get key store)).
  { intros. unfold getString. cbn [_cache]. rewrite lookup_insert_eq.
    now destruct (MemoryStore_get key store). }
  split; [apply Hget|]. unfold drained. cbn.
  split; [apply Hget|]. unfold MemoryStore_get, MemoryStore_put.
  apply lookup_insert_eq.
Qed.

End StoreWrapperTraceFacts.

(** ** The route broadcaster: what a broadcast sends *)
Section BroadcastFacts.
Import RouteBroadcaster RouteBroadcasterTraces.

Lemma fold_broadcastToLedger (ledgers : list string) (b acc : Broadcaster)
    (routes : list Route) (unreachable : list string) (requestFullTable : bool) :
  acc.(broadcastCurves) = b.(broadcastCurves) ->
  acc.(holdDownTime) = b.(holdDownTime) ->
  acc.(peerEpochs) = b.(peerEpochs) ->
  fold_left
    (fun b adjacentLedger =>
       _broadcastToLedger adjacentLedger
         (filter (fun route : Route => route.(source_ledger) = adjacentLedger)
                 routes)
         unreachable requestFullTable b)
    ledgers acc =
  mkBroadcaster acc.(routingTables) acc.(broadcastCurves) acc.(holdDownTime)
    acc.(peers) acc.(peerEpochs) acc.(detectedDown)
    (acc.(sent) ++
     map (fun adjacentLedger =>
            {| ledger := adjacentLedger;
               new_routes :=
                 map (omit b.(broadcastCurves))
                   (filter (fun route : Route =>
                              epochOrMinusOne b adjacentLedger <
                              route.(added_during_epoch))
                      (filter (fun route : Route =>
                                 route.(source_ledger) = adjacentLedger) routes));
               hold_down_time := b.(holdDownTime);
               unreachable_through_me := unreachable;
               request_full_table := requestFullTable |})
         ledgers)
    (acc.(awaiting) ++ ledgers).
Proof.
  revert acc. induction ledgers as [|l ledgers IH]; intros acc Hc Hh He.
  - cbn. rewrite !app_nil_r. now destruct acc.
  - cbn [fold_left map]. rewrite IH by (cbn; assumption).
    unfold _broadcastToLedger, epochOrMinusOne. cbn. rewrite Hc, Hh, He.
    now rewrite <- !app_assoc.
Qed.

(** [broadcast] sends one request to every peer, in the order of
    [Object.keys(this.peers)]; every request carries the ledgers detected
    down since the last broadcast, and the set of those ledgers is empty
    afterwards. *)
Lemma broadcast_spec (requestFullTable : bool) (b : Broadcaster) :
  broadcast requestFullTable b =
    mkBroadcaster b.(routingTables) b.(broadcastCurves) b.(holdDownTime)
      b.(peers) b.(peerEpochs) []
      (b.(sent) ++ map (requestFor b requestFullTable) b.(peers))
      (b.(awaiting) ++ b.(peers)).
Proof.
  unfold broadcast. cbv zeta.
  rewrite (fold_broadcastToLedger _ b) by reflexivity.
  reflexivity.
Qed.

Lemma sentSince_broadcast (requestFullTable : bool) (before b : Broadcaster) :
  b.(sent) = before.(sent) ->
  sentSince before (broadcast requestFullTable b) =
    map (requestFor b requestFullTable) b.(peers).
Proof.
  intros E. unfold sentSince. rewrite broadcast_spec. cbn [sent].
  rewrite <- E. apply drop_app_length.
Qed.

Lemma requestFor_wellFiltered (b : Broadcaster) (requestFullTable : bool)
    (adjacentLedger : string) :
  wellFiltered b.(broadcastCurves) (requestFor b requestFullTable adjacentLedger).
Proof.
  unfold wellFiltered, requestFor. cbn [new_routes ledger].
  apply Forall_forall. intros r Hr.
  apply list_elem_of_fmap in Hr as (route & -> & Hroute).
  apply list_elem_of_filter in Hroute as [_ Hroute].
  unfold ledgerRoutes in Hroute.
  apply list_elem_of_filter in Hroute as [Hsrc Hroute].
  apply list_elem_of_filter in Hroute as [Hpeer _].
  unfold omit. cbn. split; [exact Hsrc|]. split; [exact Hpeer|].
  destruct (broadcastCurves b); split; intros H; eauto; try discriminate.
  now destruct H.
Qed.

Lemma turn_broadcastCurves (b : Broadcaster) (i : Turn) :
  (turn b i).(broadcastCurves) = b.(broadcastCurves).
Proof.
  destruct i; cbn [turn]; try reflexivity.
  - now rewrite broadcast_spec.
  - destruct (bool_decide _); reflexivity.
  - destruct (bool_decide _); reflexivity.
  - unfold _addPeer. now destruct (bool_decide _).
Qed.

Lemma turn_wellFiltered (b : Broadcaster) (i : Turn) :
  Forall (wellFiltered b.(broadcastCurves)) b.(sent) ->
  Forall (wellFiltered b.(broadcastCurves)) (turn b i).(sent).
Proof.
  intros H. destruct i; cbn [turn]; try exact H.
  - rewrite broadcast_spec. cbn [sent]. apply Forall_app. split; [exact H|].
    apply Forall_forall. intros request Hin.
    apply list_elem_of_fmap in Hin as (l & -> & _).
    apply requestFor_wellFiltered.
  - destruct (bool_decide _); exact H.
  - destruct (bool_decide _); exact H.
  - unfold _addPeer. destruct (bool_decide _); exact H.
Qed.

(** X14.  Whatever happens to the broadcaster, a request to a ledger carries
    only routes that start at that ledger and do not lead to a ledger
    under [peer.], and the routes carry their curve exactly when
    [broadcastCurves] is set. *)
Theorem requests_carry_own_routes (tables : RoutingTables)
    (curves : bool) (holdDown : Z) (defaultPeers : list string)
    (inputs : list Turn) :
  Forall (wellFiltered curves)
    (turns (newBroadcaster tables curves holdDown defaultPeers) inputs).(sent).
Proof.
  set (b0 := newBroadcaster tables curves holdDown defaultPeers).
  assert (H0 : b0.(broadcastCurves) = curves /\
               Forall (wellFiltered curves) b0.(sent)) by (split; constructor).
  clearbody b0. revert b0 H0.
  induction inputs as [|i inputs IH]; intros b [Hc Hs]; [exact Hs|].
  cbn. apply IH. rewrite turn_broadcastCurves. split; [exact Hc|].
  rewrite <- Hc in *. now apply turn_wellFiltered.
Qed.

Lemma setAdd_elem (x y : string) (s : list string) :
  x ∈ setAdd y s <-> x ∈ s \/ x = y.
Proof.
  unfold setAdd. destruct (bool_decide (y ∈ s)) eqn:E.
  - apply bool_decide_eq_true in E. split; [auto|]. intros [H| ->]; assumption.
  - rewrite elem_of_app, list_elem_of_singleton. reflexivity.
Qed.

Lemma markLedgersUnreachable_elem (lost : list string) (b : Broadcaster)
    (x : string) :
  x ∈ (markLedgersUnreachable lost b).(detectedDown) <->
  x ∈ b.(detectedDown) \/ x ∈ lost.
Proof.
  unfold markLedgersUnreachable. cbn [detectedDown].
  generalize (detectedDown b) as s.
  induction lost as [|y lost IH]; intros s; cbn [fold_left].
  - split; [auto|]. intros [H|H]; [exact H|]. now apply not_elem_of_nil in H.
  - rewrite IH, setAdd_elem, elem_of_cons. tauto.
Qed.

(** The request that the next broadcast sends to one peer. *)
Lemma next_request (b : Broadcaster) (requestFullTable : bool)
    (adjacentLedger : string) (route : Route) :
  adjacentLedger ∈ b.(peers) ->
  route ∈ ledgerRoutes b adjacentLedger ->
  epochOrMinusOne b adjacentLedger < route.(added_during_epoch) ->
  requestFor b requestFullTable adjacentLedger ∈
    map (requestFor b requestFullTable) b.(peers) /\
  omit b.(broadcastCurves) route ∈
    (requestFor b requestFullTable adjacentLedger).(new_routes).
Proof.
  intros Hpeer Hroute Hepoch. split.
  - apply list_elem_of_fmap. eauto.
  - cbn [requestFor new_routes]. apply list_elem_of_fmap.
    exists route. split; [reflexivity|].
    apply list_elem_of_filter. split; assumption.
Qed.

(** X15.  After a request to a peer has failed, the next broadcast sends the
    peer every route of its ledger again, whatever had been acknowledged
    before, and tells it the ledgers that [invalidateConnector] reported
    lost. *)
Theorem failed_peer_is_sent_everything (b : Broadcaster)
    (adjacentLedger : string) (lostLedgerLinks : list string)
    (requestFullTable : bool) :
  adjacentLedger ∈ b.(awaiting) ->
  adjacentLedger ∈ b.(peers) ->
  let b' := turns b [Failed adjacentLedger lostLedgerLinks;
                     Broadcast requestFullTable] in
  exists request,
    request ∈ sentSince b b' /\
    request.(ledger) = adjacentLedger /\
    (forall route,
       route ∈ ledgerRoutes b adjacentLedger ->
       0 <= route.(added_during_epoch) ->
       omit b.(broadcastCurves) route ∈ request.(new_routes)) /\
    (forall unreachableLedger,
       unreachableLedger ∈ lostLedgerLinks ->
       unreachableLedger ∈ request.(unreachable_through_me)).
Proof.
  intros Hawait Hpeer b'. subst b'. cbn [turns fold_left turn].
  rewrite bool_decide_eq_true_2 by exact Hawait.
  set (b1 := broadcastFailed adjacentLedger lostLedgerLinks
               (settle adjacentLedger b)).
  rewrite sentSince_broadcast by reflexivity.
  assert (Hepoch : epochOrMinusOne b1 adjacentLedger = -1).
  { unfold epochOrMinusOne, b1, broadcastFailed, setPeerEpoch.
    cbn [peerEpochs]. now rewrite lookup_insert_eq. }
  exists (requestFor b1 requestFullTable adjacentLedger).
  split; [apply list_elem_of_fmap; eauto|]. split; [reflexivity|]. split.
  - intros route Hroute Hnonneg.
    apply (next_request b1 requestFullTable adjacentLedger route);
      [exact Hpeer|exact Hroute|]. rewrite Hepoch. lia.
  - intros x Hx. cbn [requestFor unreachable_through_me].
    unfold b1, broadcastFailed, setPeerEpoch. cbn [detectedDown].
    apply markLedgersUnreachable_elem. now right.
Qed.

Lemma failed_peer_is_sent_everything_witness :
  let b := turns (newBroadcaster (mkTables [lateRoute] 1) true 45000
                    ["ledger.a."%string])
             [Broadcast false; Acknowledged "ledger.a."; Broadcast false] in
  exists request,
    request ∈ sentSince b (turns b [Failed "ledger.a." ["ledger.x."%string];
                                   Broadcast false]) /\
    omit true lateRoute ∈ request.(new_routes) /\
    "ledger.x."%string ∈ request.(unreachable_through_me).
Proof.
  intros b.
  destruct (failed_peer_is_sent_everything b "ledger.a." ["ledger.x."%string] false)
    as (request & Hin & _ & Hroutes & Hlost).
  - vm_compute. apply list_elem_of_here.
  - vm_compute. apply list_elem_of_here.
  - exists request. split; [exact Hin|]. split.
    + apply (Hroutes lateRoute); [|vm_compute; discriminate].
      vm_compute. apply list_elem_of_here.
    + apply Hlost. apply list_elem_of_here.
Defined.

(** X16.  [this.peerEpochs[adjacentLedger] || -1] takes the epoch 0 for no epoch
    at all: a peer that acknowledges while the current epoch is 0 is sent
    the routes of epoch 0 again by the next broadcast. *)
Theorem epoch_zero_is_sent_again (b : Broadcaster) (adjacentLedger : string)
    (requestFullTable : bool) :
  adjacentLedger ∈ b.(awaiting) ->
  adjacentLedger ∈ b.(peers) ->
  _currentEpoch b = 0 ->
  let b' := turns b [Acknowledged adjacentLedger; Broadcast requestFullTable] in
  b'.(peerEpochs) !! adjacentLedger = Some 0 /\
  exists request,
    request ∈ sentSince b b' /\
    request.(ledger) = adjacentLedger /\
    forall route,
      route ∈ ledgerRoutes b adjacentLedger ->
      0 <= route.(added_during_epoch) ->
      omit b.(broadcastCurves) route ∈ request.(new_routes).
Proof.
  intros Hawait Hpeer Hzero b'. subst b'. cbn [turns fold_left turn].
  rewrite bool_decide_eq_true_2 by exact Hawait.
  set (b1 := broadcastSucceeded adjacentLedger (settle adjacentLedger b)).
  assert (Hcursor : b1.(peerEpochs) !! adjacentLedger = Some 0).
  { unfold b1, broadcastSucceeded, setPeerEpoch. cbn [peerEpochs].
    rewrite lookup_insert_eq. f_equal. exact Hzero. }
  split; [now rewrite broadcast_spec|].
  rewrite sentSince_broadcast by reflexivity.
  exists (requestFor b1 requestFullTable adjacentLedger).
  split; [apply list_elem_of_fmap; eauto|]. split; [reflexivity|].
  intros route Hroute Hnonneg.
  apply (next_request b1 requestFullTable adjacentLedger route);
    [exact Hpeer|exact Hroute|].
  unfold epochOrMinusOne. rewrite Hcursor. cbn. lia.
Qed.

Lemma epoch_zero_is_sent_again_witness :
  let route := mkRoute "ledger.a." "ledger.b." 1 0 [] in
  let b := turns (newBroadcaster (mkTables [route] 0) false 45000
                    ["ledger.a."%string]) [Broadcast true] in
  exists request,
    request ∈ sentSince b (turns b [Acknowledged "ledger.a."; Broadcast false]) /\
    omit false route ∈ request.(new_routes).
Proof.
  intros route b.
  destruct (epoch_zero_is_sent_again b "ledger.a." false)
    as (_ & request & Hin & _ & Hroutes).
  - vm_compute. apply list_elem_of_here.
  - vm_compute. apply list_elem_of_here.
  - reflexivity.
  - exists request. split; [exact Hin|].
    apply (Hroutes route); [|vm_compute; discriminate].
    vm_compute. apply list_elem_of_here.
Defined.

(** X17.  A ledger that has been depeered gets no request from a broadcast, but
    its epoch stays recorded: when the ledger is added again it is sent
    only what is newer than what it acknowledged before. *)
Theorem depeered_ledger_keeps_its_epoch (b : Broadcaster) (prefix : string)
    (requestFullTable : bool) :
  (forall request,
     request ∈ sentSince b (turns b [Depeer prefix; Broadcast requestFullTable]) ->
     request.(ledger) <> prefix) /\
  let again := turns b [Depeer prefix; Broadcast requestFullTable;
                        AddPeer prefix] in
  prefix ∈ again.(peers) /\
  again.(peerEpochs) = b.(peerEpochs) /\
  epochOrMinusOne again prefix = epochOrMinusOne b prefix.
Proof.
  cbn [turns fold_left turn]. split.
  - intros request. rewrite sentSince_broadcast by reflexivity.
    intros Hin. apply list_elem_of_fmap in Hin as (l & -> & Hl).
    cbn [depeerLedger peers] in Hl.
    apply list_elem_of_filter in Hl as [Hne _]. exact Hne.
  - rewrite broadcast_spec. unfold _addPeer. cbn [peers peerEpochs].
    destruct (bool_decide _) eqn:E.
    + apply bool_decide_eq_true in E. cbn. auto.
    + cbn. split; [|auto]. apply elem_of_app. right. apply list_elem_of_here.
Qed.

(** A ledger is in [detectedDown] only when a turn has reported it. *)
Lemma turn_detectedDown (b : Broadcaster) (i : Turn) (x : string) :
  x ∈ (turn b i).(detectedDown) ->
  x ∈ b.(detectedDown) \/ x ∈ reportedLost i.
Proof.
  destruct i; cbn [turn reportedLost]; auto.
  - rewrite broadcast_spec. cbn [detectedDown]. auto.
  - destruct (bool_decide _); auto.
  - destruct (bool_decide _); [|auto]. unfold broadcastFailed, setPeerEpoch.
    cbn [detectedDown]. intros H.
    now apply markLedgersUnreachable_elem in H.
  - unfold _addPeer. destruct (bool_decide _); auto.
  - intros H. now apply markLedgersUnreachable_elem in H.
Qed.

Lemma turns_detectedDown (between : list Turn) (b : Broadcaster) (x : string) :
  x ∈ (turns b between).(detectedDown) ->
  x ∈ b.(detectedDown) \/ x ∈ flat_map reportedLost between.
Proof.
  revert b. induction between as [|i between IH]; intros b H; [now left|].
  cbn in H. apply IH in H as [H|H].
  - apply turn_detectedDown in H as [H|H]; [now left|].
    right. cbn. apply elem_of_app. now left.
  - right. cbn. apply elem_of_app. now right.
Qed.

(** X18.  The ledgers detected down are announced once.  One broadcast sends a
    request to every peer, each with all the ledgers marked unreachable
    since the broadcast before.  Every ledger that a later broadcast names
    as unreachable has been reported after the first one, by a request
    that failed or by the cleanup timer; when nothing has been reported,
    the later broadcast names none, also to the peers that did not
    acknowledge the first. *)
Theorem unreachable_ledgers_are_announced_once (b : Broadcaster)
    (requestFullTable again : bool) (between : list Turn) :
  let b1 := broadcast requestFullTable b in
  let b2 := turns b1 between in
  map ledger (sentSince b b1) = b.(peers) /\
  Forall (fun request =>
            request.(unreachable_through_me) = b.(detectedDown))
         (sentSince b b1) /\
  Forall (fun request =>
            forall unreachableLedger,
              unreachableLedger ∈ request.(unreachable_through_me) ->
              unreachableLedger ∈ flat_map reportedLost between)
         (sentSince b2 (broadcast again b2)) /\
  (Forall (fun i => reportedLost i = []) between ->
   Forall (fun request => request.(unreachable_through_me) = [])
          (sentSince b2 (broadcast again b2))).
Proof.
  intros b1 b2.
  assert (Hreported : forall x, x ∈ b2.(detectedDown) ->
                                x ∈ flat_map reportedLost between).
  { intros x Hx. subst b2 b1. apply turns_detectedDown in Hx as [Hx|Hx];
      [|exact Hx].
    rewrite broadcast_spec in Hx. now apply not_elem_of_nil in Hx. }
  subst b1. rewrite !sentSince_broadcast by reflexivity.
  split; [|split; [|split]].
  - rewrite <- list_fmap_compose. apply list_fmap_id.
  - apply Forall_forall. intros request Hin.
    now apply list_elem_of_fmap in Hin as (l & -> & _).
  - apply Forall_forall. intros request Hin.
    apply list_elem_of_fmap in Hin as (l & -> & _).
    cbn [requestFor unreachable_through_me]. exact Hreported.
  - intros Hquiet. apply Forall_forall. intros request Hin.
    apply list_elem_of_fmap in Hin as (l & -> & _).
    cbn [requestFor unreachable_through_me].
    assert (Hnone : flat_map reportedLost between = []).
    { clear -Hquiet. induction Hquiet as [|i between Hi _ IH]; [reflexivity|].
      cbn. now rewrite Hi, IH. }
    rewrite Hnone in Hreported.
    destruct (detectedDown b2) as [|x rest]; [reflexivity|].
    exfalso. eapply not_elem_of_nil, Hreported, list_elem_of_here.
Qed.

Lemma unreachable_ledgers_are_announced_once_witness :
  let b := turns (newBroadcaster (mkTables [] 0) false 45000
                    ["ledger.a."%string; "ledger.c."%string])
             [Broadcast true; Failed "ledger.c." ["ledger.x."%string];
              Acknowledged "ledger.a."] in
  let b2 := turns (broadcast false b) [Acknowledged "ledger.c."] in
  Forall (fun request => request.(unreachable_through_me) = [])
         (sentSince b2 (broadcast false b2)).
Proof.
  intros b b2.
  refine (proj2 (proj2 (proj2 (unreachable_ledgers_are_announced_once b false
                                 false [Acknowledged "ledger.c."]))) _).
  repeat constructor.
Defined.

End BroadcastFacts.

(** ** ilp-plugin-lightning: messages, peering and payments *)
Section LightningMessageFacts.
Import BigNumber Js Lightning LightningMessages.

Section Keeps.
Variable P : State -> Prop.

Lemma keeps_ret {A} (a : A) : keeps P (mret a).
Proof. intros s Hs. exact Hs. Qed.

Lemma keeps_throw {A} (e : Error) : keeps P (@throw A e).
Proof. intros s Hs. exact Hs. Qed.

Lemma keeps_bind {A B} (c : M A) (k : A -> M B) :
  keeps P c -> (forall a, keeps P (k a)) -> keeps P (c ≫= k).
Proof.
  intros Hc Hk s Hs. unfold mbind, M_bind, bind.
  pose proof (Hc s Hs) as H1. destruct (c s) as [s' [a|e]]; cbn in *.
  - now apply Hk.
  - exact H1.
Qed.

Lemma keeps_tryCatch {A} (c : M A) (h : Error -> M A) :
  keeps P c -> (forall e, keeps P (h e)) -> keeps P (tryCatch c h).
Proof.
  intros Hc Hh s Hs. unfold tryCatch.
  pose proof (Hc s Hs) as H1. destruct (c s) as [s' [a|e]]; cbn in *.
  - exact H1.
  - now apply Hh.
Qed.

Lemma keeps_getAccount {A} (k : Account -> M A) :
  (forall a, keeps P (k a)) -> keeps P (getAccount ≫= k).
Proof. intros H s Hs. exact (H _ s Hs). Qed.

Lemma keeps_await {A} (r : HandlerReply A) : keeps P (await r).
Proof. destruct r; [apply keeps_ret|apply keeps_throw]. Qed.

Lemma keeps_if {A} (b : bool) (c1 c2 : M A) :
  keeps P c1 -> keeps P c2 -> keeps P (if b then c1 else c2).
Proof. destruct b; auto. Qed.

Hypothesis P_setBalance : forall b, keeps P (setBalance b).
Hypothesis P_setPayoutAmount : forall p, keeps P (setPayoutAmount p).

Lemma keeps_addBalance (master : LightningPlugin) (amount : BigNumber) :
  keeps P (addBalance master amount).
Proof.
  unfold addBalance. repeat apply keeps_if; try apply keeps_ret;
    try apply keeps_throw.
  apply keeps_getAccount. intros a. cbv zeta.
  apply keeps_if; [apply keeps_throw|apply P_setBalance].
Qed.

Lemma keeps_subBalance (master : LightningPlugin) (amount : BigNumber) :
  keeps P (subBalance master amount).
Proof.
  unfold subBalance. repeat apply keeps_if; try apply keeps_ret;
    try apply keeps_throw.
  apply keeps_getAccount. intros a. cbv zeta.
  apply keeps_if; [apply keeps_throw|apply P_setBalance].
Qed.

Lemma keeps_attemptSettle_begin (master : LightningPlugin) :
  keeps P (attemptSettle_begin master).
Proof.
  unfold attemptSettle_begin.
  destruct (settleThreshold (_balance master)); [|apply keeps_ret].
  apply keeps_getAccount. intros a. cbv zeta.
  repeat (apply keeps_if; [apply keeps_ret|]).
  apply keeps_bind; [apply keeps_addBalance|intros; apply keeps_ret].
Qed.

Lemma keeps_handlePrepareResponse (master : LightningPlugin)
    (prepareAmount : Z) (response : IlpReply) :
  keeps P (handlePrepareResponse master prepareAmount response).
Proof.
  unfold handlePrepareResponse. apply keeps_bind.
  - apply keeps_if; [|apply keeps_ret]. cbv zeta. apply keeps_tryCatch.
    + apply keeps_bind; [apply keeps_subBalance|intros _].
      apply keeps_getAccount. intros a. apply P_setPayoutAmount.
    + intros e. apply keeps_throw.
  - intros _. cbv zeta. apply keeps_if; [|apply keeps_ret].
    apply keeps_tryCatch; [apply keeps_attemptSettle_begin|].
    intros e. apply keeps_ret.
Qed.

End Keeps.

Lemma unpeered_setBalance (b : BigNumber) : keeps unpeeredState (setBalance b).
Proof. intros s Hs. exact Hs. Qed.

Lemma unpeered_setPayoutAmount (p : BigNumber) :
  keeps unpeeredState (setPayoutAmount p).
Proof. intros s Hs. exact Hs. Qed.

Lemma unpeered_addInvoice (pr : string) : keeps unpeeredState (addInvoice pr).
Proof. intros s Hs. exact Hs. Qed.

Lemma unpeered_emit (e : Event) :
  isPayment e = false -> keeps unpeeredState (emit e).
Proof.
  intros He s [Hpub Hcalls]. split; [exact Hpub|]. cbn.
  apply Forall_app. split; [exact Hcalls|]. now constructor.
Qed.

(** Without the identity of the peer no invoice passes
    [_validateInvoiceDestination]. *)
Lemma requestInvoice_unpeered (reply : InvoiceReply) (s : State) :
  unpeeredState s ->
  unpeeredState (requestInvoice reply s).1 /\
  exists e, (requestInvoice reply s).2 = Throw e.
Proof.
  intros [Hpub Hcalls].
  assert (Hq : unpeeredState (emit SentInvoiceRequest s).1)
    by (now apply unpeered_emit).
  unfold requestInvoice, tryCatch. unfold mbind at 1. unfold M_bind, bind.
  change (emit SentInvoiceRequest s)
    with ((emit SentInvoiceRequest s).1, @Ok unit tt).
  set (s1 := (emit SentInvoiceRequest s).1) in *.
  destruct reply as [e| |pr destination].
  - cbn. split; [exact Hq|eauto].
  - cbn. split; [exact Hq|eauto].
  - unfold _validateInvoiceDestination. munfold. cbn.
    rewrite Hpub. rewrite bool_decide_eq_false_2 by discriminate. cbn.
    split; [exact Hq|eauto].
Qed.

Lemma attemptSettle_invoiced_unpeered (master : LightningPlugin)
    (settlementBudget : BigNumber) (reply : InvoiceReply) (s : State) :
  unpeeredState s ->
  unpeeredState (attemptSettle_invoiced master settlementBudget reply s).1 /\
  forall payment_request,
    (attemptSettle_invoiced master settlementBudget reply s).2 <>
      Ok (Some payment_request).
Proof.
  intros Hs. destruct (requestInvoice_unpeered reply s Hs) as [Hq [e He]].
  unfold attemptSettle_invoiced. munfold.
  destruct (requestInvoice reply s) as [s1 r]. cbn in Hq, He. subst r.
  pose proof (keeps_subBalance unpeeredState unpeered_setBalance master
                settlementBudget s1 Hq) as Hsub.
  destruct (subBalance master settlementBudget s1) as [s2 [[]|e']]; cbn in *;
    (split; [exact Hsub|intros pr; discriminate]).
Qed.

Lemma unpeered_handlePrepare_begin (master : LightningPlugin)
    (amount : BigNumber) (registered : bool) :
  keeps unpeeredState (_handlePrepare_begin master amount registered).
Proof.
  unfold _handlePrepare_begin. apply keeps_tryCatch; [|intros; apply keeps_ret].
  repeat (apply keeps_if; [apply keeps_throw|]).
  apply keeps_bind.
  - apply keeps_tryCatch; [|intros; apply keeps_throw].
    apply keeps_addBalance, unpeered_setBalance.
  - intros _. apply keeps_bind; [now apply unpeered_emit|].
    intros _. apply keeps_ret.
Qed.

Lemma unpeered_handlePrepare_resume (master : LightningPlugin)
    (amount : BigNumber) (reply : HandlerReply IlpReply) :
  keeps unpeeredState (_handlePrepare_resume master amount reply).
Proof.
  unfold _handlePrepare_resume. apply keeps_tryCatch; [|intros; apply keeps_ret].
  apply keeps_bind; [apply keeps_await|]. intros response.
  apply keeps_bind; [|intros; apply keeps_ret].
  apply keeps_if; [apply keeps_ret|].
  apply keeps_subBalance, unpeered_setBalance.
Qed.

Lemma unpeered_handleIncomingInvoice (master : LightningPlugin)
    (invoice : Invoice) (moneyHandler : option (HandlerReply unit)) :
  keeps unpeeredState (_handleIncomingInvoice master invoice moneyHandler).
Proof.
  unfold _handleIncomingInvoice. apply keeps_getAccount. intros a.
  apply keeps_if; [|apply keeps_ret].
  apply keeps_bind; [apply keeps_subBalance, unpeered_setBalance|].
  intros _. destruct moneyHandler as [handler|]; [|apply keeps_throw].
  apply keeps_bind; [now apply unpeered_emit|]. intros _. apply keeps_await.
Qed.

Lemma unpeered_handleInvoiceRequest (added : string) :
  keeps unpeeredState (_handleInvoiceRequest added).
Proof.
  unfold _handleInvoiceRequest.
  apply keeps_bind; [apply unpeered_addInvoice|intros; apply keeps_ret].
Qed.

Lemma unpeered_spawn (started : option BigNumber) (ps : list Pending) :
  Forall (fun p => isAwaitingPayment p = false) ps ->
  Forall (fun p => isAwaitingPayment p = false) (spawn started ps).
Proof.
  intros H. destruct started; [|exact H]. cbn.
  apply Forall_app. split; [exact H|]. now constructor.
Qed.

Lemma unpeered_step (master : LightningPlugin) (n : Node) (i : Input) :
  isPeeringRequest i = false -> unpeered n -> unpeered (step master n i).
Proof.
  intros Hi [Hs Hp].
  destruct i as [|amount response|amount registered|invoice moneyHandler|added
                 |pubkey peering|k reply|k reply|k reply]; cbn [step];
    try discriminate.
  - pose proof (keeps_attemptSettle_begin unpeeredState unpeered_setBalance
                  master _ Hs) as H.
    destruct (attemptSettle_begin master (state n)) as [s [started|e]];
      split; cbn in *; auto using unpeered_spawn.
  - pose proof (keeps_handlePrepareResponse unpeeredState unpeered_setBalance
                  unpeered_setPayoutAmount master amount response _ Hs) as H.
    destruct (handlePrepareResponse master amount response (state n))
      as [s [started|e]]; split; cbn in *; auto using unpeered_spawn.
  - pose proof (unpeered_handlePrepare_begin master (Fin amount) registered _ Hs)
      as H.
    destruct (_handlePrepare_begin master (Fin amount) registered (state n))
      as [s [[[]|reject]|e]]; split; cbn in *; auto.
    apply Forall_app. split; [exact Hp|]. now constructor.
  - split; cbn; [|exact Hp]. now apply unpeered_handleIncomingInvoice.
  - split; cbn; [|exact Hp]. now apply unpeered_handleInvoiceRequest.
  - destruct (pending n !! k) as [[budget|budget pr|amount]|] eqn:E;
      try (split; assumption).
    destruct (attemptSettle_invoiced_unpeered master budget reply _ Hs)
      as [H Hnone].
    destruct (attemptSettle_invoiced master budget reply (state n))
      as [s [[pr|]|e]]; cbn in *.
    + now destruct (Hnone pr).
    + split; cbn; [exact H|]. now apply Forall_delete.
    + split; cbn; [exact H|]. now apply Forall_delete.
  - destruct (pending n !! k) as [[budget|budget pr|amount]|] eqn:E;
      try (split; assumption).
    apply (Forall_lookup_1 _ _ _ _ Hp) in E. discriminate.
  - destruct (pending n !! k) as [[budget|budget pr|amount]|] eqn:E;
      try (split; assumption).
    split; cbn; [|now apply Forall_delete].
    now apply unpeered_handlePrepare_resume.
Qed.

(** X19.  No payment before peering.  As long as an account has handled no
    peering request it does not know the lightning identity of its peer,
    every invoice it is sent fails [_validateInvoiceDestination], and
    [lnd.payInvoice] is never called, however its methods interleave. *)
Theorem no_payment_before_peering (master : LightningPlugin) (name : string)
    (inputs : list Input) :
  Forall (fun i => isPeeringRequest i = false) inputs ->
  let n := run master (start master name) inputs in
  n.(state).(account).(lndIdentityPubkey) = None /\
  Forall (fun e => isPayment e = false) n.(state).(calls) /\
  outstandingPayments n = 0%nat.
Proof.
  intros Hall n.
  assert (Hn : unpeered n).
  { subst n. unfold run.
    assert (H0 : unpeered (start master name)) by (repeat split; constructor).
    revert H0. generalize (start master name).
    induction Hall as [|i inputs Hi _ IH]; intros n0 H0; [exact H0|].
    cbn. apply IH. now apply unpeered_step. }
  destruct Hn as [[Hpub Hcalls] Hp]. split; [exact Hpub|]. split; [exact Hcalls|].
  unfold outstandingPayments.
  induction Hp as [|p ps Hp' _ IH]; [reflexivity|].
  rewrite filter_cons_False; [exact IH|]. now rewrite Hp'.
Qed.

Lemma no_payment_before_peering_witness :
  let n := run settlingPlugin (start settlingPlugin "peer")
             [CallHandlePrepareResponse 150 Fulfill;
              InvoiceReplies 0 (InvoiceResponse "lnbc1" "02peer")] in
  Forall (fun e => isPayment e = false) n.(state).(calls) /\
  n.(state).(calls) = [SentInvoiceRequest].
Proof.
  intros n.
  destruct (no_payment_before_peering settlingPlugin "peer"
              [CallHandlePrepareResponse 150 Fulfill;
               InvoiceReplies 0 (InvoiceResponse "lnbc1" "02peer")])
    as (_ & H & _).
  - repeat constructor.
  - split; [exact H|]. vm_compute. reflexivity.
Defined.

Lemma addBalance_outcome (master : LightningPlugin) (amount : BigNumber)
    (s : State) :
  (exists e, addBalance master amount s = (s, Throw e)) \/
  (exists b, addBalance master amount s = (withBalance b s, Ok tt)).
Proof.
  unfold addBalance. munfold.
  destruct (isZero amount).
  { right. exists s.(account).(balance). now destruct s as [[] ?]. }
  destruct (lt amount (Fin 0)); [left; eauto|].
  cbn. destruct (gt _ _); [left; eauto|right; eauto].
Qed.

Lemma subBalance_outcome (master : LightningPlugin) (amount : BigNumber)
    (s : State) :
  (exists e, subBalance master amount s = (s, Throw e)) \/
  (exists b, subBalance master amount s = (withBalance b s, Ok tt)).
Proof.
  unfold subBalance. munfold.
  destruct (isZero amount).
  { right. exists s.(account).(balance). now destruct s as [[] ?]. }
  destruct (lt amount (Fin 0)); [left; eauto|].
  cbn. destruct (lt _ _); [left; eauto|right; eauto].
Qed.

(** X20.  [_handlePrepare] touches the account only for a PREPARE that it
    hands to the data handler: either the data handler has been called,
    exactly once, or the account and the calls are exactly as before and
    the method does not return a FULFILL. *)
Theorem handlePrepare_asks_handler_or_keeps_account (master : LightningPlugin)
    (amount : BigNumber) (dataHandler : option (HandlerReply IlpReply))
    (s : State) :
  let r := _handlePrepare master amount dataHandler s in
  (r.1 = s /\ r.2 <> Ok Fulfill) \/
  (r.1.(calls) = s.(calls) ++ [CalledDataHandler] /\ is_Some dataHandler).
Proof.
  destruct dataHandler as [handler|]; cbv zeta.
  2: { left. split; [reflexivity|discriminate]. }
  rewrite handlePrepare_split.
  unfold _handlePrepare_begin, _handlePrepare_resume. cbn [negb].
  destruct (gt amount (_maxPacketAmount master)).
  { left. split; [reflexivity|discriminate]. }
  munfold.
  destruct (addBalance_outcome master amount s) as [[e E]|[b E]]; rewrite E.
  { cbn. left. split; [reflexivity|discriminate]. }
  cbn. destruct handler as [response|e]; cbn.
  - destruct (isFulfill response); cbn.
    + right. split; [reflexivity|eauto].
    + match goal with |- context [subBalance master amount ?s1] =>
        destruct (subBalance_outcome master amount s1) as [[e E']|[b' E']];
        rewrite E'
      end; cbn; right; (split; [reflexivity|eauto]).
  - right. split; [reflexivity|eauto].
Qed.

(** X27.  The revert of a rejected PREPARE can throw.  When the REJECT finds
    a balance from which the amount cannot be taken without going below
    the minimum, because the peer has paid in the meantime, [subBalance]
    throws: the amount that the arrival of the PREPARE added stays on the
    balance, and the peer is answered with a reject made from that
    error. *)
Theorem rejected_prepare_revert_throws (master : LightningPlugin) (n : Node)
    (a' amount : Z) (i : nat) (r : IlpReject) :
  n.(pending) !! i = Some (AwaitingDataHandler (Fin amount)) ->
  n.(state).(account).(balance) = Fin a' ->
  0 < amount ->
  lt (Fin (a' - amount)) master.(_balance).(minimum) = true ->
  let answered := step master n (DataHandlerReplies i (Returns (Reject r))) in
  answered.(state) = n.(state) /\
  answered.(pending) = delete i n.(pending) /\
  (_handlePrepare_resume master (Fin amount) (Returns (Reject r)) n.(state)).2 =
    Ok (Reject (errorToReject ""
          (Error_ "Cannot credit: proposedBalance is below the minimum"))).
Proof.
  intros Hi Ha Hz Hmin answered. subst answered. cbn [step]. rewrite Hi.
  rewrite (handlePrepare_resume_revert_throws _ _ a' amount) by assumption.
  repeat split.
Qed.

Lemma rejected_prepare_revert_throws_witness :
  let n :=
    run boundedPlugin (start boundedPlugin "A")
      [CallHandlePrepare 100 true;
       CallHandleInvoiceRequest "lnbc1050";
       CallHandleIncomingInvoice (mkInvoice true "lnbc1050" 1050)
         (Some (Returns tt))] in
  n.(state).(account).(balance) = Fin (-950) /\
  (step boundedPlugin n
     (DataHandlerReplies 0
        (Returns (Reject (mkReject "F99" "peer" "no" NoData))))
  ).(state).(account).(balance) = Fin (-950).
Proof.
  intros n. split; [reflexivity|].
  now rewrite (proj1 (rejected_prepare_revert_throws boundedPlugin n (-950) 100
                        0%nat (mkReject "F99" "peer" "no" NoData)
                        eq_refl eq_refl ltac:(lia) eq_refl)).
Defined.

Lemma handlePrepare_handler_throws_witness :
  let r := _handlePrepare limitedPlugin (Fin 50)
             (Some (Rejects (Error_ "timed out")))
             (mkState (newAccount limitedPlugin "peer") []) in
  r.1.(account).(balance) = Fin 50 /\
  exists reject, r.2 = Ok (Reject reject) /\ reject.(code) = "F00"%string.
Proof.
  intros r. subst r.
  rewrite (handlePrepare_handler_throws limitedPlugin
             (mkState (newAccount limitedPlugin "peer") []) 0 50
             (Error_ "timed out") eq_refl);
    [|lia|reflexivity|reflexivity].
  split; [reflexivity|]. eexists. split; reflexivity.
Defined.

Lemma getSubProtocol_named (message : list BtpSubProtocol) (name : string)
    (p : BtpSubProtocol) :
  getSubProtocol message name = Some p -> named name p = true.
Proof. intros H. now apply find_some in H as [_ H]. Qed.

(** X22.  [handleData] answers one request of a message.  Only a message
    without a peering request and without an invoice request that carries
    an ILP PREPARE reaches the data handler or the balance; a PREPARE that
    travels with a peering or invoice request is dropped. *)
Theorem handleData_answers_one_request (master : LightningPlugin)
    (message : list BtpSubProtocol) (peering : HandlerReply unit)
    (added : string) (dataHandler : option (HandlerReply IlpReply))
    (s : State) :
  let r := handleData master message peering added dataHandler s in
  r.1.(account).(balance) <> s.(account).(balance) \/
  r.1.(calls) <> s.(calls) ->
  getSubProtocol message "peeringRequest" = None /\
  getSubProtocol message "invoiceRequest" = None /\
  exists amount,
    getSubProtocol message "ilp" = Some (Ilp TYPE_ILP_PREPARE amount) /\
    r.1 = (_handlePrepare master (Fin amount) dataHandler s).1.
Proof.
  unfold handleData. cbv zeta.
  destruct (getSubProtocol message "peeringRequest") as [p|] eqn:Ep.
  { pose proof (getSubProtocol_named _ _ _ Ep) as Hn.
    destruct p; try discriminate.
    unfold _handlePeeringRequest. munfold.
    destruct peering as [[]|e]; cbn; intros [H|H]; now destruct H. }
  destruct (getSubProtocol message "invoiceRequest") as [p|] eqn:Ei.
  { unfold _handleInvoiceRequest. munfold. cbn.
    intros [H|H]; now destruct H. }
  destruct (getSubProtocol message "ilp") as [p|] eqn:El.
  - pose proof (getSubProtocol_named _ _ _ El) as Hn.
    destruct p as [| |type amount|]; try discriminate.
    destruct (Z.eqb_spec type TYPE_ILP_PREPARE) as [->|].
    + intros _. split; [reflexivity|]. split; [reflexivity|].
      exists amount. split; [reflexivity|]. unfold mbind, M_bind, bind.
      now destruct (_handlePrepare master (Fin amount) dataHandler s)
        as [s' [response|e]].
    + cbn. intros [H|H]; now destruct H.
  - cbn. intros [H|H]; now destruct H.
Qed.

Lemma handleData_answers_one_request_witness :
  let message := [Other; Ilp 12 10] in
  let s := mkState (newAccount boundedPlugin "peer") [] in
  let r := handleData boundedPlugin message (Returns tt) "lnbc1"
             (Some (Returns Fulfill)) s in
  r.1.(calls) = [CalledDataHandler] /\
  getSubProtocol message "peeringRequest" = None /\
  getSubProtocol message "invoiceRequest" = None.
Proof.
  intros message s r. split; [reflexivity|].
  destruct (handleData_answers_one_request boundedPlugin message (Returns tt)
              "lnbc1" (Some (Returns Fulfill)) s) as (Hp & Hi & _).
  - right. intros H. vm_compute in H. discriminate.
  - split; [exact Hp|exact Hi].
Defined.

(** X23.  The credit of a settled invoice is committed before the money handler
    is looked at: without a registered handler, and with a handler that
    throws, [_handleIncomingInvoice] throws and the balance stays lowered
    by the amount of the invoice. *)
Theorem incoming_invoice_without_handler (master : LightningPlugin) (s : State)
    (invoice : Invoice) (b : Z) (e : Error) :
  s.(account).(balance) = Fin b ->
  0 <= invoice.(amt_paid_sat) ->
  lte master.(_balance).(minimum) (Fin (b - invoice.(amt_paid_sat))) = true ->
  invoice.(settled) = true ->
  invoice.(payment_request) ∈ s.(account).(invoices) ->
  _handleIncomingInvoice master invoice None s =
    (withBalance (Fin (b - invoice.(amt_paid_sat))) s,
     Throw (Error_ "no money handler registered")) /\
  _handleIncomingInvoice master invoice (Some (Rejects e)) s =
    (withCalls [CalledMoneyHandler invoice.(amt_paid_sat)]
       (withBalance (Fin (b - invoice.(amt_paid_sat))) s),
     Throw e).
Proof.
  intros Hb Hz Hmin Hsettled Hissued. unfold _handleIncomingInvoice.
  change ((getAccount ≫= ?k) s) with (k (account s) s). cbv beta.
  rewrite Hsettled, bool_decide_eq_true_2 by exact Hissued. cbn [andb].
  split; unfold mbind at 1; unfold M_bind, bind;
    rewrite (subBalance_commits _ _ b _ Hb Hz Hmin); reflexivity.
Qed.

Lemma incoming_invoice_without_handler_witness :
  let s := (_handleInvoiceRequest "lnbc1"
              (mkState (newAccount boundedPlugin "peer") [])).1 in
  let r := _handleIncomingInvoice boundedPlugin paidInvoice None s in
  r.1.(account).(balance) = Fin (-10) /\
  r.2 = Throw (Error_ "no money handler registered").
Proof.
  intros s r.
  destruct (incoming_invoice_without_handler boundedPlugin s paidInvoice 0
              (Error_ "unused")) as [H _].
  - reflexivity.
  - cbn. lia.
  - reflexivity.
  - reflexivity.
  - cbn. apply elem_of_union_l, elem_of_singleton. reflexivity.
  - subst r. rewrite H. split; reflexivity.
Defined.

End LightningMessageFacts.

(** ** The first route broadcaster: crawling and broadcasting *)
Section PeersByLedgerFacts.
Import RouteBroadcaster PeersByLedger.

Lemma addPeer_elem (prefix connector : string) (b : Broadcaster)
    (ledger c : string) :
  c ∈ default ∅ ((addPeer prefix connector b).(peersByLedger) !! ledger) <->
  c ∈ default ∅ (b.(peersByLedger) !! ledger) \/
  (ledger = prefix /\ c = connector).
Proof.
  unfold addPeer. cbn [peersByLedger].
  destruct (decide (prefix = ledger)) as [->|Hne].
  - rewrite lookup_insert_eq. cbn. rewrite elem_of_union, elem_of_singleton.
    split; [intros [->|H]; auto|intros [H|[_ ->]]; auto].
  - rewrite lookup_insert_ne by exact Hne. split; [auto|].
    intros [H|[-> _]]; [exact H|contradiction].
Qed.

Lemma crawled_mono (b b' : Broadcaster) (clients clients' : list Client)
    (ledger connector : string) :
  b'.(autoloadPeers) = b.(autoloadPeers) ->
  b'.(defaultPeers) = b.(defaultPeers) ->
  clients ⊆ clients' ->
  crawled b clients ledger connector -> crawled b' clients' ledger connector.
Proof.
  intros Ha Hd Hsub (client & Hin & Hp & Hc & Hne & Hok).
  exists client. rewrite Ha, Hd. auto.
Qed.

Lemma crawlClient_fields (client : Client) (b : Broadcaster) :
  (_crawlClient client b).(autoloadPeers) = b.(autoloadPeers) /\
  (_crawlClient client b).(defaultPeers) = b.(defaultPeers).
Proof.
  unfold _crawlClient. generalize (connectors client) as cs. intros cs.
  revert b. induction cs as [|c cs IH]; intros b; [split; reflexivity|].
  cbn [fold_left].
  destruct (bool_decide _); [apply IH|].
  destruct (_ || _); [|apply IH].
  destruct (IH (addPeer (prefix client) c b)) as [-> ->]. split; reflexivity.
Qed.

Lemma crawlClient_crawled (client : Client) (b : Broadcaster)
    (clients : list Client) :
  client ∈ clients ->
  (forall ledger c,
     c ∈ default ∅ (b.(peersByLedger) !! ledger) -> crawled b clients ledger c) ->
  forall ledger c,
    c ∈ default ∅ ((_crawlClient client b).(peersByLedger) !! ledger) ->
    crawled b clients ledger c.
Proof.
  intros Hclient. unfold _crawlClient.
  assert (Hsub : forall c, c ∈ connectors client -> c ∈ connectors client) by auto.
  revert Hsub. generalize (connectors client) at 1 3 as cs. intros cs.
  revert b. induction cs as [|c cs IH]; intros b Hsub Hb ledger x; [apply Hb|].
  cbn [fold_left].
  assert (Hsub' : forall c0, c0 ∈ cs -> c0 ∈ connectors client)
    by (intros; apply Hsub; now right).
  destruct (bool_decide _) eqn:Hself; [now apply IH|].
  destruct (_ || _) eqn:Hwanted; [|now apply IH].
  intros Hx.
  apply (crawled_mono (addPeer (prefix client) c b) b clients clients);
    [reflexivity|reflexivity|reflexivity|].
  revert ledger x Hx. apply IH; [exact Hsub'|].
  intros ledger x Hx. apply addPeer_elem in Hx as [Hx|[-> ->]].
  - apply (crawled_mono b _ clients clients); [reflexivity..|now apply Hb].
  - exists client. split; [exact Hclient|]. split; [reflexivity|].
    split; [apply Hsub; now left|].
    apply bool_decide_eq_false in Hself. split; [exact Hself|].
    cbn [autoloadPeers defaultPeers].
    apply orb_true_iff in Hwanted as [H|H]; [now left|right].
    now apply bool_decide_eq_true in H.
Qed.

Lemma crawl_crawled (clients : list Client) (autoload : bool)
    (peers : list string) (ledger c : string) :
  c ∈ default ∅ ((crawl clients (newBroadcaster autoload peers)).(peersByLedger)
                   !! ledger) ->
  crawled (newBroadcaster autoload peers) clients ledger c.
Proof.
  unfold crawl.
  assert (Hgen : forall (done todo : list Client) (b : Broadcaster),
            b.(autoloadPeers) = autoload -> b.(defaultPeers) = peers ->
            (forall ledger c,
               c ∈ default ∅ (b.(peersByLedger) !! ledger) ->
               crawled b done ledger c) ->
            forall ledger c,
              c ∈ default ∅ ((fold_left (fun b client => _crawlClient client b)
                                todo b).(peersByLedger) !! ledger) ->
              crawled (newBroadcaster autoload peers) (done ++ todo) ledger c).
  { intros done todo. revert done.
    induction todo as [|client todo IH]; intros done b Ha Hd Hb l x Hx.
    - rewrite app_nil_r. cbn in Hx.
      apply (crawled_mono b _ done done); auto.
    - cbn [fold_left] in Hx.
      replace (done ++ client :: todo) with ((done ++ [client]) ++ todo)
        by now rewrite <- app_assoc.
      destruct (crawlClient_fields client b) as [Ha' Hd'].
      apply (IH (done ++ [client]) (_crawlClient client b));
        [congruence|congruence| |exact Hx].
      intros l' x' Hx'.
      apply (crawled_mono b _ (done ++ [client]) (done ++ [client]));
        [congruence|congruence|reflexivity|].
      revert l' x' Hx'. apply crawlClient_crawled.
      + apply elem_of_app. right. apply list_elem_of_here.
      + intros l' x' Hx'.
        apply (crawled_mono b b done); [reflexivity..| |now apply Hb].
        intros y Hy. apply elem_of_app. now left. }
  intros Hx. apply (Hgen [] clients (newBroadcaster autoload peers));
    [reflexivity|reflexivity| |exact Hx].
  intros l x H. cbn in H. rewrite lookup_empty in H. cbn in H.
  now apply not_elem_of_empty in H.
Qed.

(** X24.  The connector does not broadcast to itself.  After a crawl, every
    message of a broadcast goes to a connector that one of the clients
    listed, on the ledger of that client, at an account that is not the
    client's own and that is a configured peer unless [autoloadPeers] is
    set; and it carries only routes that start at that ledger. *)
Theorem broadcast_reaches_crawled_peers (clients : list Client)
    (autoload : bool) (peers : list string) (routes : list Route)
    (message : Message) :
  let b := crawl clients (newBroadcaster autoload peers) in
  message ∈ broadcast routes b ->
  (exists client connector,
     client ∈ clients /\
     connector ∈ client.(connectors) /\
     message.(m_ledger) = client.(prefix) /\
     message.(m_account) = (client.(prefix) ++ connector)%string /\
     message.(m_account) <> client.(localAccount) /\
     (autoload = true \/ message.(m_account) ∈ peers)) /\
  Forall (fun route : Route => route.(source_ledger) = message.(m_ledger))
         message.(m_routes).
Proof.
  intros b Hin. unfold broadcast in Hin. cbv zeta in Hin.
  apply list_elem_of_In, in_flat_map in Hin as (ledger & _ & Hin).
  apply list_elem_of_In in Hin. unfold _broadcastToLedger in Hin.
  apply list_elem_of_fmap in Hin as (connector & -> & Hc).
  apply elem_of_elements in Hc. cbn [m_ledger m_account m_routes].
  split.
  - apply crawl_crawled in Hc as (client & Hclient & <- & Hconn & Hne & Hok).
    exists client, connector. cbn in Hok. repeat split; auto.
  - apply Forall_forall. intros route Hroute.
    now apply list_elem_of_filter in Hroute as [Hsrc _].
Qed.

Lemma broadcast_reaches_crawled_peers_witness :
  let clients := [mkClient "ledger.a." "ledger.a.mark"
                    ["mark"%string; "mary"%string; "eve"%string]] in
  let b := crawl clients (newBroadcaster false ["ledger.a.mary"%string]) in
  let message := mkMessage "ledger.a." "ledger.a.mary" [lateRoute] in
  message ∈ broadcast [lateRoute] b /\
  message.(m_account) <> "ledger.a.mark"%string /\
  message.(m_account) ∈ ["ledger.a.mary"%string].
Proof.
  intros clients b message.
  assert (Hin : message ∈ broadcast [lateRoute] b).
  { vm_compute. apply list_elem_of_here. }
  split; [exact Hin|].
  destruct (broadcast_reaches_crawled_peers clients false
              ["ledger.a.mary"%string] [lateRoute] message Hin)
    as [(client & connector & Hclient & _ & _ & _ & Hne & Hok) _].
  apply list_elem_of_singleton in Hclient. subst client.
  split; [exact Hne|]. destruct Hok as [Hok|Hok]; [discriminate|exact Hok].
Defined.

End PeersByLedgerFacts.

(** ** The halves of a trading pair *)
Section TradingPairFacts.
Import TradingPair.

Lemma split_nonempty (sep : ascii) (s : string) : split sep s <> [].
Proof.
  induction s as [|c s IH]; cbn [split]; [discriminate|].
  destruct (Ascii.eqb c sep); [discriminate|].
  destruct (split sep s); [contradiction|discriminate].
Qed.

Lemma split_prefix (sep : ascii) (before after : string) :
  contains sep before = false ->
  split sep (before ++ String sep after) = before :: split sep after.
Proof.
  induction before as [|c before IH]; intros H.
  - change (split sep (String sep after) = EmptyString :: split sep after).
    cbn [split]. now rewrite Ascii.eqb_refl.
  - change (split sep (String c (before ++ String sep after)) =
            String c before :: split sep after).
    cbn [split contains] in *.
    apply orb_false_iff in H as [Hc H]. rewrite Hc, IH by exact H. reflexivity.
Qed.

Lemma split_whole (sep : ascii) (s : string) :
  contains sep s = false -> split sep s = [s].
Proof.
  induction s as [|c s IH]; cbn [split contains]; intros H; [reflexivity|].
  apply orb_false_iff in H as [Hc H]. now rewrite Hc, IH.
Qed.

Lemma concat_split (sep : ascii) (s : string) :
  String.concat (String sep EmptyString) (split sep s) = s.
Proof.
  induction s as [|c s IH]; [reflexivity|]. cbn [split].
  pose proof (split_nonempty sep s) as Hne.
  destruct (Ascii.eqb_spec c sep) as [->|_].
  - destruct (split sep s) as [|first others]; [contradiction|].
    cbn [String.concat] in *. cbn. now rewrite IH.
  - destruct (split sep s) as [|first others]; [contradiction|].
    cbn [String.concat] in *. destruct others; cbn in *; now rewrite <- IH.
Qed.

(** X25.  A half [currency@ledger] of a trading pair is cut at its first [@]:
    the ledger is everything behind it, further [@] included, and a half
    without [@] has the empty ledger. *)
Theorem trading_pair_halves (currency ledger : string) :
  contains "@" currency = false ->
  ledgerOf (currency ++ String "@" ledger) = ledger /\
  currencyOf (currency ++ String "@" ledger) = Some currency /\
  ledgerOf currency = EmptyString /\
  currencyOf currency = Some currency.
Proof.
  intros H. unfold ledgerOf, currencyOf.
  rewrite split_prefix by exact H. rewrite (split_whole _ currency) by exact H.
  split; [apply concat_split|]. repeat split.
Qed.

Lemma trading_pair_halves_witness :
  ledgerOf "USD@alice@ledger.a." = "alice@ledger.a."%string /\
  currencyOf "USD@alice@ledger.a." = Some "USD"%string.
Proof.
  destruct (trading_pair_halves "USD" "alice@ledger.a." eq_refl)
    as (H1 & H2 & _).
  split; [exact H1|exact H2].
Defined.

End TradingPairFacts.
